(** * CheckpointFile: the block-addressed checkpoint file store

    A shallow embedding of [server/checkpoint_file.cpp]: the allocator over
    the two bit arrays, the file set with its naming rule, the block I/O
    entry points and the file-name parser, followed by the properties that
    are proved about them. *)

From Stdlib Require Import ZArith Lia Ascii String.
From stdpp Require Import gmap strings list fin_maps.

Local Open Scope Z_scope.

(** ** Machine integers

    Every integer of the class is held in [Z]; the wrap-around of the C++
    types is written where the source computes. *)

(** [uint64_t] arithmetic. *)
Definition wrap64 (z : Z) : Z := z mod 2 ^ 64.

(** Conversion to [int64_t]. *)
Definition to_int64 (z : Z) : Z := (z + 2 ^ 63) mod 2 ^ 64 - 2 ^ 63.

(** [uint32_t] arithmetic. *)
Definition wrap32 (z : Z) : Z := z mod 2 ^ 32.

Definition UINT32_MAX : Z := 2 ^ 32 - 1.
Definition INT32_MAX : Z := 2 ^ 31 - 1.
Definition INT32_MIN : Z := - 2 ^ 31.

(** ** The bit array *)

Module BitArray.

(** Modelled from the spec: the class [BitArray] (bit_array.h) is not among
    the sources.  The model follows the spec's section 4.1, except for
    [reset] (see there): a dense bit vector with [get], [set], [append],
    [reserve], [clear], [reset] and [length].  A position that holds no bit
    reads as [false]. *)
Abbreviation t := (list bool).

Definition length (a : t) : Z := Z.of_nat (List.length a).

Definition get (a : t) (pos : Z) : bool :=
  if (0 <=? pos) && (pos <? length a)
  then default false (a !! Z.to_nat pos)
  else false.

(** Modelled from the spec: "set(i, v) on i >= length grows the vector,
    zero-filling intermediate bits". *)
Definition set (a : t) (pos : Z) (value : bool) : t :=
  if pos <? length a
  then <[Z.to_nat pos := value]> a
  else a ++ replicate (Z.to_nat pos - List.length a) false ++ [value].

(** Modelled from the spec: "append returns the index at which the bit
    was stored". *)
Definition append (a : t) (value : bool) : t * Z := (a ++ [value], length a).

(** Modelled from the spec: [reserve] changes the capacity only. *)
Definition reserve (a : t) (capacity : Z) : t := a.

(** Modelled from the spec: "clear drops length to zero". *)
Definition clear (a : t) : t := [].

(** Modelled from the spec: [reset] empties the array.  Section 8.6 has
    [truncate], whose only calls on the two arrays are [reset], yield "both
    bitmaps empty", and [truncate] itself sets [freeUseBitNum_], the number
    of clear bits that the array holds, to 0 beside these calls.  The
    sentence of section 4.1, "reset sets all currently-held bits to false
    while preserving length", is at odds with both and is not followed:
    under it a truncated store would hold as many clear bits as before with
    a free count of 0. *)
Definition reset (a : t) : t := [].

(** The number of [false] bits held. *)
Definition countFalse (a : t) : Z :=
  Z.of_nat (List.length (filter (λ b, b = false) a)).

End BitArray.

(** ** Constants of the header

    [checkpoint_file.h] is not among the sources; its constants are kept as
    parameters, so that every general result holds for all their values. *)
Class HeaderConstants := {
  ALLOCATE_BLOCK_SEARCH_LIMIT : Z;
  FILE_SPLIT_COUNT_LIMIT : Z;
  FILE_SPLIT_STRIPE_SIZE_LIMIT : Z;
  IO_MONITOR_DEFAULT_WARNING_THRESHOLD_MILLIS : Z
}.

(** ** The operating system as the class sees it *)

Inductive Node :=
| Dir
| File (size : N).

(** A hole-punch request, [preAllocate(FALLOC_FL_KEEP_SIZE |
    FALLOC_FL_PUNCH_HOLE, offset, length)] on the named file. *)
Record PunchRequest := {
  pr_file : string;
  pr_offset : Z;
  pr_length : Z
}.

Record OS := {
  os_nodes : gmap string Node;
  os_punched : list PunchRequest
}.

(** [util::NamedFile]: an open handle. *)
Record NamedFile := {
  nf_name : string;
  nf_readOnly : bool;
  nf_locked : bool;
  nf_closed : bool
}.

(** [new util::NamedFile()]: a handle that is not yet open. *)
Definition NamedFile_new : NamedFile :=
  {| nf_name := ""; nf_readOnly := false; nf_locked := false;
     nf_closed := true |}.

Inductive ErrorCode :=
| GS_ERROR_CF_INVALID_DIRECTORY
| GS_ERROR_CM_FILE_NOT_FOUND
| GS_ERROR_CF_READ_CHUNK_FAILED
| GS_ERROR_CM_IO_ERROR.

(** ** The state of a [CheckpointFile] *)

(** The members fixed by the constructor. *)
Record Config := {
  BLOCK_EXP_SIZE_ : Z;
  BLOCK_SIZE_ : Z;
  pgId_ : Z;
  dir_ : string;
  splitMode_ : bool;
  splitCount_ : Z;
  stripeSize_ : Z;
  ioWarningThresholdMillis_ : Z
}.

(** The per-file vectors. *)
Record FileSet := {
  fileList_ : list (option NamedFile);
  dirList_ : list string;
  fileNameList_ : list string;
  blockCountList_ : list Z
}.

Record Counters := {
  readBlockCount_ : Z;
  writeBlockCount_ : Z;
  readRetryCount_ : Z;
  writeRetryCount_ : Z
}.

Record CheckpointFile := {
  config : Config;
  usedChunkInfo_ : BitArray.t;
  validChunkInfo_ : BitArray.t;
  blockNum_ : Z;
  freeUseBitNum_ : Z;
  freeBlockSearchCursor_ : Z;
  fileSet : FileSet;
  counters : Counters
}.

Definition with_used (u : BitArray.t) (cf : CheckpointFile) : CheckpointFile :=
  {| config := config cf; usedChunkInfo_ := u;
     validChunkInfo_ := validChunkInfo_ cf; blockNum_ := blockNum_ cf;
     freeUseBitNum_ := freeUseBitNum_ cf;
     freeBlockSearchCursor_ := freeBlockSearchCursor_ cf;
     fileSet := fileSet cf; counters := counters cf |}.

Definition with_valid (v : BitArray.t) (cf : CheckpointFile) : CheckpointFile :=
  {| config := config cf; usedChunkInfo_ := usedChunkInfo_ cf;
     validChunkInfo_ := v; blockNum_ := blockNum_ cf;
     freeUseBitNum_ := freeUseBitNum_ cf;
     freeBlockSearchCursor_ := freeBlockSearchCursor_ cf;
     fileSet := fileSet cf; counters := counters cf |}.

Definition with_blockNum (n : Z) (cf : CheckpointFile) : CheckpointFile :=
  {| config := config cf; usedChunkInfo_ := usedChunkInfo_ cf;
     validChunkInfo_ := validChunkInfo_ cf; blockNum_ := n;
     freeUseBitNum_ := freeUseBitNum_ cf;
     freeBlockSearchCursor_ := freeBlockSearchCursor_ cf;
     fileSet := fileSet cf; counters := counters cf |}.

Definition with_freeUseBitNum (n : Z) (cf : CheckpointFile) : CheckpointFile :=
  {| config := config cf; usedChunkInfo_ := usedChunkInfo_ cf;
     validChunkInfo_ := validChunkInfo_ cf; blockNum_ := blockNum_ cf;
     freeUseBitNum_ := n;
     freeBlockSearchCursor_ := freeBlockSearchCursor_ cf;
     fileSet := fileSet cf; counters := counters cf |}.

Definition with_cursor (c : Z) (cf : CheckpointFile) : CheckpointFile :=
  {| config := config cf; usedChunkInfo_ := usedChunkInfo_ cf;
     validChunkInfo_ := validChunkInfo_ cf; blockNum_ := blockNum_ cf;
     freeUseBitNum_ := freeUseBitNum_ cf;
     freeBlockSearchCursor_ := c;
     fileSet := fileSet cf; counters := counters cf |}.

Definition with_fileSet (f : FileSet) (cf : CheckpointFile) : CheckpointFile :=
  {| config := config cf; usedChunkInfo_ := usedChunkInfo_ cf;
     validChunkInfo_ := validChunkInfo_ cf; blockNum_ := blockNum_ cf;
     freeUseBitNum_ := freeUseBitNum_ cf;
     freeBlockSearchCursor_ := freeBlockSearchCursor_ cf;
     fileSet := f; counters := counters cf |}.

Definition with_counters (c : Counters) (cf : CheckpointFile) : CheckpointFile :=
  {| config := config cf; usedChunkInfo_ := usedChunkInfo_ cf;
     validChunkInfo_ := validChunkInfo_ cf; blockNum_ := blockNum_ cf;
     freeUseBitNum_ := freeUseBitNum_ cf;
     freeBlockSearchCursor_ := freeBlockSearchCursor_ cf;
     fileSet := fileSet cf; counters := c |}.

(** ** The allocator *)

Section Allocator.
Context `{HeaderConstants}.

(** [setUsedBlockInfo]: store the flag, and move [freeUseBitNum_] only
    when the bit really flips. *)
Definition setUsedBlockInfo (blockNo : Z) (flag : bool) (cf : CheckpointFile)
  : CheckpointFile :=
  let oldFlag := BitArray.get (usedChunkInfo_ cf) blockNo in
  let cf := with_used (BitArray.set (usedChunkInfo_ cf) blockNo flag) cf in
  if flag && negb (Bool.eqb oldFlag flag)
  then with_freeUseBitNum (wrap64 (freeUseBitNum_ cf - 1)) cf
  else if negb flag && negb (Bool.eqb oldFlag flag)
  then with_freeUseBitNum (wrap64 (freeUseBitNum_ cf + 1)) cf
  else cf.

Definition getUsedBlockInfo (blockNo : Z) (cf : CheckpointFile) : bool :=
  BitArray.get (usedChunkInfo_ cf) blockNo.

(** The body shared by the two [for] loops of [allocateBlock].  [n] is the
    number of positions left before [pos] reaches the loop's bound; the
    result is [(allocatePos, pos, count)] as the loop leaves them. *)
Fixpoint searchFree (u : BitArray.t) (n : nat) (pos count : Z) : Z * Z * Z :=
  match n with
  | O => (-1, pos, count)
  | S n' =>
      if negb (BitArray.get u pos) then (to_int64 pos, pos, count)
      else if ALLOCATE_BLOCK_SEARCH_LIMIT <? count then (-1, pos, count)
      else searchFree u n' (wrap64 (pos + 1)) (count + 1)
  end.

(** The search of [allocateBlock] when [freeUseBitNum_ > 0]: from the
    cursor to the end, then from 0 to the cursor. *)
Definition searchFromCursor (u : BitArray.t) (startPos : Z) : Z * Z * Z :=
  let usedChunkInfoSize := BitArray.length u in
  let '(allocatePos, pos, count) :=
    searchFree u (Z.to_nat (usedChunkInfoSize - startPos)) startPos 0 in
  if (allocatePos =? -1) && (count <=? ALLOCATE_BLOCK_SEARCH_LIMIT)
  then searchFree u (Z.to_nat startPos) 0 count
  else (allocatePos, pos, count).

Definition allocateBlock (cf : CheckpointFile) : CheckpointFile * Z :=
  let usedChunkInfoSize := BitArray.length (usedChunkInfo_ cf) in
  let '(allocatePos, cf) :=
    if 0 <? freeUseBitNum_ cf then
      let '(allocatePos, pos, _) :=
        searchFromCursor (usedChunkInfo_ cf) (freeBlockSearchCursor_ cf) in
      let cursor := wrap64 (pos + 1) in
      (allocatePos,
       with_cursor (if usedChunkInfoSize <=? cursor then 0 else cursor) cf)
    else (-1, cf) in
  let '(allocatePos, cf) :=
    if allocatePos =? -1 then
      let '(u, idx) := BitArray.append (usedChunkInfo_ cf) true in
      let allocatePos := to_int64 idx in
      (allocatePos,
       with_valid
         (BitArray.set (validChunkInfo_ cf) (wrap64 allocatePos) false)
         (with_used u cf))
    else (allocatePos, cf) in
  (setUsedBlockInfo (wrap64 allocatePos) true cf, allocatePos).

(** [freeBlock]; its two assertions are the preconditions of the
    properties below. *)
Definition freeBlock (blockNo : Z) (cf : CheckpointFile) : CheckpointFile :=
  setUsedBlockInfo blockNo false cf.

(** [initializeUsedBlockInfo]: [blockNum_] appended [false] bits. *)
Definition initializeUsedBlockInfo (cf : CheckpointFile) : CheckpointFile :=
  let u := BitArray.reserve (BitArray.clear (usedChunkInfo_ cf)) (blockNum_ cf) in
  let cf := with_freeUseBitNum (blockNum_ cf) (with_used u cf) in
  with_used
    (fold_left (λ a _, fst (BitArray.append a false))
       (seqZ 0 (blockNum_ cf)) (usedChunkInfo_ cf)) cf.

Definition setValidBlockInfo (blockNo : Z) (flag : bool) (cf : CheckpointFile)
  : CheckpointFile :=
  with_valid (BitArray.set (validChunkInfo_ cf) blockNo flag) cf.

Definition getValidBlockInfo (blockNo : Z) (cf : CheckpointFile) : bool :=
  BitArray.get (validChunkInfo_ cf) blockNo.

Definition initializeValidBlockInfo (cf : CheckpointFile) : CheckpointFile :=
  let v := BitArray.reserve (BitArray.clear (validChunkInfo_ cf)) (blockNum_ cf) in
  with_valid
    (fold_left (λ a _, fst (BitArray.append a false))
       (seqZ 0 (blockNum_ cf)) v) cf.

End Allocator.

(** *** The positions of the search *)

Section ScanWindow.
Context `{HeaderConstants}.

(** The positions that the search of [allocateBlock] tests when it meets
    no clear bit.  Each loop tests the bit before it compares the count
    with the limit, so the first loop tests
    [ALLOCATE_BLOCK_SEARCH_LIMIT + 2] positions from the cursor at most;
    the second loop runs when the first has ended at the end of the array
    with a count of [ALLOCATE_BLOCK_SEARCH_LIMIT] at most, and goes on with
    that count from position 0 to the cursor. *)
Definition scanWindow (u : BitArray.t) (cursor : Z) : list Z :=
  let n := BitArray.length u - cursor in
  seqZ cursor (Z.min n (ALLOCATE_BLOCK_SEARCH_LIMIT + 2))
  ++ (if n <=? ALLOCATE_BLOCK_SEARCH_LIMIT
      then seqZ 0 (Z.min cursor (ALLOCATE_BLOCK_SEARCH_LIMIT + 2 - n))
      else []).

(** The capped scan in the words of the spec's section 4.4: "scan used
    starting at cursor, for at most SEARCH_LIMIT positions", and "wrap
    around from position 0 up to the starting cursor, again capped". *)
Definition specWindow (u : BitArray.t) (cursor : Z) : list Z :=
  seqZ cursor (Z.min (BitArray.length u - cursor) ALLOCATE_BLOCK_SEARCH_LIMIT)
  ++ seqZ 0 (Z.min cursor ALLOCATE_BLOCK_SEARCH_LIMIT).

End ScanWindow.


(** ** Decimal output

    [operator<<] of an output stream on an integer: decimal digits, a
    leading minus for a negative value, no padding. *)

Definition digitChar (d : Z) : ascii := ascii_of_nat (Z.to_nat (48 + d)).

Fixpoint showDigits (fuel : nat) (n : Z) (acc : list ascii) : list ascii :=
  match fuel with
  | O => acc
  | S fuel' =>
      let acc' := digitChar (n mod 10) :: acc in
      if n <? 10 then acc' else showDigits fuel' (n / 10) acc'
  end.

(** The binary length of [n] bounds its number of decimal digits. *)
Definition showUnsigned (n : Z) : list ascii :=
  showDigits (S (Z.to_nat (Z.log2 n))) n [].

Definition showInt (z : Z) : string :=
  string_of_list_ascii
    (if z <? 0 then "-"%char :: showUnsigned (- z) else showUnsigned z).

(** ** File names *)

Definition gsCpFileBaseName : string := "gs_cp_".
Definition gsCpFileExtension : string := ".dat".
Definition gsCpFileSeparator : string := "_".

(** The name [open] composes for partition group [pgId] and index [i],
    without its directory. *)
Definition cpFileName (pgId i : Z) : string :=
  gsCpFileBaseName +:+ showInt pgId +:+ gsCpFileSeparator
    +:+ showInt i +:+ gsCpFileExtension.

(** ** Block address mapper *)

(** Modelled from the spec: [calcFileNth] is declared in checkpoint_file.h,
    which is not among the sources.  Section 3: "file index = (b / T) mod
    S"; "when S == 1, file index = 0". *)
Definition calcFileNth (c : Config) (offset : Z) : Z :=
  if splitCount_ c =? 1 then 0
  else ((offset / BLOCK_SIZE_ c) / stripeSize_ c) mod splitCount_ c.

(** Modelled from the spec: [calcFileOffset] is declared in
    checkpoint_file.h, which is not among the sources.  Section 3:
    "file-local block index = ((b / T) / S) * T + (b mod T)", "file-local
    byte offset = file-local block index * BLOCK_SIZE", and for S == 1 the
    byte offset itself; a position inside a block keeps its distance from
    the block's start. *)
Definition calcFileOffset (c : Config) (offset : Z) : Z :=
  if splitCount_ c =? 1 then offset
  else
    let b := offset / BLOCK_SIZE_ c in
    (((b / stripeSize_ c) / splitCount_ c) * stripeSize_ c
     + b mod stripeSize_ c) * BLOCK_SIZE_ c
    + offset mod BLOCK_SIZE_ c.

(** ** Computations that change the store and the file system, or throw *)

Definition M (A : Type) : Type :=
  CheckpointFile * OS → CheckpointFile * OS * (ErrorCode + A).

Definition ret {A} (a : A) : M A := λ s, (s, inr a).

Definition throw {A} (e : ErrorCode) : M A := λ s, (s, inl e).

Definition bind {A B} (m : M A) (k : A → M B) : M B :=
  λ s, match m s with
       | (s', inl e) => (s', inl e)
       | (s', inr a) => k a s'
       end.

Notation "x <- m ;; k" := (bind m (λ x, k))
  (at level 100, m at next level, right associativity).
Notation "m ;;; k" := (bind m (λ _, k))
  (at level 100, right associativity).

Definition getCf : M CheckpointFile := λ s, (s, inr (fst s)).
Definition modifyCf (f : CheckpointFile → CheckpointFile) : M unit :=
  λ s, ((f (fst s), snd s), inr tt).
Definition getOs : M OS := λ s, (s, inr (snd s)).
Definition modifyOs (f : OS → OS) : M unit :=
  λ s, ((fst s, f (snd s)), inr tt).

(** A [for] loop over the values of [l], stopped by the first throw. *)
Fixpoint forEach {A} (l : list A) (body : A → M unit) : M unit :=
  match l with
  | [] => ret tt
  | x :: l' => body x ;;; forEach l' body
  end.

(** *** The file layer

    Modelled from the spec: [util::FileSystem] and [util::NamedFile] are not
    among the sources.  A path names a directory, a file of some size, or
    nothing; opening fails on a directory, on a missing file that may not be
    created and on the empty path, at which nothing is created; locking
    succeeds. *)

Definition FileSystem_exists (path : string) : M bool :=
  os <- getOs ;; ret (bool_decide (is_Some (os_nodes os !! path))).

Definition FileSystem_isDirectory (path : string) : M bool :=
  os <- getOs ;;
  ret (match os_nodes os !! path with Some Dir => true | _ => false end).

Definition setNode (path : string) (n : Node) (os : OS) : OS :=
  {| os_nodes := <[path := n]> (os_nodes os); os_punched := os_punched os |}.

Definition NamedFile_open (name : string) (create trunc readOnly : bool)
  : M NamedFile :=
  os <- getOs ;;
  let handle :=
    {| nf_name := name; nf_readOnly := readOnly; nf_locked := false;
       nf_closed := false |} in
  match os_nodes os !! name with
  | Some (File _) =>
      (if trunc then modifyOs (setNode name (File 0)) else ret tt) ;;;
      ret handle
  | Some Dir => throw GS_ERROR_CM_IO_ERROR
  | None =>
      if create && negb (bool_decide (name = ""%string))
      then modifyOs (setNode name (File 0)) ;;; ret handle
      else throw GS_ERROR_CM_IO_ERROR
  end.

Definition NamedFile_lock (f : NamedFile) : NamedFile :=
  {| nf_name := nf_name f; nf_readOnly := nf_readOnly f; nf_locked := true;
     nf_closed := nf_closed f |}.

Definition NamedFile_getSize (f : NamedFile) : M Z :=
  os <- getOs ;;
  match os_nodes os !! nf_name f with
  | Some (File size) => ret (Z.of_N size)
  | _ => throw GS_ERROR_CM_IO_ERROR
  end.

(** Modelled from the spec: [util::NamedFile::preAllocate] is not among the
    sources.  Section 4.6: "Requests the filesystem to deallocate storage
    for the given byte range while keeping the logical file size", and
    "Failures propagate as I/O errors"; section 7 counts "any underlying OS
    read/write/fallocate/sync/open/lock failure" as an io-error.  The
    request fails through a handle that is closed or read-only, on a path
    that is no file, and when the operating system refuses it ([granted] is
    false); a request that is granted is recorded in [os_punched] and the
    sizes of the files stay. *)
Definition NamedFile_preAllocate (f : NamedFile) (offset len : Z)
    (granted : bool) : M unit :=
  os <- getOs ;;
  match os_nodes os !! nf_name f with
  | Some (File _) =>
      if negb (nf_closed f) && negb (nf_readOnly f) && granted
      then
        modifyOs (λ os,
          {| os_nodes := os_nodes os;
             os_punched := os_punched os ++
               [{| pr_file := nf_name f; pr_offset := offset;
                   pr_length := len |}] |})
      else throw GS_ERROR_CM_IO_ERROR
  | _ => throw GS_ERROR_CM_IO_ERROR
  end.

(** What the operating system did with one read or write request: it was
    completed after so many short transfers, or it failed. *)
Inductive IoOutcome :=
| IoDone (retryCount : Z)
| IoFailed.

(** Modelled from the spec: the macro [GS_FILE_WRITE_ALL] is not among the
    sources.  Section 4.6: "a loop that tolerates short writes by retrying
    the remainder"; a completed write of [len > 0] bytes leaves the file at
    least [offset + len] bytes long, and a transfer of no bytes leaves it as
    it is. *)
Definition GS_FILE_WRITE_ALL (f : NamedFile) (len offset : Z) (io : IoOutcome)
  : M Z :=
  match io with
  | IoFailed => throw GS_ERROR_CM_IO_ERROR
  | IoDone retryCount =>
      os <- getOs ;;
      match os_nodes os !! nf_name f with
      | Some (File size) =>
          modifyOs (setNode (nf_name f)
                      (File (if 0 <? len
                             then N.max size (Z.to_N (offset + len))
                             else size))) ;;;
          ret retryCount
      | _ => throw GS_ERROR_CM_IO_ERROR
      end
  end.

(** Modelled from the spec: the macro [GS_FILE_READ_ALL] is not among the
    sources.  Section 4.6: "reads all requested bytes, retrying on short
    reads". *)
Definition GS_FILE_READ_ALL (f : NamedFile) (len offset : Z) (io : IoOutcome)
  : M Z :=
  match io with
  | IoFailed => throw GS_ERROR_CM_IO_ERROR
  | IoDone retryCount =>
      os <- getOs ;;
      match os_nodes os !! nf_name f with
      | Some (File _) => ret retryCount
      | _ => throw GS_ERROR_CM_IO_ERROR
      end
  end.

(** *** Access to the per-file vectors *)

Definition fileAt (cf : CheckpointFile) (i : Z) : option NamedFile :=
  mjoin (fileList_ (fileSet cf) !! Z.to_nat i).

Definition fileNameAt (cf : CheckpointFile) (i : Z) : string :=
  default "" (fileNameList_ (fileSet cf) !! Z.to_nat i).

Definition dirAt (cf : CheckpointFile) (i : Z) : string :=
  default "" (dirList_ (fileSet cf) !! Z.to_nat i).

Definition setFileAt (i : Z) (f : option NamedFile) (cf : CheckpointFile)
  : CheckpointFile :=
  let fs := fileSet cf in
  with_fileSet
    {| fileList_ := <[Z.to_nat i := f]> (fileList_ fs);
       dirList_ := dirList_ fs; fileNameList_ := fileNameList_ fs;
       blockCountList_ := blockCountList_ fs |} cf.

Definition setFileNameAt (i : Z) (name : string) (cf : CheckpointFile)
  : CheckpointFile :=
  let fs := fileSet cf in
  with_fileSet
    {| fileList_ := fileList_ fs; dirList_ := dirList_ fs;
       fileNameList_ := <[Z.to_nat i := name]> (fileNameList_ fs);
       blockCountList_ := blockCountList_ fs |} cf.

Definition setBlockCountAt (i : Z) (n : Z) (cf : CheckpointFile)
  : CheckpointFile :=
  let fs := fileSet cf in
  with_fileSet
    {| fileList_ := fileList_ fs; dirList_ := dirList_ fs;
       fileNameList_ := fileNameList_ fs;
       blockCountList_ := <[Z.to_nat i := n]> (blockCountList_ fs) |} cf.

(** ** Construction, [open], [truncate], [close] *)

Section FileSetOps.
Context `{HeaderConstants}.

(** The constructor: it yields a store or throws on a bad configuration. *)
Definition CheckpointFile_new (chunkExpSize : Z) (dir : string) (pgId : Z)
    (splitCount stripeSize : Z) (configDirList : list string) (os : OS)
  : ErrorCode + CheckpointFile :=
  let splitMode := 0 <? splitCount in
  let splitCount_' := if splitCount =? 0 then 1 else splitCount in
  let n := Z.to_nat splitCount_' in
  let configDirCount := Z.of_nat (List.length configDirList) in
  let build (dirs : list string) : CheckpointFile :=
    {| config :=
         {| BLOCK_EXP_SIZE_ := chunkExpSize;
            BLOCK_SIZE_ := wrap64 (Z.shiftl 1 chunkExpSize);
            pgId_ := pgId; dir_ := dir; splitMode_ := splitMode;
            splitCount_ := splitCount_'; stripeSize_ := stripeSize;
            ioWarningThresholdMillis_ :=
              IO_MONITOR_DEFAULT_WARNING_THRESHOLD_MILLIS |};
       usedChunkInfo_ := []; validChunkInfo_ := [];
       blockNum_ := 0; freeUseBitNum_ := 0; freeBlockSearchCursor_ := 0;
       fileSet :=
         {| fileList_ := replicate n None; dirList_ := dirs;
            fileNameList_ := replicate n ""%string;
            blockCountList_ := replicate n 0 |};
       counters :=
         {| readBlockCount_ := 0; writeBlockCount_ := 0;
            readRetryCount_ := 0; writeRetryCount_ := 0 |} |} in
  if splitMode then
    if splitCount_' <? configDirCount then inl GS_ERROR_CF_INVALID_DIRECTORY
    else if configDirCount =? 0 then inl GS_ERROR_CF_INVALID_DIRECTORY
    else if FILE_SPLIT_COUNT_LIMIT <? splitCount_'
    then inl GS_ERROR_CF_INVALID_DIRECTORY
    else if FILE_SPLIT_STRIPE_SIZE_LIMIT <? stripeSize
    then inl GS_ERROR_CF_INVALID_DIRECTORY
    else
      let dirs :=
        (λ i : Z, default ""%string
                    (configDirList !! Z.to_nat (i mod configDirCount)))
          <$> seqZ 0 splitCount_' in
      if forallb (λ d, match os_nodes os !! d with
                       | Some (File _) => false
                       | _ => true
                       end) dirs
      then inr (build dirs)
      else inl GS_ERROR_CM_IO_ERROR
  else
    if negb (configDirCount =? 0) then inl GS_ERROR_CF_INVALID_DIRECTORY
    else inr (build (<[0%nat := dir]> (replicate n ""%string))).

(** The directory test of [open]: the path must exist and be a directory. *)
Definition checkDirectory (path : string) : M unit :=
  ex <- FileSystem_exists path ;;
  if ex : bool then
    isDir <- FileSystem_isDirectory path ;;
    if isDir : bool then ret tt else throw GS_ERROR_CF_INVALID_DIRECTORY
  else throw GS_ERROR_CF_INVALID_DIRECTORY.

(** One turn of the loop of [open]; the result is the block count that the
    turn adds to [totalBlockCount]. *)
Definition openFile (checkOnly createMode : bool) (i : Z) : M Z :=
  cf <- getCf ;;
  let c := config cf in
  fileName <-
    (if splitMode_ c then
       checkDirectory (dirAt cf i) ;;;
       ret (dirAt cf i +:+ "/" +:+ cpFileName (pgId_ c) i)
     else
       prefix <-
         (if bool_decide (dir_ c = ""%string) then ret ""%string
          else checkDirectory (dir_ c) ;;; ret (dir_ c +:+ "/")) ;;
       ret (prefix +:+ cpFileName (pgId_ c) 1)) ;;
  modifyCf (setFileNameAt i fileName) ;;;
  ex <- FileSystem_exists fileName ;;
  if ex : bool then
    modifyCf (setFileAt i (Some NamedFile_new)) ;;;
    f <- NamedFile_open fileName false false checkOnly ;;
    let f := if checkOnly then f else NamedFile_lock f in
    modifyCf (setFileAt i (Some f)) ;;;
    size <- NamedFile_getSize f ;;
    let chunkNum :=
      to_int64 (wrap64 (size + BLOCK_SIZE_ c - 1) / BLOCK_SIZE_ c) in
    modifyCf (setBlockCountAt i chunkNum) ;;;
    ret chunkNum
  else if checkOnly then throw GS_ERROR_CM_FILE_NOT_FOUND
  else if negb createMode then throw GS_ERROR_CM_FILE_NOT_FOUND
  else
    modifyCf (setFileAt i (Some NamedFile_new)) ;;;
    f <- NamedFile_open fileName true false false ;;
    modifyCf (setFileAt i (Some (NamedFile_lock f))) ;;;
    modifyCf (setBlockCountAt i 0) ;;;
    ret 0.

(** The loop of [open] over the split files, carrying [totalBlockCount]. *)
Fixpoint openFiles (checkOnly createMode : bool) (l : list Z)
    (totalBlockCount : Z) : M Z :=
  match l with
  | [] => ret totalBlockCount
  | i :: l' =>
      chunkNum <- openFile checkOnly createMode i ;;
      openFiles checkOnly createMode l' (to_int64 (totalBlockCount + chunkNum))
  end.

(** [open]: the result says whether the store holds no block. *)
Definition open (checkOnly createMode : bool) : M bool :=
  cf <- getCf ;;
  totalBlockCount <-
    openFiles checkOnly createMode (seqZ 0 (splitCount_ (config cf))) 0 ;;
  modifyCf (λ cf,
    let cf := with_blockNum (wrap64 totalBlockCount) cf in
    let u := BitArray.reserve (usedChunkInfo_ cf) (wrap64 (totalBlockCount + 1)) in
    let cf := with_used (BitArray.set u (wrap64 (totalBlockCount + 1)) false) cf in
    let v := BitArray.reserve (validChunkInfo_ cf) (wrap64 (totalBlockCount + 1)) in
    let cf := with_valid (BitArray.set v (wrap64 (totalBlockCount + 1)) false) cf in
    let cf := with_freeUseBitNum (BitArray.length (usedChunkInfo_ cf)) cf in
    with_cursor 0 cf) ;;;
  ret (totalBlockCount =? 0).

(** One turn of the loop of [truncate]. *)
Definition truncateFile (i : Z) : M unit :=
  cf <- getCf ;;
  modifyCf (setFileAt i (Some NamedFile_new)) ;;;
  f <- NamedFile_open (fileNameAt cf i) true true false ;;
  modifyCf (setFileAt i (Some (NamedFile_lock f))) ;;;
  modifyCf (setBlockCountAt i 0).

Definition truncate : M unit :=
  cf <- getCf ;;
  forEach (seqZ 0 (splitCount_ (config cf))) truncateFile ;;;
  modifyCf (λ cf,
    let cf := with_blockNum 0 cf in
    let cf := with_freeUseBitNum 0 cf in
    let cf := with_cursor 0 cf in
    let cf := with_used (BitArray.reset (usedChunkInfo_ cf)) cf in
    with_valid (BitArray.reset (validChunkInfo_ cf)) cf).

Definition close : M unit :=
  cf <- getCf ;;
  forEach (seqZ 0 (splitCount_ (config cf)))
    (λ i, modifyCf (setFileAt i None)).

End FileSetOps.

(** ** Block I/O *)

Definition addWriteRetry (n : Z) (cf : CheckpointFile) : CheckpointFile :=
  let c := counters cf in
  with_counters
    {| readBlockCount_ := readBlockCount_ c;
       writeBlockCount_ := writeBlockCount_ c;
       readRetryCount_ := readRetryCount_ c;
       writeRetryCount_ := wrap64 (writeRetryCount_ c + n) |} cf.

Definition addWriteBlockCount (n : Z) (cf : CheckpointFile) : CheckpointFile :=
  let c := counters cf in
  with_counters
    {| readBlockCount_ := readBlockCount_ c;
       writeBlockCount_ := wrap64 (writeBlockCount_ c + n);
       readRetryCount_ := readRetryCount_ c;
       writeRetryCount_ := writeRetryCount_ c |} cf.

Definition addReadRetry (n : Z) (cf : CheckpointFile) : CheckpointFile :=
  let c := counters cf in
  with_counters
    {| readBlockCount_ := readBlockCount_ c;
       writeBlockCount_ := writeBlockCount_ c;
       readRetryCount_ := wrap64 (readRetryCount_ c + n);
       writeRetryCount_ := writeRetryCount_ c |} cf.

Definition addReadBlockCount (n : Z) (cf : CheckpointFile) : CheckpointFile :=
  let c := counters cf in
  with_counters
    {| readBlockCount_ := wrap64 (readBlockCount_ c + n);
       writeBlockCount_ := writeBlockCount_ c;
       readRetryCount_ := readRetryCount_ c;
       writeRetryCount_ := writeRetryCount_ c |} cf.

(** The lazy reopening of the write paths: a null entry of [fileList_] is
    replaced by a created and locked file. *)
Definition reopenForWrite (fileNth : Z) : M NamedFile :=
  cf <- getCf ;;
  match fileAt cf fileNth with
  | Some f => ret f
  | None =>
      modifyCf (setFileAt fileNth (Some NamedFile_new)) ;;;
      f <- NamedFile_open (fileNameAt cf fileNth) true false false ;;
      modifyCf (setFileAt fileNth (Some (NamedFile_lock f))) ;;;
      ret (NamedFile_lock f)
  end.

(** [punchHoleBlock(size, offset)].  [size] is a [uint32_t]: the argument is
    taken modulo 2^32.  [granted] is what the operating system does with the
    request; a failed request is thrown on. *)
Definition punchHoleBlock (size offset : Z) (granted : bool) : M unit :=
  cf <- getCf ;;
  let size := wrap32 size in
  let fileNth := calcFileNth (config cf) offset in
  let fileOffset := calcFileOffset (config cf) offset in
  match fileAt cf fileNth with
  | Some f =>
      if negb (nf_closed f) && (0 <? size)
      then NamedFile_preAllocate f fileOffset size granted
      else ret tt
  | None => ret tt
  end.

(** One turn of the loop of [zerofillUnusedBlock].  The call is made through
    [fileList_[fileNth]], which the source asserts to be set; a null entry
    ends the run.  [length] is an [off_t], and a failed request is thrown
    on. *)
Definition zerofillBlock (granted : Z → bool) (i : Z) : M unit :=
  cf <- getCf ;;
  if negb (BitArray.get (usedChunkInfo_ cf) i) then
    let offset := to_int64 (wrap64 (i * BLOCK_SIZE_ (config cf))) in
    let fileNth := calcFileNth (config cf) (wrap64 offset) in
    let fileOffset := calcFileOffset (config cf) (wrap64 offset) in
    match fileAt cf fileNth with
    | Some f =>
        NamedFile_preAllocate f fileOffset
          (to_int64 (BLOCK_SIZE_ (config cf))) (granted i)
    | None => throw GS_ERROR_CM_IO_ERROR
    end
  else ret tt.

(** [zerofillUnusedBlock]: the blocks from 1 to [length - 1].  [granted i]
    is what the operating system does with the request for block [i]. *)
Definition zerofillUnusedBlock (granted : Z → bool) : M unit :=
  cf <- getCf ;;
  let blockNum := BitArray.length (usedChunkInfo_ cf) in
  forEach (seqZ 1 (blockNum - 1)) (zerofillBlock granted).

(** [size << BLOCK_EXP_SIZE_] on a [uint32_t]. *)
Definition shiftSize (c : Config) (size : Z) : Z :=
  wrap32 (Z.shiftl size (BLOCK_EXP_SIZE_ c)).

(** [writeBlock(buffer, size, blockNo)]; [io] is what the operating system
    does with the request. *)
Definition writeBlock (size blockNo : Z) (io : IoOutcome) : M Z :=
  cf <- getCf ;;
  let c := config cf in
  let offset := wrap64 (blockNo * BLOCK_SIZE_ c) in
  let fileNth := calcFileNth c offset in
  let fileOffset := calcFileOffset c offset in
  f <- reopenForWrite fileNth ;;
  retryCount <- GS_FILE_WRITE_ALL f (shiftSize c size) fileOffset io ;;
  let writtenSize := shiftSize c size in
  modifyCf (addWriteRetry retryCount) ;;;
  modifyCf (λ cf,
    if blockNum_ cf <? wrap64 (size + blockNo)
    then with_blockNum (wrap64 (size + blockNo)) cf else cf) ;;;
  let writeBlockNum := Z.shiftr writtenSize (BLOCK_EXP_SIZE_ c) in
  modifyCf (addWriteBlockCount writeBlockNum) ;;;
  ret size.

(** [writePartialBlock(buffer, size, offset)]. *)
Definition writePartialBlock (size offset : Z) (io : IoOutcome) : M Z :=
  cf <- getCf ;;
  let c := config cf in
  let fileNth := calcFileNth c offset in
  let fileOffset := calcFileOffset c offset in
  f <- reopenForWrite fileNth ;;
  retryCount <- GS_FILE_WRITE_ALL f size fileOffset io ;;
  let writtenSize := size in
  modifyCf (addWriteRetry retryCount) ;;;
  modifyCf (λ cf,
    if wrap64 (Z.shiftl (blockNum_ cf) (BLOCK_EXP_SIZE_ c))
       <? wrap64 (size + offset)
    then with_blockNum
           (Z.shiftr (wrap64 (size + offset + BLOCK_SIZE_ c - 1))
              (BLOCK_EXP_SIZE_ c)) cf
    else cf) ;;;
  ret writtenSize.

(** The parameter test that opens [readBlock]. *)
Definition readBlockInvalid (cf : CheckpointFile) (size blockNo : Z) : bool :=
  (blockNum_ cf <? wrap64 (size + blockNo - 1)) || (size =? 0).

(** [readBlock(buffer, size, blockNo)]. *)
Definition readBlock (size blockNo : Z) (io : IoOutcome) : M Z :=
  cf <- getCf ;;
  let c := config cf in
  if readBlockInvalid cf size blockNo
  then throw GS_ERROR_CF_READ_CHUNK_FAILED
  else
    let offset := wrap64 (blockNo * BLOCK_SIZE_ c) in
    let fileNth := calcFileNth c offset in
    let fileOffset := calcFileOffset c offset in
    let transfer (f : NamedFile) : M Z :=
      retryCount <- GS_FILE_READ_ALL f (shiftSize c size) fileOffset io ;;
      let readSize := shiftSize c size in
      modifyCf (addReadRetry retryCount) ;;;
      let readBlockNum := Z.shiftr readSize (BLOCK_EXP_SIZE_ c) in
      modifyCf (addReadBlockCount readBlockNum) ;;;
      ret readBlockNum in
    match fileAt cf fileNth with
    | Some f => transfer f
    | None =>
        ex <- FileSystem_exists (fileNameAt cf fileNth) ;;
        if ex : bool then
          modifyCf (setFileAt fileNth (Some NamedFile_new)) ;;;
          f <- NamedFile_open (fileNameAt cf fileNth) false false false ;;
          modifyCf (setFileAt fileNth (Some (NamedFile_lock f))) ;;;
          transfer (NamedFile_lock f)
        else ret 0
    end.

Definition resetReadBlockCount (cf : CheckpointFile) : CheckpointFile :=
  let c := counters cf in
  with_counters
    {| readBlockCount_ := 0; writeBlockCount_ := writeBlockCount_ c;
       readRetryCount_ := readRetryCount_ c;
       writeRetryCount_ := writeRetryCount_ c |} cf.

Definition resetWriteBlockCount (cf : CheckpointFile) : CheckpointFile :=
  let c := counters cf in
  with_counters
    {| readBlockCount_ := readBlockCount_ c; writeBlockCount_ := 0;
       readRetryCount_ := readRetryCount_ c;
       writeRetryCount_ := writeRetryCount_ c |} cf.

(** ** The file-name parser *)

(** *** [std::string::find] and [rfind] *)

Fixpoint isPrefix (p s : list ascii) : bool :=
  match p, s with
  | [], _ => true
  | _ :: _, [] => false
  | a :: p', b :: s' => bool_decide (a = b) && isPrefix p' s'
  end.

(** [find]: the first position at or after [i] where [needle] occurs, or
    [None] for [npos]. *)
Fixpoint findFrom (needle hay : list ascii) (i : nat) : option nat :=
  if isPrefix needle hay then Some i
  else match hay with
       | [] => None
       | _ :: hay' => findFrom needle hay' (S i)
       end.

(** [rfind]: the last position where [needle] occurs. *)
Fixpoint rfindFrom (needle hay : list ascii) (i : nat) : option nat :=
  match hay with
  | [] => if isPrefix needle hay then Some i else None
  | _ :: hay' =>
      match rfindFrom needle hay' (S i) with
      | Some j => Some j
      | None => if isPrefix needle hay then Some i else None
      end
  end.

(** *** Formatted input from a string stream

    [std::istringstream] in the classic locale, as [checkFileName] uses it:
    decimal base, leading white space skipped by every extraction. *)

Record IStream := {
  is_rest : list ascii;
  is_pos : nat;
  is_fail : bool;
  is_eof : bool
}.

Definition IStream_new (s : list ascii) : IStream :=
  {| is_rest := s; is_pos := 0; is_fail := false; is_eof := false |}.

Definition good (s : IStream) : bool := negb (is_fail s) && negb (is_eof s).

Definition setFail (eof : bool) (s : IStream) : IStream :=
  {| is_rest := is_rest s; is_pos := is_pos s; is_fail := true;
     is_eof := is_eof s || eof |}.

Definition seekg (n : nat) (s : IStream) : IStream :=
  if is_fail s then s
  else if bool_decide (n ≤ is_pos s + List.length (is_rest s))%nat
  then {| is_rest := drop (n - is_pos s) (is_rest s); is_pos := n;
          is_fail := false; is_eof := false |}
  else setFail false s.

Definition tellg (s : IStream) : option nat :=
  if good s then Some (is_pos s) else None.

Definition isSpace (c : ascii) : bool :=
  let n := nat_of_ascii c in
  bool_decide (n = 32 ∨ 9 ≤ n ≤ 13)%nat.

Definition digitValue (c : ascii) : option Z :=
  let n := Z.of_nat (nat_of_ascii c) in
  if (48 <=? n) && (n <=? 57) then Some (n - 48) else None.

Fixpoint skipSpaces (l : list ascii) (pos : nat) : list ascii * nat :=
  match l with
  | c :: l' => if isSpace c then skipSpaces l' (S pos) else (l, pos)
  | [] => ([], pos)
  end.

(** The sentry of a formatted extraction: the stream must be good, white
    space is skipped, and the end of the input fails the extraction. *)
Definition sentry (s : IStream) : IStream :=
  if good s then
    let '(l, pos) := skipSpaces (is_rest s) (is_pos s) in
    let s' := {| is_rest := l; is_pos := pos; is_fail := false;
                 is_eof := false |} in
    match l with
    | [] => setFail true s'
    | _ => s'
    end
  else setFail false s.

(** The digits at the head of [l]: their value after [acc], their number,
    and what follows them. *)
Fixpoint readDigits (l : list ascii) (acc : Z) (n : nat)
  : Z * nat * list ascii :=
  match l with
  | c :: l' =>
      match digitValue c with
      | Some d => readDigits l' (acc * 10 + d) (S n)
      | None => (acc, n, l)
      end
  | [] => (acc, n, [])
  end.

(** [num_get] for an integer type, after the sign: decimal digits.  No
    digit, or a magnitude above [maxPos] (above [maxNeg] after a minus
    sign), sets [failbit].  [negate] gives the value stored for a number
    written with a minus sign. *)
Definition readInteger (maxPos maxNeg : Z) (negate : Z → Z) (pos : nat)
    (negative : bool) (signLen : nat) (l : list ascii) : IStream * Z :=
  let '(magnitude, n, rest) := readDigits l 0 0 in
  let s' := {| is_rest := rest; is_pos := (pos + signLen + n)%nat;
               is_fail := false;
               is_eof := bool_decide (rest = []) |} in
  if bool_decide (n = 0%nat) then (setFail false s', 0)
  else if (if negative then maxNeg else maxPos) <? magnitude
  then (setFail false s', if negative then negate maxNeg else maxPos)
  else (s', if negative then negate magnitude else magnitude).

(** The extraction of an integer: the sentry, an optional sign, the
    digits. *)
Definition extractInteger (maxPos maxNeg : Z) (negate : Z → Z) (s : IStream)
  : IStream * Z :=
  let s := sentry s in
  if is_fail s then (s, 0)
  else
    let read := readInteger maxPos maxNeg negate (is_pos s) in
    match is_rest s with
    | c :: l' =>
        if bool_decide (c = "-"%char) then read true 1%nat l'
        else if bool_decide (c = "+"%char) then read false 1%nat l'
        else read false 0%nat (is_rest s)
    | [] => read false 0%nat []
    end.

(** [iss >> num1] for [uint32_t num1]: a minus sign negates modulo 2^32. *)
Definition extractUInt32 : IStream → IStream * Z :=
  extractInteger UINT32_MAX UINT32_MAX (λ m, wrap32 (- m)).

(** [iss >> num2] for [int32_t num2]. *)
Definition extractInt32 : IStream → IStream * Z :=
  extractInteger INT32_MAX (- INT32_MIN) Z.opp.

(** [iss >> c] for [char c]. *)
Definition extractChar (s : IStream) : IStream * ascii :=
  let s := sentry s in
  if is_fail s then (s, "000"%char)
  else match is_rest s with
       | c :: l' =>
           ({| is_rest := l'; is_pos := S (is_pos s); is_fail := false;
               is_eof := false |}, c)
       | [] => (setFail true s, "000"%char)
       end.

(** [checkFileName]: the numbers of a checkpoint file name, or [None] when
    the source returns [false]. *)
Definition checkFileName (fileName : string) : option (Z * Z) :=
  let name := list_ascii_of_string fileName in
  let base := list_ascii_of_string gsCpFileBaseName in
  let ext := list_ascii_of_string gsCpFileExtension in
  match findFrom base name 0 with
  | Some O =>
      match rfindFrom ext name 0 with
      | None => None
      | Some pos =>
          if negb (bool_decide (pos + List.length ext = List.length name)%nat)
          then None
          else
            let iss := seekg (List.length base) (IStream_new name) in
            let '(iss, num1) := extractUInt32 iss in
            let '(iss, c) := extractChar iss in
            let '(iss, num2) := extractInt32 iss in
            if is_fail iss then None
            else if negb (bool_decide (c = "_"%char)) then None
            else if negb (bool_decide (tellg iss = Some pos)) then None
            else Some (num1, num2)
      end
  | _ => None
  end.

(** ** Sequences of allocator calls *)

Inductive AllocOp :=
| Allocate
| Free (blockNo : Z).

#[global] Instance AllocOp_eq_dec : EqDecision AllocOp.
Proof. solve_decision. Defined.

Section AllocatorRuns.
Context `{HeaderConstants}.

(** One call; an [allocateBlock] reports the block number it returns. *)
Definition stepAlloc (op : AllocOp) (cf : CheckpointFile)
  : CheckpointFile * option Z :=
  match op with
  | Allocate => let '(cf', b) := allocateBlock cf in (cf', Some b)
  | Free blockNo => (freeBlock blockNo cf, None)
  end.

Fixpoint runAlloc (ops : list AllocOp) (cf : CheckpointFile) : CheckpointFile :=
  match ops with
  | [] => cf
  | op :: ops' => runAlloc ops' (fst (stepAlloc op cf))
  end.

(** Every [freeBlock] of the sequence is called on a block that is allocated
    at that moment (the assertion of [freeBlock]). *)
Fixpoint freesAllocated (ops : list AllocOp) (cf : CheckpointFile) : bool :=
  match ops with
  | [] => true
  | op :: ops' =>
      match op with
      | Allocate => true
      | Free blockNo => getUsedBlockInfo blockNo cf
      end && freesAllocated ops' (fst (stepAlloc op cf))
  end.

End AllocatorRuns.

(** The counting invariant of the allocator: [freeUseBitNum_] is the number
    of [false] bits of [usedChunkInfo_], and the cursor lies in the array. *)
Definition allocInv (cf : CheckpointFile) : Prop :=
  freeUseBitNum_ cf = BitArray.countFalse (usedChunkInfo_ cf)
  ∧ 0 ≤ freeBlockSearchCursor_ cf ≤ BitArray.length (usedChunkInfo_ cf).

(** The two ways [allocateBlock] ends: it takes a free position found by the
    search, or it appends a new block. *)
Inductive allocated (cf : CheckpointFile) (b : Z) (cf' : CheckpointFile)
  : Prop :=
| allocated_reuse :
    0 < freeUseBitNum_ cf →
    0 ≤ b < BitArray.length (usedChunkInfo_ cf) →
    BitArray.get (usedChunkInfo_ cf) b = false →
    usedChunkInfo_ cf' = BitArray.set (usedChunkInfo_ cf) b true →
    validChunkInfo_ cf' = validChunkInfo_ cf →
    freeUseBitNum_ cf' = wrap64 (freeUseBitNum_ cf - 1) →
    0 ≤ freeBlockSearchCursor_ cf' ≤ BitArray.length (usedChunkInfo_ cf) →
    allocated cf b cf'
| allocated_append :
    b = BitArray.length (usedChunkInfo_ cf) →
    usedChunkInfo_ cf' = usedChunkInfo_ cf ++ [true] →
    validChunkInfo_ cf' = BitArray.set (validChunkInfo_ cf) b false →
    freeUseBitNum_ cf' = freeUseBitNum_ cf →
    0 ≤ freeBlockSearchCursor_ cf' ≤ BitArray.length (usedChunkInfo_ cf) →
    allocated cf b cf'.

(** ** Sequences of calls of the public operations *)

Inductive Op :=
| OpAllocate
| OpFree (blockNo : Z)
| OpSetUsed (blockNo : Z) (flag : bool)
| OpSetValid (blockNo : Z) (flag : bool)
| OpWrite (size blockNo : Z) (io : IoOutcome)
| OpWritePartial (size offset : Z) (io : IoOutcome)
| OpRead (size blockNo : Z) (io : IoOutcome)
| OpTruncate.

(** A call that touches the store only and does not throw. *)
Definition liftCf {A} (f : CheckpointFile → CheckpointFile * A) : M A :=
  λ s, let '(cf', a) := f (fst s) in ((cf', snd s), inr a).

Section Runs.
Context `{HeaderConstants}.

Definition runOp (op : Op) : M Z :=
  match op with
  | OpAllocate => liftCf allocateBlock
  | OpFree blockNo => modifyCf (freeBlock blockNo) ;;; ret 0
  | OpSetUsed blockNo flag => modifyCf (setUsedBlockInfo blockNo flag) ;;; ret 0
  | OpSetValid blockNo flag =>
      modifyCf (setValidBlockInfo blockNo flag) ;;; ret 0
  | OpWrite size blockNo io => writeBlock size blockNo io
  | OpWritePartial size offset io => writePartialBlock size offset io
  | OpRead size blockNo io => readBlock size blockNo io
  | OpTruncate => truncate ;;; ret 0
  end.

(** The calls of [ops] one after the other; a call that throws leaves the
    store as it is at the throw, and the next call goes on from there. *)
Fixpoint runOps (ops : list Op) (s : CheckpointFile * OS)
  : CheckpointFile * OS :=
  match ops with
  | [] => s
  | op :: ops' => runOps ops' (fst (runOp op s))
  end.

(** What a call asks of the store it is made on: room to append for
    [allocateBlock], an allocated block for [freeBlock], a position the
    array holds for a direct write of a bit. *)
Definition opInRange (op : Op) (cf : CheckpointFile) : Prop :=
  match op with
  | OpAllocate => BitArray.length (usedChunkInfo_ cf) < 2 ^ 63
  | OpFree blockNo => getUsedBlockInfo blockNo cf = true
  | OpSetUsed blockNo _ =>
      0 ≤ blockNo < BitArray.length (usedChunkInfo_ cf)
  | OpSetValid blockNo _ =>
      0 ≤ blockNo < BitArray.length (validChunkInfo_ cf)
  | _ => True
  end.

Fixpoint opsInRange (ops : list Op) (s : CheckpointFile * OS) : Prop :=
  match ops with
  | [] => True
  | op :: ops' => opInRange op (fst s) ∧ opsInRange ops' (fst (runOp op s))
  end.

End Runs.

(** [m] keeps the property [I] of the store, whether it returns or throws. *)
Definition preserves {A} (I : CheckpointFile → Prop) (m : M A) : Prop :=
  ∀ s, I (fst s) → I (fst (fst (m s))).

(** The members that the file layer never touches. *)
Definition core (cf : CheckpointFile) :=
  (config cf, usedChunkInfo_ cf, validChunkInfo_ cf, blockNum_ cf,
   freeUseBitNum_ cf, freeBlockSearchCursor_ cf, counters cf).

(** A property that reads the core of the store only. *)
Definition coreOnly (I : CheckpointFile → Prop) : Prop :=
  ∀ cf cf', core cf' = core cf → I cf → I cf'.

(** The members of the allocator. *)
Definition allocState (cf : CheckpointFile) :=
  (usedChunkInfo_ cf, validChunkInfo_ cf, freeUseBitNum_ cf,
   freeBlockSearchCursor_ cf).

(** A property that reads the allocator's members only. *)
Definition allocOnly (I : CheckpointFile → Prop) : Prop :=
  ∀ cf cf', allocState cf' = allocState cf → I cf → I cf'.

(** The two bit arrays have the same length. *)
Definition sameLength (cf : CheckpointFile) : Prop :=
  BitArray.length (usedChunkInfo_ cf) = BitArray.length (validChunkInfo_ cf).

(** ** The form of a checkpoint file name *)

Definition isDigit (c : ascii) : Prop := is_Some (digitValue c).

(** The number written by the digits [ds], after [acc]. *)
Definition digitsValue (ds : list ascii) (acc : Z) : Z :=
  fold_left (λ a c, a * 10 + default 0 (digitValue c)) ds acc.

Inductive SignChar :=
| NoSign
| MinusSign
| PlusSign.

Definition signText (sg : SignChar) : list ascii :=
  match sg with
  | NoSign => []
  | MinusSign => ["-"%char]
  | PlusSign => ["+"%char]
  end.

Definition signedValue (sg : SignChar) (magnitude : Z) : Z :=
  match sg with
  | MinusSign => - magnitude
  | _ => magnitude
  end.

(** The name made of the prefix, the digits of the partition group, the
    separator, the sign and digits of the split index, and the extension. *)
Definition cpFormName (ds1 : list ascii) (sg : SignChar) (ds2 : list ascii)
  : string :=
  string_of_list_ascii
    (list_ascii_of_string gsCpFileBaseName ++ ds1
     ++ list_ascii_of_string gsCpFileSeparator ++ signText sg ++ ds2
     ++ list_ascii_of_string gsCpFileExtension).

(** The form [gs_cp_<uint>_<int>.dat] in the spec's words: "a leading
    prefix, a non-negative integer (pgId), a single '_', a signed integer
    (splitId), and the terminal extension". *)
Definition cpForm (name : string) : Prop :=
  ∃ ds1 sg ds2,
    ds1 ≠ [] ∧ ds2 ≠ [] ∧ Forall isDigit ds1 ∧ Forall isDigit ds2
    ∧ name = cpFormName ds1 sg ds2.

(** The names that [checkFileName] accepts, and the numbers it reads from
    them: white space may stand before each number and before the
    separator, each number may carry a sign, the partition group is at most
    [UINT32_MAX] in magnitude (a minus sign negates it modulo 2^32), and the
    split index is an [int32_t]. *)
Definition uint32Value (sg : SignChar) (magnitude : Z) : Z :=
  match sg with
  | MinusSign => wrap32 (- magnitude)
  | _ => magnitude
  end.

Definition acceptedAs (name : string) (pgId splitId : Z) : Prop :=
  ∃ ws1 sg1 ds1 ws2 ws3 sg2 ds2,
    list_ascii_of_string name
    = list_ascii_of_string gsCpFileBaseName
      ++ ws1 ++ signText sg1 ++ ds1
      ++ ws2 ++ list_ascii_of_string gsCpFileSeparator
      ++ ws3 ++ signText sg2 ++ ds2
      ++ list_ascii_of_string gsCpFileExtension
    ∧ Forall (λ c, isSpace c = true) ws1
    ∧ Forall (λ c, isSpace c = true) ws2
    ∧ Forall (λ c, isSpace c = true) ws3
    ∧ ds1 ≠ [] ∧ Forall isDigit ds1
    ∧ ds2 ≠ [] ∧ Forall isDigit ds2
    ∧ digitsValue ds1 0 ≤ UINT32_MAX
    ∧ digitsValue ds2 0
      ≤ (if sg2 is MinusSign then - INT32_MIN else INT32_MAX)
    ∧ pgId = uint32Value sg1 (digitsValue ds1 0)
    ∧ splitId = signedValue sg2 (digitsValue ds2 0).

(** The first character of [l], if any, is no white space. *)
Definition noSpaceHead (l : list ascii) : Prop :=
  match l with
  | [] => True
  | c :: _ => isSpace c = false
  end.

(** The first character of [l], if any, is no digit. *)
Definition noDigitHead (l : list ascii) : Prop :=
  match l with
  | [] => True
  | c :: _ => digitValue c = None
  end.

(** [m] throws no error but those of [P]. *)
Definition throwsOnly {A} (P : ErrorCode → Prop) (m : M A) : Prop :=
  ∀ s e, snd (m s) = inl e → P e.

(** ** What [zerofillUnusedBlock] asks of the file system *)

(** The request for block [b]: [BLOCK_SIZE_] bytes at the place of the byte
    offset [b * BLOCK_SIZE_] in the file set. *)
Definition punchOf (cf : CheckpointFile) (b : Z) : PunchRequest :=
  let offset := b * BLOCK_SIZE_ (config cf) in
  {| pr_file :=
       match fileAt cf (calcFileNth (config cf) offset) with
       | Some f => nf_name f
       | None => ""%string
       end;
     pr_offset := calcFileOffset (config cf) offset;
     pr_length := BLOCK_SIZE_ (config cf) |}.

(** The blocks from 1 on whose used bit is clear. *)
Definition unusedBlocks (cf : CheckpointFile) : list Z :=
  filter (λ b, BitArray.get (usedChunkInfo_ cf) b = false)
    (seqZ 1 (BitArray.length (usedChunkInfo_ cf) - 1)).

Definition addPunches (l : list PunchRequest) (os : OS) : OS :=
  {| os_nodes := os_nodes os; os_punched := os_punched os ++ l |}.

(** The blocks from 1 to [b - 1] whose used bit is clear. *)
Definition unusedBlocksBelow (cf : CheckpointFile) (b : Z) : list Z :=
  filter (λ b', BitArray.get (usedChunkInfo_ cf) b' = false)
    (seqZ 1 (b - 1)).

(** Block [b] lies in a file that the store holds open and writable and
    that exists. *)
Definition punchable (cf : CheckpointFile) (os : OS) (b : Z) : Prop :=
  ∃ f size,
    fileAt cf (calcFileNth (config cf) (b * BLOCK_SIZE_ (config cf))) = Some f
    ∧ nf_closed f = false
    ∧ nf_readOnly f = false
    ∧ os_nodes os !! nf_name f = Some (File size).

(** ** The blocks of the backing files *)

(** The size of the file at [path]; 0 when there is no file. *)
Definition fileSize (os : OS) (path : string) : Z :=
  match os_nodes os !! path with
  | Some (File size) => Z.of_N size
  | _ => 0
  end.

(** The blocks that [size] bytes take, the last one possibly in part. *)
Definition blocksOf (c : Config) (size : Z) : Z :=
  (size + BLOCK_SIZE_ c - 1) / BLOCK_SIZE_ c.

(** The blocks of the files of the indices [l] together. *)
Definition blocksOfFiles (cf : CheckpointFile) (os : OS) (l : list Z) : Z :=
  foldr (λ i acc, blocksOf (config cf) (fileSize os (fileNameAt cf i)) + acc)
    0 l.

(** The blocks of all the files of the store. *)
Definition totalBlocks (cf : CheckpointFile) (os : OS) : Z :=
  blocksOfFiles cf os (seqZ 0 (splitCount_ (config cf))).

(** [os'] is [os] but for empty files at paths that [os] has nothing at. *)
Definition addsEmptyFiles (os os' : OS) : Prop :=
  ∀ path,
    os_nodes os' !! path = os_nodes os !! path
    ∨ (os_nodes os !! path = None ∧ os_nodes os' !! path = Some (File 0)).

(** Every file of [os] ends at least [room] bytes below 2^63. *)
Definition filesBelow (room : Z) (os : OS) : Prop :=
  ∀ path size,
    os_nodes os !! path = Some (File size) → Z.of_N size + room ≤ 2 ^ 63.

(** ** File sizes *)

(** The loop of [getFileSize], carrying [totalFileSize]: a null entry of
    [fileList_] is passed over. *)
Fixpoint sumFileSizes (l : list Z) (totalFileSize : Z) : M Z :=
  match l with
  | [] => ret totalFileSize
  | i :: l' =>
      cf <- getCf ;;
      match fileAt cf i with
      | Some f =>
          size <- NamedFile_getSize f ;;
          sumFileSizes l' (to_int64 (totalFileSize + size))
      | None => sumFileSizes l' totalFileSize
      end
  end.

Definition getFileSize : M Z :=
  cf <- getCf ;; sumFileSizes (seqZ 0 (splitCount_ (config cf))) 0.

(** ** What [open] looks for *)

(** The directory that [open] tests before it names file [i]: the entry of
    [dirList_] in split mode, [dir_] otherwise, and none when [dir_] is
    empty. *)
Definition openDirectory (cf : CheckpointFile) (i : Z) : option string :=
  let c := config cf in
  if splitMode_ c then Some (dirAt cf i)
  else if bool_decide (dir_ c = ""%string) then None else Some (dir_ c).

(** The name that [open] composes for file [i]: the directory, a slash, the
    prefix, the partition group, the separator, the index [i] in split mode
    and 1 otherwise, and the extension. *)
Definition openFileName (cf : CheckpointFile) (i : Z) : string :=
  let c := config cf in
  if splitMode_ c then dirAt cf i +:+ "/" +:+ cpFileName (pgId_ c) i
  else (if bool_decide (dir_ c = ""%string) then ""%string
        else dir_ c +:+ "/") +:+ cpFileName (pgId_ c) 1.

(** The handle that [open] and [truncate] leave for a file: open under its
    name, read-only and unlocked for [checkOnly], writable and locked
    otherwise. *)
Definition openedHandle (name : string) (checkOnly : bool) : NamedFile :=
  {| nf_name := name; nf_readOnly := checkOnly; nf_locked := negb checkOnly;
     nf_closed := false |}.

(** [path] exists and is a directory. *)
Definition isDirectory (os : OS) (path : string) : bool :=
  match os_nodes os !! path with Some Dir => true | _ => false end.

(** The directory test of [open] for file [i] passes. *)
Definition openDirectoryOk (cf : CheckpointFile) (os : OS) (i : Z) : bool :=
  match openDirectory cf i with
  | Some d => isDirectory os d
  | None => true
  end.

(** ** The bytes of the files that are held open *)

(** The size of the file behind entry [i] of [fileList_]; 0 for a null
    entry. *)
Definition openFileSize (cf : CheckpointFile) (os : OS) (i : Z) : Z :=
  match fileAt cf i with
  | Some f => fileSize os (nf_name f)
  | None => 0
  end.

Definition openFilesSize (cf : CheckpointFile) (os : OS) (l : list Z) : Z :=
  foldr (λ i acc, openFileSize cf os i + acc) 0 l.

Definition totalBytes (cf : CheckpointFile) (os : OS) : Z :=
  openFilesSize cf os (seqZ 0 (splitCount_ (config cf))).




(** ** The calls that may lower the block count *)

Definition mayLowerBlockNum (op : Op) : bool :=
  match op with
  | OpTruncate | OpWritePartial _ _ _ => true
  | _ => false
  end.

(** ** The directories given to the constructor *)

(** The directory of file [i] in split mode,
    [configDirList[i % configDirCount]]. *)
Definition configDir (configDirList : list string) (i : Z) : string :=
  default ""%string
    (configDirList !! Z.to_nat (i mod Z.of_nat (length configDirList))).

(** The constructor's test of a directory: the path is no regular file. *)
Definition noFileAt (os : OS) (d : string) : bool :=
  match os_nodes os !! d with
  | Some (File _) => false
  | _ => true
  end.

(** ** Allocations in a row *)

Section ManyAllocations.
Context `{HeaderConstants}.

(** [n] calls of [allocateBlock], with the blocks they return. *)
Fixpoint allocateMany (n : nat) (cf : CheckpointFile)
  : CheckpointFile * list Z :=
  match n with
  | O => (cf, [])
  | S n' =>
      let '(cf1, b) := allocateBlock cf in
      let '(cf2, bs) := allocateMany n' cf1 in
      (cf2, b :: bs)
  end.

End ManyAllocations.

(** An array that started as [m] clear bits, after [k] allocations: the
    first [k] bits are set, the count and the cursor follow. *)
Definition allocatedUpTo (m k : nat) (cf : CheckpointFile) : Prop :=
  usedChunkInfo_ cf = replicate k true ++ replicate (m - k) false
  ∧ freeUseBitNum_ cf = Z.of_nat (m - k)
  ∧ freeBlockSearchCursor_ cf = (if (k <? m)%nat then Z.of_nat k else 0).

(** ** A store to run the scenarios on

    A single-file store with blocks of 2^16 bytes in the directory
    [/tmp/t1], which exists and is empty. *)

Definition exampleConstants : HeaderConstants :=
  {| ALLOCATE_BLOCK_SEARCH_LIMIT := 1024;
     FILE_SPLIT_COUNT_LIMIT := 128;
     FILE_SPLIT_STRIPE_SIZE_LIMIT := 1024;
     IO_MONITOR_DEFAULT_WARNING_THRESHOLD_MILLIS := 5000 |}.

Definition exampleOS : OS :=
  {| os_nodes := {[ "/tmp/t1"%string := Dir ]}; os_punched := [] |}.

(** The store as the constructor leaves it. *)
Definition exampleNew : CheckpointFile :=
  {| config :=
       {| BLOCK_EXP_SIZE_ := 16; BLOCK_SIZE_ := 65536; pgId_ := 0;
          dir_ := "/tmp/t1"; splitMode_ := false; splitCount_ := 1;
          stripeSize_ := 0; ioWarningThresholdMillis_ := 5000 |};
     usedChunkInfo_ := []; validChunkInfo_ := [];
     blockNum_ := 0; freeUseBitNum_ := 0; freeBlockSearchCursor_ := 0;
     fileSet :=
       {| fileList_ := [None]; dirList_ := ["/tmp/t1"%string];
          fileNameList_ := [""%string]; blockCountList_ := [0] |};
     counters :=
       {| readBlockCount_ := 0; writeBlockCount_ := 0;
          readRetryCount_ := 0; writeRetryCount_ := 0 |} |}.

(** The same directory holding a checkpoint file of three blocks and one
    byte. *)
Definition exampleOSWithFile : OS :=
  {| os_nodes :=
       {[ "/tmp/t1"%string := Dir;
          "/tmp/t1/gs_cp_0_1.dat"%string := File (3 * 65536 + 1) ]};
     os_punched := [] |}.

(** The store and the file system after [open(false, true)]. *)
Definition exampleOpened : CheckpointFile * OS :=
  fst (open false true (exampleNew, exampleOS)).

(** Four blocks allocated and written, then blocks 1 and 3 freed. *)
Definition exampleWritten : CheckpointFile * OS :=
  @runOps exampleConstants
    [OpAllocate; OpAllocate; OpAllocate; OpAllocate;
     OpWrite 1 0 (IoDone 0); OpWrite 1 1 (IoDone 0);
     OpWrite 1 2 (IoDone 0); OpWrite 1 3 (IoDone 0);
     OpFree 1; OpFree 3]
    exampleOpened.

(** Two blocks allocated and written. *)
Definition exampleTwoBlocks : CheckpointFile * OS :=
  @runOps exampleConstants
    [OpAllocate; OpWrite 1 0 (IoDone 0); OpAllocate; OpWrite 1 1 (IoDone 0)]
    exampleOpened.

(** The store of two blocks closed and opened again, with what [open]
    returns. *)
Definition exampleReopened : CheckpointFile * OS * (ErrorCode + bool) :=
  open false false (fst (close exampleTwoBlocks)).

(** A store whose used array holds 2000 set bits and then one clear bit. *)
Definition exampleFragmented : CheckpointFile :=
  with_freeUseBitNum 1
    (with_valid (replicate 2001 false)
       (with_used (replicate 2000 true ++ [false]) exampleNew)).

(** A store whose used array holds 1024 set bits and then one clear bit. *)
Definition exampleFull : CheckpointFile :=
  with_freeUseBitNum 1
    (with_valid (replicate 1025 false)
       (with_used (replicate 1024 true ++ [false]) exampleNew)).

(** The cursor lies in the array. *)
Definition cursorOk (cf : CheckpointFile) : Prop :=
  0 ≤ freeBlockSearchCursor_ cf ≤ BitArray.length (usedChunkInfo_ cf).

(** * Properties *)

(** Boolean comparisons of the hypotheses, turned into propositions. *)
Ltac zbool :=
  repeat match goal with
    | H : (_ <? _) = true |- _ => apply Z.ltb_lt in H
    | H : (_ <? _) = false |- _ => apply Z.ltb_ge in H
    | H : (_ <=? _) = true |- _ => apply Z.leb_le in H
    | H : (_ <=? _) = false |- _ => apply Z.leb_gt in H
    | H : (_ =? _) = true |- _ => apply Z.eqb_eq in H
    | H : (_ =? _) = false |- _ => apply Z.eqb_neq in H
    end.

(** ** Machine integers *)

Lemma wrap64_small z : 0 ≤ z < 2 ^ 64 → wrap64 z = z.
Proof. intros. unfold wrap64. apply Z.mod_small. lia. Qed.

Lemma to_int64_small z : - 2 ^ 63 ≤ z < 2 ^ 63 → to_int64 z = z.
Proof. intros. unfold to_int64. rewrite Z.mod_small; lia. Qed.

Lemma wrap64_range z : 0 ≤ wrap64 z < 2 ^ 64.
Proof. unfold wrap64. apply Z.mod_pos_bound. lia. Qed.

Lemma to_int64_range z : - 2 ^ 63 ≤ to_int64 z < 2 ^ 63.
Proof.
  unfold to_int64. pose proof (Z.mod_pos_bound (z + 2 ^ 63) (2 ^ 64)). lia.
Qed.

(** ** The bit array *)

Lemma BitArray_length_nonneg (a : BitArray.t) : 0 ≤ BitArray.length a.
Proof. unfold BitArray.length. lia. Qed.

Lemma BitArray_get_in (a : BitArray.t) pos :
  0 ≤ pos < BitArray.length a →
  BitArray.get a pos = default false (a !! Z.to_nat pos).
Proof.
  intros Hp. unfold BitArray.get.
  destruct (0 <=? pos) eqn:E1; [|lia].
  destruct (pos <? BitArray.length a) eqn:E2; [done|lia].
Qed.

Lemma BitArray_get_out (a : BitArray.t) pos :
  BitArray.length a ≤ pos → BitArray.get a pos = false.
Proof.
  intros Hp. unfold BitArray.get.
  destruct (pos <? BitArray.length a) eqn:E2; [lia|].
  by rewrite andb_false_r.
Qed.

Lemma BitArray_get_true_in (a : BitArray.t) pos :
  BitArray.get a pos = true → 0 ≤ pos < BitArray.length a.
Proof.
  unfold BitArray.get.
  destruct (0 <=? pos) eqn:E1; destruct (pos <? BitArray.length a) eqn:E2;
    simpl; try discriminate. lia.
Qed.

Lemma BitArray_length_set_in (a : BitArray.t) pos v :
  pos < BitArray.length a →
  BitArray.length (BitArray.set a pos v) = BitArray.length a.
Proof.
  intros Hp. unfold BitArray.set.
  destruct (pos <? BitArray.length a) eqn:E; [|lia].
  unfold BitArray.length. by rewrite length_insert.
Qed.

Lemma BitArray_length_set_out (a : BitArray.t) pos v :
  BitArray.length a ≤ pos →
  BitArray.length (BitArray.set a pos v) = pos + 1.
Proof.
  intros Hp. unfold BitArray.set.
  destruct (pos <? BitArray.length a) eqn:E; [lia|].
  unfold BitArray.length in *.
  rewrite !length_app, length_replicate. simpl. lia.
Qed.

Lemma BitArray_get_set_eq (a : BitArray.t) pos v :
  0 ≤ pos → BitArray.get (BitArray.set a pos v) pos = v.
Proof.
  intros Hp.
  destruct (decide (pos < BitArray.length a)) as [Hin|Hout].
  - rewrite BitArray_get_in by (rewrite BitArray_length_set_in; lia).
    unfold BitArray.set. destruct (pos <? BitArray.length a) eqn:E; [|lia].
    rewrite list_lookup_insert_eq; [done|]. unfold BitArray.length in Hin. lia.
  - rewrite BitArray_get_in by (rewrite BitArray_length_set_out; lia).
    unfold BitArray.set. destruct (pos <? BitArray.length a) eqn:E; [lia|].
    unfold BitArray.length in *.
    rewrite lookup_app_r by lia.
    rewrite lookup_app_r by (rewrite length_replicate; lia).
    rewrite length_replicate.
    replace (Z.to_nat pos - length a - (Z.to_nat pos - length a))%nat
      with 0%nat by lia.
    done.
Qed.

Lemma BitArray_get_set_ne (a : BitArray.t) pos pos' v :
  0 ≤ pos → pos ≠ pos' →
  BitArray.get (BitArray.set a pos v) pos' = BitArray.get a pos'.
Proof.
  intros Hp Hne.
  destruct (decide (0 ≤ pos')) as [Hp'|Hn'];
    [|unfold BitArray.get; destruct (0 <=? pos') eqn:E; [lia|done]].
  destruct (decide (pos < BitArray.length a)) as [Hin|Hout].
  - unfold BitArray.get. rewrite BitArray_length_set_in by lia.
    destruct ((0 <=? pos') && (pos' <? BitArray.length a)); [|done].
    unfold BitArray.set. destruct (pos <? BitArray.length a) eqn:E; [|lia].
    rewrite list_lookup_insert_ne; [done|lia].
  - destruct (decide (pos' < BitArray.length a)) as [Hin'|Hout'].
    + rewrite !BitArray_get_in
        by (rewrite ?BitArray_length_set_out; lia).
      unfold BitArray.set. destruct (pos <? BitArray.length a) eqn:E; [lia|].
      unfold BitArray.length in *. by rewrite lookup_app_l by lia.
    + rewrite (BitArray_get_out a) by lia.
      destruct (decide (pos' < pos + 1)) as [Hlt|Hge].
      * rewrite BitArray_get_in by (rewrite BitArray_length_set_out; lia).
        unfold BitArray.set. destruct (pos <? BitArray.length a) eqn:E; [lia|].
        unfold BitArray.length in *.
        rewrite lookup_app_r by lia.
        rewrite lookup_app_l by (rewrite length_replicate; lia).
        rewrite lookup_replicate_2 by lia. done.
      * apply BitArray_get_out. rewrite BitArray_length_set_out; lia.
Qed.

Lemma BitArray_countFalse_app (a b : BitArray.t) :
  BitArray.countFalse (a ++ b) = BitArray.countFalse a + BitArray.countFalse b.
Proof. unfold BitArray.countFalse. rewrite filter_app, length_app. lia. Qed.

Lemma BitArray_countFalse_cons (x : bool) (a : BitArray.t) :
  BitArray.countFalse (x :: a) = (if x then 0 else 1) + BitArray.countFalse a.
Proof.
  unfold BitArray.countFalse. rewrite filter_cons.
  destruct x; case_decide; try done; simpl; lia.
Qed.

Lemma BitArray_countFalse_bounds (a : BitArray.t) :
  0 ≤ BitArray.countFalse a ≤ BitArray.length a.
Proof.
  unfold BitArray.countFalse, BitArray.length.
  pose proof (length_filter (λ b : bool, b = false) a). lia.
Qed.

Lemma BitArray_countFalse_replicate_false n :
  BitArray.countFalse (replicate n false) = Z.of_nat n.
Proof.
  induction n as [|n IH]; [done|].
  simpl. rewrite BitArray_countFalse_cons, IH. lia.
Qed.

Lemma BitArray_countFalse_set_in (a : BitArray.t) pos v :
  0 ≤ pos < BitArray.length a →
  BitArray.countFalse (BitArray.set a pos v)
  = BitArray.countFalse a
    - (if BitArray.get a pos then 0 else 1) + (if v then 0 else 1).
Proof.
  intros Hp. rewrite BitArray_get_in by done.
  unfold BitArray.set. destruct (pos <? BitArray.length a) eqn:E; [|lia].
  unfold BitArray.length in Hp.
  destruct (lookup_lt_is_Some_2 a (Z.to_nat pos)) as [x Hx]; [lia|].
  rewrite Hx. simpl.
  rewrite insert_take_drop by lia.
  rewrite <- (take_drop_middle a (Z.to_nat pos) x Hx) at 3.
  rewrite !BitArray_countFalse_app, !BitArray_countFalse_cons.
  destruct x, v; lia.
Qed.

(** ** The allocator, call by call *)

Section AllocatorFacts.
Context `{HeaderConstants}.

Lemma setUsedBlockInfo_used blockNo flag cf :
  usedChunkInfo_ (setUsedBlockInfo blockNo flag cf)
  = BitArray.set (usedChunkInfo_ cf) blockNo flag.
Proof.
  unfold setUsedBlockInfo.
  repeat match goal with |- context [if ?c then _ else _] => destruct c end;
    reflexivity.
Qed.

Lemma setUsedBlockInfo_valid blockNo flag cf :
  validChunkInfo_ (setUsedBlockInfo blockNo flag cf) = validChunkInfo_ cf.
Proof.
  unfold setUsedBlockInfo.
  repeat match goal with |- context [if ?c then _ else _] => destruct c end;
    reflexivity.
Qed.

Lemma setUsedBlockInfo_cursor blockNo flag cf :
  freeBlockSearchCursor_ (setUsedBlockInfo blockNo flag cf)
  = freeBlockSearchCursor_ cf.
Proof.
  unfold setUsedBlockInfo.
  repeat match goal with |- context [if ?c then _ else _] => destruct c end;
    reflexivity.
Qed.

Lemma setUsedBlockInfo_free blockNo flag cf :
  freeUseBitNum_ (setUsedBlockInfo blockNo flag cf)
  = if Bool.eqb (BitArray.get (usedChunkInfo_ cf) blockNo) flag
    then freeUseBitNum_ cf
    else if flag then wrap64 (freeUseBitNum_ cf - 1)
         else wrap64 (freeUseBitNum_ cf + 1).
Proof.
  unfold setUsedBlockInfo.
  destruct flag, (BitArray.get (usedChunkInfo_ cf) blockNo); reflexivity.
Qed.

(** Storing a flag at a position the array holds keeps the count exact. *)
Lemma setUsedBlockInfo_count blockNo flag cf :
  0 ≤ blockNo < BitArray.length (usedChunkInfo_ cf) →
  BitArray.length (usedChunkInfo_ cf) < 2 ^ 64 →
  freeUseBitNum_ cf = BitArray.countFalse (usedChunkInfo_ cf) →
  freeUseBitNum_ (setUsedBlockInfo blockNo flag cf)
  = BitArray.countFalse (usedChunkInfo_ (setUsedBlockInfo blockNo flag cf)).
Proof.
  intros Hb Hlen Hinv.
  rewrite setUsedBlockInfo_free, setUsedBlockInfo_used.
  rewrite BitArray_countFalse_set_in by done.
  pose proof (BitArray_countFalse_bounds (usedChunkInfo_ cf)) as Hc.
  pose proof (BitArray_countFalse_bounds
                (BitArray.set (usedChunkInfo_ cf) blockNo flag)) as Hc'.
  rewrite BitArray_countFalse_set_in in Hc' by done.
  rewrite BitArray_length_set_in in Hc' by lia.
  rewrite Hinv.
  destruct (BitArray.get (usedChunkInfo_ cf) blockNo), flag; simpl;
    rewrite ?wrap64_small; lia.
Qed.

(** What a search loop returns: the position where it stopped, and, when it
    found a block, a position below the bound whose bit is [false]. *)
Lemma searchFree_spec u n pos count ap p c :
  0 ≤ pos → pos + Z.of_nat n < 2 ^ 63 →
  searchFree u n pos count = (ap, p, c) →
  pos ≤ p ≤ pos + Z.of_nat n
  ∧ (ap = -1 ∨ (ap = p ∧ p < pos + Z.of_nat n ∧ BitArray.get u p = false)).
Proof.
  revert pos count. induction n as [|n IH]; intros pos count Hpos Hb; simpl.
  - intros [= <- <- <-]. split; [lia|by left].
  - destruct (BitArray.get u pos) eqn:Hget; simpl.
    + destruct (ALLOCATE_BLOCK_SEARCH_LIMIT <? count).
      * intros [= <- <- <-]. split; [lia|by left].
      * rewrite wrap64_small by lia. intros Hs.
        apply IH in Hs; [|lia..]. destruct Hs as [? [?|(?&?&?)]].
        -- split; [lia|by left].
        -- split; [lia|right; repeat split; [done|lia|done]].
    + intros [= <- <- <-]. rewrite to_int64_small by lia.
      split; [lia|right; repeat split; [lia|done]].
Qed.

Lemma searchFromCursor_spec u start ap p c :
  0 ≤ start ≤ BitArray.length u → BitArray.length u < 2 ^ 63 →
  searchFromCursor u start = (ap, p, c) →
  0 ≤ p ≤ BitArray.length u
  ∧ (ap = -1
     ∨ (ap = p ∧ 0 ≤ p < BitArray.length u ∧ BitArray.get u p = false)).
Proof.
  intros Hs Hlen. unfold searchFromCursor.
  destruct (searchFree u (Z.to_nat (BitArray.length u - start)) start 0)
    as [[ap1 p1] c1] eqn:E1.
  apply searchFree_spec in E1; [|lia..].
  destruct ((ap1 =? -1) && (c1 <=? ALLOCATE_BLOCK_SEARCH_LIMIT)).
  - intros E2. apply searchFree_spec in E2; [|lia..].
    destruct E2 as [? [?|(?&?&?)]]; (split; [lia|]); [by left|].
    right. repeat split; [done|lia..|done].
  - intros [= <- <- <-]. destruct E1 as [? [?|(?&?&?)]]; (split; [lia|]);
      [by left|]. right. repeat split; [done|lia..|done].
Qed.

End AllocatorFacts.

Lemma BitArray_set_appended (u : BitArray.t) v :
  BitArray.set (u ++ [v]) (BitArray.length u) v = u ++ [v].
Proof.
  unfold BitArray.set, BitArray.length. rewrite length_app. simpl.
  destruct (Z.of_nat (length u) <? Z.of_nat (length u + 1)) eqn:E;
    [|exfalso; zbool; lia].
  rewrite Nat2Z.id. apply list_insert_id.
  rewrite lookup_app_r by lia. by rewrite Nat.sub_diag.
Qed.

Lemma BitArray_get_appended (u : BitArray.t) v :
  BitArray.get (u ++ [v]) (BitArray.length u) = v.
Proof.
  rewrite BitArray_get_in.
  - unfold BitArray.length. rewrite Nat2Z.id.
    rewrite lookup_app_r by lia. by rewrite Nat.sub_diag.
  - unfold BitArray.length. rewrite length_app. simpl. lia.
Qed.

Lemma BitArray_get_app_l (u w : BitArray.t) pos :
  pos < BitArray.length u → BitArray.get (u ++ w) pos = BitArray.get u pos.
Proof.
  intros Hp. unfold BitArray.get.
  destruct (0 <=? pos) eqn:E0; [|done]. simpl.
  assert (BitArray.length (u ++ w) = BitArray.length u + BitArray.length w)
    as Hl by (unfold BitArray.length; rewrite length_app; lia).
  pose proof (BitArray_length_nonneg w).
  destruct (pos <? BitArray.length (u ++ w)) eqn:E1; [|lia].
  destruct (pos <? BitArray.length u) eqn:E2; [|lia].
  rewrite lookup_app_l; [done|]. unfold BitArray.length in Hp. lia.
Qed.

Section AllocateBlockFacts.
Context `{HeaderConstants}.

(** [allocateBlock] ends in one of the two ways of [allocated]. *)
Lemma allocateBlock_allocated cf cf' b :
  0 ≤ freeBlockSearchCursor_ cf ≤ BitArray.length (usedChunkInfo_ cf) →
  BitArray.length (usedChunkInfo_ cf) < 2 ^ 63 →
  allocateBlock cf = (cf', b) →
  allocated cf b cf'.
Proof.
  intros Hcur Hlen. unfold allocateBlock.
  pose proof (BitArray_length_nonneg (usedChunkInfo_ cf)) as Hnn.
  assert (∀ cf1 : CheckpointFile,
    usedChunkInfo_ cf1 = usedChunkInfo_ cf →
    validChunkInfo_ cf1 = validChunkInfo_ cf →
    freeUseBitNum_ cf1 = freeUseBitNum_ cf →
    0 ≤ freeBlockSearchCursor_ cf1 ≤ BitArray.length (usedChunkInfo_ cf) →
    allocated cf (BitArray.length (usedChunkInfo_ cf))
      (setUsedBlockInfo
         (wrap64 (to_int64 (BitArray.length (usedChunkInfo_ cf)))) true
         (with_valid
            (BitArray.set (validChunkInfo_ cf1)
               (wrap64 (to_int64 (BitArray.length (usedChunkInfo_ cf1)))) false)
            (with_used (usedChunkInfo_ cf1 ++ [true]) cf1)))) as Happend.
  { intros cf1 Hu Hv Hf Hc. rewrite Hu, Hv.
    rewrite to_int64_small, wrap64_small by lia.
    apply allocated_append.
    - done.
    - rewrite setUsedBlockInfo_used. simpl. apply BitArray_set_appended.
    - by rewrite setUsedBlockInfo_valid.
    - rewrite setUsedBlockInfo_free. simpl.
      by rewrite BitArray_get_appended.
    - by rewrite setUsedBlockInfo_cursor. }
  destruct (0 <? freeUseBitNum_ cf) eqn:Hfree.
  - destruct (searchFromCursor (usedChunkInfo_ cf) (freeBlockSearchCursor_ cf))
      as [[ap p] c] eqn:Hs.
    apply searchFromCursor_spec in Hs; [|done..].
    destruct Hs as [Hp [->|(-> & Hpin & Hget)]].
    + simpl. intros [= <- <-].
      rewrite (to_int64_small (BitArray.length _)) by lia.
      specialize (Happend
        (with_cursor
           (if BitArray.length (usedChunkInfo_ cf) <=? wrap64 (p + 1)
            then 0 else wrap64 (p + 1)) cf)).
      simpl in Happend.
      rewrite (to_int64_small (BitArray.length _)) in Happend by lia.
      apply Happend; try done.
      rewrite wrap64_small by lia.
      destruct (BitArray.length (usedChunkInfo_ cf) <=? p + 1) eqn:E; lia.
    + destruct (p =? -1) eqn:E; [lia|].
      intros [= <- <-]. rewrite wrap64_small by lia.
      apply allocated_reuse.
      * lia.
      * done.
      * done.
      * by rewrite setUsedBlockInfo_used.
      * by rewrite setUsedBlockInfo_valid.
      * rewrite setUsedBlockInfo_free. simpl. by rewrite Hget.
      * rewrite setUsedBlockInfo_cursor. simpl.
        rewrite wrap64_small by lia.
        destruct (BitArray.length (usedChunkInfo_ cf) <=? p + 1) eqn:E'; lia.
  - simpl. intros [= <- <-].
    rewrite (to_int64_small (BitArray.length _)) by lia.
    specialize (Happend cf).
    rewrite (to_int64_small (BitArray.length _)) in Happend by lia.
    by apply Happend.
Qed.

(** After [allocateBlock] the returned block is held by the array and its
    bit is set. *)
Lemma allocated_used cf b cf' :
  allocated cf b cf' →
  0 ≤ b < BitArray.length (usedChunkInfo_ cf')
  ∧ BitArray.get (usedChunkInfo_ cf') b = true.
Proof.
  pose proof (BitArray_length_nonneg (usedChunkInfo_ cf)) as Hnn.
  intros [Hf Hb Hg Hu Hv Hfree Hc | -> Hu Hv Hfree Hc]; rewrite Hu.
  - rewrite BitArray_length_set_in by lia.
    split; [done|]. apply BitArray_get_set_eq. lia.
  - split; [|apply BitArray_get_appended].
    unfold BitArray.length. rewrite length_app. simpl. lia.
Qed.

(** [allocateBlock] keeps the counting invariant. *)
Lemma allocated_allocInv cf b cf' :
  BitArray.length (usedChunkInfo_ cf) < 2 ^ 63 →
  allocInv cf → allocated cf b cf' → allocInv cf'.
Proof.
  intros Hlen [Hcount Hcur].
  pose proof (BitArray_countFalse_bounds (usedChunkInfo_ cf)) as Hcb.
  intros [Hf Hb Hg Hu Hv Hfree Hc | -> Hu Hv Hfree Hc];
    unfold allocInv; rewrite Hu, Hfree.
  - rewrite BitArray_countFalse_set_in, BitArray_length_set_in by lia.
    rewrite Hg, Hcount. simpl. rewrite wrap64_small by lia. lia.
  - rewrite BitArray_countFalse_app, BitArray_countFalse_cons.
    unfold BitArray.length in *. rewrite length_app. simpl.
    change (BitArray.countFalse []) with 0. lia.
Qed.

End AllocateBlockFacts.

(** ** Sequences of allocator calls *)

Section AllocatorRunFacts.
Context `{HeaderConstants}.

Lemma allocated_length cf b cf' :
  allocated cf b cf' →
  BitArray.length (usedChunkInfo_ cf)
  ≤ BitArray.length (usedChunkInfo_ cf')
  ≤ BitArray.length (usedChunkInfo_ cf) + 1.
Proof.
  intros [Hf Hb Hg Hu Hv Hfree Hc | -> Hu Hv Hfree Hc]; rewrite Hu.
  - rewrite BitArray_length_set_in by lia. lia.
  - unfold BitArray.length. rewrite length_app. simpl. lia.
Qed.

Lemma allocated_cursorOk cf b cf' : allocated cf b cf' → cursorOk cf'.
Proof.
  intros Ha. pose proof (allocated_length _ _ _ Ha).
  destruct Ha; unfold cursorOk; lia.
Qed.

(** A set bit stays set through an [allocateBlock], which returns another
    block. *)
Lemma allocated_keeps cf b cf' b0 :
  allocated cf b cf' →
  BitArray.get (usedChunkInfo_ cf) b0 = true →
  b ≠ b0 ∧ BitArray.get (usedChunkInfo_ cf') b0 = true.
Proof.
  intros Ha Hb0. pose proof (BitArray_get_true_in _ _ Hb0) as Hin.
  destruct Ha as [Hf Hb Hg Hu Hv Hfree Hc | -> Hu Hv Hfree Hc]; rewrite Hu.
  - assert (b ≠ b0) by (intros ->; congruence).
    split; [done|]. rewrite BitArray_get_set_ne; [done|lia|done].
  - split; [lia|]. rewrite BitArray_get_app_l; [done|lia].
Qed.

Lemma freeBlock_length blockNo cf :
  getUsedBlockInfo blockNo cf = true →
  BitArray.length (usedChunkInfo_ (freeBlock blockNo cf))
  = BitArray.length (usedChunkInfo_ cf).
Proof.
  intros Hg. apply BitArray_get_true_in in Hg.
  unfold freeBlock. rewrite setUsedBlockInfo_used.
  apply BitArray_length_set_in. lia.
Qed.

Lemma freeBlock_cursorOk blockNo cf :
  getUsedBlockInfo blockNo cf = true → cursorOk cf →
  cursorOk (freeBlock blockNo cf).
Proof.
  intros Hg Hc. unfold cursorOk. rewrite freeBlock_length by done.
  unfold freeBlock. by rewrite setUsedBlockInfo_cursor.
Qed.

Lemma freeBlock_allocInv blockNo cf :
  BitArray.length (usedChunkInfo_ cf) < 2 ^ 64 →
  getUsedBlockInfo blockNo cf = true → allocInv cf →
  allocInv (freeBlock blockNo cf).
Proof.
  intros Hlen Hg [Hcount Hcur]. split.
  - apply setUsedBlockInfo_count; [|done..].
    by apply BitArray_get_true_in.
  - by apply freeBlock_cursorOk.
Qed.

(** One call of a sequence: the array grows by at most one block, and the
    cursor stays in it. *)
Lemma stepAlloc_wf op cf :
  cursorOk cf → BitArray.length (usedChunkInfo_ cf) < 2 ^ 63 →
  match op with Allocate => true | Free b => getUsedBlockInfo b cf end = true →
  cursorOk (fst (stepAlloc op cf))
  ∧ BitArray.length (usedChunkInfo_ (fst (stepAlloc op cf)))
    ≤ BitArray.length (usedChunkInfo_ cf) + 1.
Proof.
  intros Hc Hlen Hpre. destruct op as [|b0]; simpl.
  - destruct (allocateBlock cf) as [cf' b] eqn:E. simpl.
    apply allocateBlock_allocated in E; [|done..].
    split; [by eapply allocated_cursorOk|].
    apply allocated_length in E. lia.
  - split; [by apply freeBlock_cursorOk|].
    rewrite freeBlock_length by done. lia.
Qed.

Lemma stepAlloc_allocInv op cf :
  allocInv cf → BitArray.length (usedChunkInfo_ cf) < 2 ^ 63 →
  match op with Allocate => true | Free b => getUsedBlockInfo b cf end = true →
  allocInv (fst (stepAlloc op cf)).
Proof.
  intros Hinv Hlen Hpre. destruct op as [|b0]; simpl.
  - destruct (allocateBlock cf) as [cf' b] eqn:E. simpl.
    apply allocateBlock_allocated in E; [|apply Hinv|done].
    by eapply allocated_allocInv.
  - apply freeBlock_allocInv; [lia|done..].
Qed.

Lemma runAlloc_allocInv ops cf :
  allocInv cf →
  BitArray.length (usedChunkInfo_ cf) + Z.of_nat (length ops) < 2 ^ 63 →
  freesAllocated ops cf = true →
  allocInv (runAlloc ops cf).
Proof.
  revert cf. induction ops as [|op ops IH]; intros cf Hinv Hlen Hpre;
    [done|].
  simpl in *. apply andb_true_iff in Hpre as [Hop Hrest].
  destruct (stepAlloc_wf op cf) as [_ Hgrow]; [apply Hinv|lia|done|].
  apply IH; [|lia|done].
  apply stepAlloc_allocInv; [done|lia|done].
Qed.

(** A set bit stays set through a sequence that does not free it, and no
    [allocateBlock] of the sequence returns its block. *)
Lemma runAlloc_keeps ops cf b0 :
  cursorOk cf →
  BitArray.length (usedChunkInfo_ cf) + Z.of_nat (length ops) < 2 ^ 63 →
  freesAllocated ops cf = true →
  BitArray.get (usedChunkInfo_ cf) b0 = true →
  Free b0 ∉ ops →
  BitArray.get (usedChunkInfo_ (runAlloc ops cf)) b0 = true
  ∧ cursorOk (runAlloc ops cf)
  ∧ BitArray.length (usedChunkInfo_ (runAlloc ops cf))
    ≤ BitArray.length (usedChunkInfo_ cf) + Z.of_nat (length ops).
Proof.
  revert cf. induction ops as [|op ops IH];
    intros cf Hc Hlen Hpre Hb0 Hnot; simpl in *.
  - repeat split; [done|apply Hc..|lia].
  - apply andb_true_iff in Hpre as [Hop Hrest].
    apply not_elem_of_cons in Hnot as [Hne Hnot].
    destruct (stepAlloc_wf op cf) as [Hc' Hgrow]; [done|lia|done|].
    assert (BitArray.get (usedChunkInfo_ (fst (stepAlloc op cf))) b0 = true)
      as Hb0'.
    { destruct op as [|b1]; simpl.
      - destruct (allocateBlock cf) as [cf' b] eqn:E. simpl.
        apply allocateBlock_allocated in E; [|done|lia].
        by destruct (allocated_keeps _ _ _ _ E Hb0).
      - unfold freeBlock. rewrite setUsedBlockInfo_used.
        apply BitArray_get_true_in in Hop.
        rewrite BitArray_get_set_ne; [done|lia|congruence]. }
    destruct (IH (fst (stepAlloc op cf))) as (?&?&?); [done|lia|done..|].
    repeat split; [done|apply H1..|lia].
Qed.

End AllocatorRunFacts.

(** ** Reasoning about computations *)

Lemma bind_inv {A B} (m : M A) (k : A → M B) s s' r :
  bind m k s = (s', r) →
  (∃ s1 a, m s = (s1, inr a) ∧ k a s1 = (s', r))
  ∨ (∃ e, m s = (s', inl e) ∧ r = inl e).
Proof.
  unfold bind. destruct (m s) as [s1 [e|a]].
  - intros [= <- <-]. right. by exists e.
  - intros Hk. left. by exists s1, a.
Qed.

Lemma bind_getCf {A} (k : CheckpointFile → M A) s :
  bind getCf k s = k (fst s) s.
Proof. done. Qed.

Lemma preserves_ret {A} I (a : A) : preserves I (ret a).
Proof. by intros s. Qed.

Lemma preserves_throw {A} I e : preserves I (@throw A e).
Proof. by intros s. Qed.

Lemma preserves_bind {A B} I (m : M A) (k : A → M B) :
  preserves I m → (∀ a, preserves I (k a)) → preserves I (bind m k).
Proof.
  intros Hm Hk s Hs. unfold bind. specialize (Hm s Hs).
  destruct (m s) as [s1 [e|a]]; [done|]. by apply Hk.
Qed.

Lemma preserves_getCf I : preserves I getCf.
Proof. by intros s. Qed.

Lemma preserves_getOs I : preserves I getOs.
Proof. by intros s. Qed.

Lemma preserves_modifyOs I f : preserves I (modifyOs f).
Proof. by intros s. Qed.

Lemma preserves_modifyCf (I : CheckpointFile → Prop) f :
  (∀ cf, I cf → I (f cf)) → preserves I (modifyCf f).
Proof. intros Hf s Hs. by apply Hf. Qed.

Lemma preserves_forEach {A} I (l : list A) body :
  (∀ x, preserves I (body x)) → preserves I (forEach l body).
Proof.
  intros Hb. induction l as [|x l IH]; simpl.
  - apply preserves_ret.
  - apply preserves_bind; [apply Hb|done].
Qed.

Lemma preserves_liftCf {A} (I : CheckpointFile → Prop)
    (f : CheckpointFile → CheckpointFile * A) :
  (∀ cf, I cf → I (fst (f cf))) → preserves I (liftCf f).
Proof.
  intros Hf s Hs. unfold liftCf. specialize (Hf (fst s) Hs).
  by destruct (f (fst s)).
Qed.

Lemma core_setFileAt i f cf : core (setFileAt i f cf) = core cf.
Proof. done. Qed.

Lemma core_setFileNameAt i n cf : core (setFileNameAt i n cf) = core cf.
Proof. done. Qed.

Lemma core_setBlockCountAt i n cf : core (setBlockCountAt i n cf) = core cf.
Proof. done. Qed.

(** One step of a proof that a computation keeps a property: the shape of
    the computation decides the rule. *)
Ltac preserves_step :=
  match goal with
  | |- preserves _ (bind _ _) => apply preserves_bind; [|intros ?]
  | |- preserves _ (ret _) => apply preserves_ret
  | |- preserves _ (throw _) => apply preserves_throw
  | |- preserves _ getCf => apply preserves_getCf
  | |- preserves _ getOs => apply preserves_getOs
  | |- preserves _ (modifyOs _) => apply preserves_modifyOs
  | |- preserves _ (forEach _ _) => apply preserves_forEach; intros ?
  | |- preserves _ (match ?x with _ => _ end) => destruct x
  | |- preserves _ (if ?x then _ else _) => destruct x
  end.

Section FileLayerFacts.
Context `{HeaderConstants}.
Context (I : CheckpointFile → Prop) (HI : coreOnly I).

Lemma preserves_setFileAt i f : preserves I (modifyCf (setFileAt i f)).
Proof. apply preserves_modifyCf. intros cf. by apply HI. Qed.

Lemma preserves_setFileNameAt i n : preserves I (modifyCf (setFileNameAt i n)).
Proof. apply preserves_modifyCf. intros cf. by apply HI. Qed.

Lemma preserves_setBlockCountAt i n :
  preserves I (modifyCf (setBlockCountAt i n)).
Proof. apply preserves_modifyCf. intros cf. by apply HI. Qed.

Lemma preserves_FileSystem_exists path : preserves I (FileSystem_exists path).
Proof. unfold FileSystem_exists. repeat preserves_step. Qed.

Lemma preserves_FileSystem_isDirectory path :
  preserves I (FileSystem_isDirectory path).
Proof. unfold FileSystem_isDirectory. repeat preserves_step. Qed.

Lemma preserves_NamedFile_open name create trunc readOnly :
  preserves I (NamedFile_open name create trunc readOnly).
Proof. unfold NamedFile_open. repeat preserves_step. Qed.

Lemma preserves_NamedFile_getSize f : preserves I (NamedFile_getSize f).
Proof. unfold NamedFile_getSize. repeat preserves_step. Qed.

Lemma preserves_NamedFile_preAllocate f offset len granted :
  preserves I (NamedFile_preAllocate f offset len granted).
Proof. unfold NamedFile_preAllocate. repeat preserves_step. Qed.

Lemma preserves_GS_FILE_WRITE_ALL f len offset io :
  preserves I (GS_FILE_WRITE_ALL f len offset io).
Proof. unfold GS_FILE_WRITE_ALL. repeat preserves_step. Qed.

Lemma preserves_GS_FILE_READ_ALL f len offset io :
  preserves I (GS_FILE_READ_ALL f len offset io).
Proof. unfold GS_FILE_READ_ALL. repeat preserves_step. Qed.

Lemma preserves_checkDirectory path : preserves I (checkDirectory path).
Proof.
  unfold checkDirectory.
  repeat first [preserves_step | apply preserves_FileSystem_exists
               | apply preserves_FileSystem_isDirectory].
Qed.

Lemma preserves_reopenForWrite fileNth : preserves I (reopenForWrite fileNth).
Proof.
  unfold reopenForWrite.
  repeat first [apply preserves_setFileAt | apply preserves_NamedFile_open
               | preserves_step].
Qed.

Lemma preserves_openFile checkOnly createMode i :
  preserves I (openFile checkOnly createMode i).
Proof.
  unfold openFile.
  repeat first [apply preserves_setFileAt | apply preserves_setFileNameAt
               | apply preserves_setBlockCountAt | apply preserves_NamedFile_open
               | apply preserves_NamedFile_getSize | apply preserves_checkDirectory
               | apply preserves_FileSystem_exists | preserves_step].
Qed.

Lemma preserves_openFiles checkOnly createMode l total :
  preserves I (openFiles checkOnly createMode l total).
Proof.
  revert total. induction l as [|i l IH]; intros total; simpl.
  - apply preserves_ret.
  - apply preserves_bind; [apply preserves_openFile|]. intros a. apply IH.
Qed.

Lemma preserves_truncateFile i : preserves I (truncateFile i).
Proof.
  unfold truncateFile.
  repeat first [apply preserves_setFileAt | apply preserves_setBlockCountAt
               | apply preserves_NamedFile_open | preserves_step].
Qed.

End FileLayerFacts.

Lemma allocOnly_coreOnly I : allocOnly I → coreOnly I.
Proof.
  intros HI cf cf' Hcore. apply HI.
  unfold core in Hcore. unfold allocState. congruence.
Qed.

(** ** [open] *)

Section OpenFacts.
Context `{HeaderConstants}.

(** The members that [open] sets once the files are open. *)
Lemma open_inv checkOnly createMode s s' (empty : bool) :
  open checkOnly createMode s = (s', inr empty) →
  ∃ total cf1,
    openFiles checkOnly createMode
      (seqZ 0 (splitCount_ (config (fst s)))) 0 s = ((cf1, snd s'), inr total)
    ∧ empty = (total =? 0)
    ∧ blockNum_ (fst s') = wrap64 total
    ∧ usedChunkInfo_ (fst s')
      = BitArray.set (usedChunkInfo_ cf1) (wrap64 (total + 1)) false
    ∧ validChunkInfo_ (fst s')
      = BitArray.set (validChunkInfo_ cf1) (wrap64 (total + 1)) false
    ∧ freeUseBitNum_ (fst s') = BitArray.length (usedChunkInfo_ (fst s'))
    ∧ freeBlockSearchCursor_ (fst s') = 0
    ∧ counters (fst s') = counters cf1
    ∧ config (fst s') = config cf1
    ∧ fileSet (fst s') = fileSet cf1.
Proof.
  unfold open, bind, getCf, modifyCf, ret. simpl.
  destruct (openFiles checkOnly createMode _ 0 s) as [[cf1 os1] [e|total]];
    [done|].
  simpl. intros [= <- <-]. exists total, cf1. simpl. done.
Qed.

(** The block count carried by the loop of [open] is an [int64_t]. *)
Lemma openFiles_range checkOnly createMode l total0 s s' total :
  - 2 ^ 63 ≤ total0 < 2 ^ 63 →
  openFiles checkOnly createMode l total0 s = (s', inr total) →
  - 2 ^ 63 ≤ total < 2 ^ 63.
Proof.
  revert total0 s. induction l as [|i l IH]; intros total0 s Hr; simpl.
  - unfold ret. by intros [= <- <-].
  - intros Hb. apply bind_inv in Hb as [(s1 & a & _ & Hk)|(e & _ & ?)];
      [|done].
    eapply IH; [|done]. apply to_int64_range.
Qed.

(** *** The files that [open] finds or creates *)

Lemma addsEmptyFiles_refl os : addsEmptyFiles os os.
Proof. intros path. by left. Qed.

Lemma addsEmptyFiles_trans os1 os2 os3 :
  addsEmptyFiles os1 os2 → addsEmptyFiles os2 os3 → addsEmptyFiles os1 os3.
Proof.
  intros H12 H23 path.
  destruct (H12 path) as [E12|[N1 E2]], (H23 path) as [E23|[N2 E3]].
  - left. congruence.
  - right. split; congruence.
  - right. split; congruence.
  - congruence.
Qed.

Lemma addsEmptyFiles_create name os :
  os_nodes os !! name = None → addsEmptyFiles os (setNode name (File 0) os).
Proof.
  intros Hnone path. simpl. destruct (decide (path = name)) as [->|Hne].
  - right. by rewrite lookup_insert_eq.
  - left. by rewrite lookup_insert_ne.
Qed.

Lemma addsEmptyFiles_file os os' path size :
  addsEmptyFiles os os' →
  os_nodes os !! path = Some (File size) →
  os_nodes os' !! path = Some (File size).
Proof. intros Hadd Hp. destruct (Hadd path) as [E|[N _]]; congruence. Qed.

Lemma filesBelow_addsEmptyFiles room os os' :
  room ≤ 2 ^ 63 → addsEmptyFiles os os' → filesBelow room os →
  filesBelow room os'.
Proof.
  intros Hroom Hadd Hbelow path size Hp.
  destruct (Hadd path) as [E|[_ E]].
  - apply (Hbelow path). congruence.
  - rewrite E in Hp. injection Hp as <-. simpl. lia.
Qed.

(** The directory test reads the file system and leaves the state. *)
Lemma checkDirectory_state path s : fst (checkDirectory path s) = s.
Proof.
  unfold checkDirectory, FileSystem_exists, FileSystem_isDirectory, bind,
    getOs, ret, throw.
  simpl. repeat case_match; done.
Qed.

(** One turn of the loop of [open]: the name of file [i] is set, the file
    of that name is there afterwards, and the turn counts its blocks. *)
Lemma openFile_post checkOnly createMode i cf os cf1 os1 n :
  openFile checkOnly createMode i (cf, os) = ((cf1, os1), inr n) →
  ∃ name size,
    fileNameList_ (fileSet cf1)
    = <[Z.to_nat i := name]> (fileNameList_ (fileSet cf))
    ∧ config cf1 = config cf
    ∧ addsEmptyFiles os os1
    ∧ os_nodes os1 !! name = Some (File size)
    ∧ (n = to_int64 (wrap64 (Z.of_N size + BLOCK_SIZE_ (config cf) - 1)
                     / BLOCK_SIZE_ (config cf))
       ∨ (size = 0%N ∧ n = 0)).
Proof.
  unfold openFile. rewrite bind_getCf. simpl fst.
  intros Hrun.
  apply bind_inv in Hrun as [(s1 & fileName & Hname & Hrun)|(e & _ & ?)];
    [|done].
  assert (s1 = (cf, os)) as ->.
  { clear Hrun. destruct (splitMode_ (config cf)).
    - apply bind_inv in Hname as [(s2 & [] & Hd & Hr)|(e & _ & ?)]; [|done].
      pose proof (checkDirectory_state (dirAt cf i) (cf, os)) as Hs.
      rewrite Hd in Hs. simpl in Hs. subst s2.
      unfold ret in Hr. congruence.
    - apply bind_inv in Hname as [(s2 & prefix & Hp & Hr)|(e & _ & ?)];
        [|done].
      unfold ret in Hr. injection Hr as <- _.
      case_bool_decide.
      + unfold ret in Hp. congruence.
      + apply bind_inv in Hp as [(s3 & [] & Hd & Hr)|(e & _ & ?)]; [|done].
        pose proof (checkDirectory_state (dir_ (config cf)) (cf, os)) as Hs.
        rewrite Hd in Hs. simpl in Hs. subst s3.
        unfold ret in Hr. congruence. }
  clear Hname. exists fileName.
  revert Hrun.
  cbv [bind modifyCf FileSystem_exists NamedFile_open NamedFile_getSize
       getOs getCf modifyOs ret throw].
  simpl.
  destruct (os_nodes os !! fileName) as [[|size]|] eqn:Hnode; simpl;
    rewrite ?Hnode; simpl.
  - done.
  - destruct checkOnly; simpl; rewrite ?Hnode; simpl;
      intros [= <- <- <-]; exists size; simpl;
      (split; [done|]); (split; [done|]);
      (split; [apply addsEmptyFiles_refl|]); (split; [done|]); by left.
  - destruct checkOnly; [done|]. destruct createMode; [|done]. simpl.
    rewrite Hnode. simpl.
    case_bool_decide; simpl; [done|].
    intros [= <- <- <-]. exists 0%N. simpl.
    split; [done|]. split; [done|].
    split; [by apply addsEmptyFiles_create|].
    split; [by rewrite lookup_insert_eq|]. by right.
Qed.

(** The loop of [open] keeps the configuration, adds empty files only, and
    sets the names of the files of [l] alone. *)
Lemma openFiles_files checkOnly createMode l total0 cf os cf' os' total :
  openFiles checkOnly createMode l total0 (cf, os) = ((cf', os'), inr total) →
  Forall (λ i, 0 ≤ i) l →
  config cf' = config cf
  ∧ addsEmptyFiles os os'
  ∧ List.length (fileNameList_ (fileSet cf'))
    = List.length (fileNameList_ (fileSet cf))
  ∧ (∀ j, 0 ≤ j → j ∉ l → fileNameAt cf' j = fileNameAt cf j).
Proof.
  revert total0 cf os. induction l as [|i l IH]; intros total0 cf os; simpl.
  - unfold ret. intros [= <- <- <-] _.
    split; [done|]. split; [apply addsEmptyFiles_refl|]. done.
  - intros Hrun Hl. apply Forall_cons in Hl as [Hi Hl].
    apply bind_inv in Hrun as [([cf1 os1] & n & Hturn & Hrest)|(e & _ & ?)];
      [|done].
    apply openFile_post in Hturn
      as (name & size & Hnames & Hconfig & Hadd & _ & _).
    apply IH in Hrest as (Hconfig' & Hadd' & Hlen & Hkeep); [|done].
    split; [congruence|].
    split; [by eapply addsEmptyFiles_trans|].
    split; [by rewrite Hlen, Hnames, length_insert|].
    intros j Hj Hnotin. apply not_elem_of_cons in Hnotin as [Hne Hnotin].
    rewrite Hkeep by done. unfold fileNameAt. rewrite Hnames.
    rewrite list_lookup_insert_ne; [done|]. lia.
Qed.

Lemma blocksOf_nonneg c size :
  0 < BLOCK_SIZE_ c → 0 ≤ size → 0 ≤ blocksOf c size.
Proof. intros Hb Hs. unfold blocksOf. apply Z.div_pos; lia. Qed.

Lemma fileSize_nonneg os path : 0 ≤ fileSize os path.
Proof. unfold fileSize. repeat case_match; lia. Qed.

Lemma blocksOfFiles_nonneg cf os l :
  0 < BLOCK_SIZE_ (config cf) → 0 ≤ blocksOfFiles cf os l.
Proof.
  intros Hb. induction l as [|i l IH]; simpl; [done|].
  pose proof (blocksOf_nonneg (config cf) (fileSize os (fileNameAt cf i)) Hb
                (fileSize_nonneg _ _)).
  lia.
Qed.

(** The block count of one turn is that of the file, when the file ends
    a block below 2^63. *)
Lemma chunkNum_blocksOf c size :
  0 < BLOCK_SIZE_ c → 0 ≤ size → size + BLOCK_SIZE_ c ≤ 2 ^ 63 →
  to_int64 (wrap64 (size + BLOCK_SIZE_ c - 1) / BLOCK_SIZE_ c)
  = blocksOf c size.
Proof.
  intros Hb Hs Hroom. unfold blocksOf.
  rewrite wrap64_small by lia.
  apply to_int64_small.
  assert (0 ≤ (size + BLOCK_SIZE_ c - 1) / BLOCK_SIZE_ c) by
    (apply Z.div_pos; lia).
  assert ((size + BLOCK_SIZE_ c - 1) / BLOCK_SIZE_ c
          ≤ size + BLOCK_SIZE_ c - 1) by (apply Z.div_le_upper_bound; nia).
  lia.
Qed.

(** The count that the loop of [open] returns is the sum of the blocks of
    the files, as long as that sum is an [int64_t]. *)
Lemma openFiles_total checkOnly createMode l total0 cf os cf' os' total :
  openFiles checkOnly createMode l total0 (cf, os) = ((cf', os'), inr total) →
  0 < BLOCK_SIZE_ (config cf) ≤ 2 ^ 63 →
  filesBelow (BLOCK_SIZE_ (config cf)) os →
  NoDup l →
  Forall (λ i, 0 ≤ i
               ∧ (Z.to_nat i < List.length (fileNameList_ (fileSet cf)))%nat)
    l →
  0 ≤ total0 →
  total0 + blocksOfFiles cf' os' l < 2 ^ 63 →
  total = total0 + blocksOfFiles cf' os' l.
Proof.
  revert total0 cf os. induction l as [|i l IH]; intros total0 cf os; simpl.
  - unfold ret. intros [= <- <- <-] _ _ _ _ _ _. lia.
  - intros Hrun Hb Hbelow Hnodup Hl Htotal0 Hsum.
    apply NoDup_cons in Hnodup as [Hnotin Hnodup].
    apply Forall_cons in Hl as [[Hi Hlt] Hl].
    apply bind_inv in Hrun as [([cf1 os1] & n & Hturn & Hrest)|(e & _ & ?)];
      [|done].
    apply openFile_post in Hturn
      as (name & size & Hnames & Hconfig & Hadd & Hnode & Hn).
    assert (Forall (λ i, 0 ≤ i) l) as Hpos
      by (eapply Forall_impl; [exact Hl|]; simpl; tauto).
    destruct (openFiles_files _ _ _ _ _ _ _ _ _ Hrest Hpos)
      as (Hconfig' & Hadd' & Hlen & Hkeep).
    assert (filesBelow (BLOCK_SIZE_ (config cf)) os1) as Hbelow1
      by (eapply filesBelow_addsEmptyFiles; [lia|done..]).
    assert (fileNameAt cf' i = name) as Hname.
    { rewrite Hkeep by done. unfold fileNameAt. rewrite Hnames.
      by rewrite list_lookup_insert_eq. }
    assert (fileSize os' (fileNameAt cf' i) = Z.of_N size) as Hsize.
    { unfold fileSize. rewrite Hname.
      by rewrite (addsEmptyFiles_file _ _ _ _ Hadd' Hnode). }
    assert (n = blocksOf (config cf) (Z.of_N size)) as ->.
    { destruct Hn as [->|[-> ->]].
      - apply chunkNum_blocksOf; [lia..|]. by apply (Hbelow1 name).
      - unfold blocksOf. simpl. symmetry. apply Z.div_small. lia. }
    rewrite Hsize, Hconfig', Hconfig in Hsum |- *.
    pose proof (blocksOf_nonneg (config cf) (Z.of_N size)) as Hn0.
    pose proof (blocksOfFiles_nonneg cf' os' l) as Hrest0.
    rewrite Hconfig', Hconfig in Hrest0.
    rewrite to_int64_small in Hrest by lia.
    apply IH in Hrest.
    + lia.
    + by rewrite Hconfig.
    + by rewrite Hconfig.
    + done.
    + rewrite Hnames, length_insert. eapply Forall_impl; [exact Hl|]. done.
    + lia.
    + lia.
Qed.

Lemma fileSize_addsEmptyFiles os os' path :
  addsEmptyFiles os os' → fileSize os' path = fileSize os path.
Proof.
  intros Hadd. unfold fileSize.
  destruct (Hadd path) as [->|[-> ->]]; done.
Qed.

Lemma blocksOfFiles_addsEmptyFiles cf os os' l :
  addsEmptyFiles os os' → blocksOfFiles cf os' l = blocksOfFiles cf os l.
Proof.
  intros Hadd. induction l as [|i l IH]; simpl; [done|].
  by rewrite IH, (fileSize_addsEmptyFiles os os').
Qed.

Lemma blocksOfFiles_ext cf cf2 os l :
  config cf = config cf2 → fileSet cf = fileSet cf2 →
  blocksOfFiles cf os l = blocksOfFiles cf2 os l.
Proof.
  intros Hc Hf. induction l as [|i l IH]; simpl; [done|].
  unfold fileNameAt. by rewrite IH, Hc, Hf.
Qed.

End OpenFacts.

(** ** [truncate] *)

Section TruncateFacts.
Context `{HeaderConstants}.

(** [truncate] leaves the counters and the configuration alone; when it
    returns, the block count, the free count and the cursor are zero and
    both bit arrays have been reset. *)
Lemma truncate_inv s s' r :
  truncate s = (s', r) →
  counters (fst s') = counters (fst s)
  ∧ config (fst s') = config (fst s)
  ∧ (r = inr tt →
     blockNum_ (fst s') = 0
     ∧ freeUseBitNum_ (fst s') = 0
     ∧ freeBlockSearchCursor_ (fst s') = 0
     ∧ usedChunkInfo_ (fst s') = BitArray.reset (usedChunkInfo_ (fst s))
     ∧ validChunkInfo_ (fst s') = BitArray.reset (validChunkInfo_ (fst s)))
  ∧ (r ≠ inr tt → core (fst s') = core (fst s)).
Proof.
  unfold truncate. intros Hb.
  apply bind_inv in Hb as [(s0 & cf & [= <- <-] & Hb)|(e & [=] & _)].
  assert (preserves (λ c, core c = core (fst s))
            (forEach (seqZ 0 (splitCount_ (config (fst s)))) truncateFile))
    as Hpres.
  { apply preserves_forEach. intros i. apply preserves_truncateFile.
    intros c c' Hc Hc'. congruence. }
  specialize (Hpres s eq_refl).
  apply bind_inv in Hb as [(s1 & [] & Hloop & Hfin)|(e & Hloop & ->)];
    rewrite Hloop in Hpres; simpl in Hpres.
  - unfold modifyCf in Hfin. injection Hfin as <- <-. simpl.
    unfold core in Hpres. simplify_eq.
    repeat split; try done; congruence.
  - unfold core in Hpres. simplify_eq.
    repeat split; try done. unfold core. congruence.
Qed.

End TruncateFacts.

(** ** The allocator: counting, returned blocks, the append *)

Section AllocatorResults.
Context `{HeaderConstants}.

(** C3.  After any sequence of [allocateBlock] and [freeBlock] calls, each
    [freeBlock] made on a block that is allocated at that moment,
    [freeUseBitNum_] is the number of [false] bits of [usedChunkInfo_].  The
    sequence starts from any store where the count is exact and the cursor
    lies in the array (as after the constructor and after [open]); the
    array stays below 2^63 bits. *)
Theorem freeCount_counts_false_bits (cf : CheckpointFile) (ops : list AllocOp) :
  allocInv cf →
  BitArray.length (usedChunkInfo_ cf) + Z.of_nat (length ops) < 2 ^ 63 →
  freesAllocated ops cf = true →
  freeUseBitNum_ (runAlloc ops cf)
  = BitArray.countFalse (usedChunkInfo_ (runAlloc ops cf)).
Proof.
  intros Hinv Hlen Hpre.
  by destruct (runAlloc_allocInv ops cf Hinv Hlen Hpre).
Qed.

(** C4.  An [allocateBlock] call returns a block [b] that the array holds
    and whose bit is set when the call returns; and when a later
    [allocateBlock] of a sequence returns the same [b], a [freeBlock] of [b]
    lies between the two calls. *)
Theorem allocate_returns_used_block_once
    (cf cf1 cf2 : CheckpointFile) (b b' : Z) (mid : list AllocOp) :
  cursorOk cf →
  BitArray.length (usedChunkInfo_ cf) + Z.of_nat (length mid) + 1 < 2 ^ 63 →
  allocateBlock cf = (cf1, b) →
  (0 ≤ b < BitArray.length (usedChunkInfo_ cf1)
   ∧ BitArray.get (usedChunkInfo_ cf1) b = true)
  ∧ (freesAllocated mid cf1 = true →
     allocateBlock (runAlloc mid cf1) = (cf2, b') →
     b' = b → Free b ∈ mid).
Proof.
  intros Hc Hlen Ha.
  apply allocateBlock_allocated in Ha; [|done|lia].
  pose proof (allocated_used _ _ _ Ha) as [Hb Hset].
  split; [done|]. intros Hpre Ha' ->.
  destruct (decide (Free b ∈ mid)) as [|Hnot]; [done|exfalso].
  pose proof (allocated_length _ _ _ Ha) as Hgrow.
  destruct (runAlloc_keeps mid cf1 b) as (Hkept & Hc' & Hlen');
    [by eapply allocated_cursorOk|lia|done..|].
  apply allocateBlock_allocated in Ha'; [|done|lia].
  by destruct (allocated_keeps _ _ _ _ Ha' Hkept).
Qed.

(** When the search finds nothing, or is not made because no block is
    free, [allocateBlock] appends. *)
Lemma allocateBlock_append (cf : CheckpointFile) :
  BitArray.length (usedChunkInfo_ cf) < 2 ^ 63 →
  freeUseBitNum_ cf = 0
  ∨ (searchFromCursor (usedChunkInfo_ cf) (freeBlockSearchCursor_ cf)).1.1
    = -1 →
  let p := BitArray.length (usedChunkInfo_ cf) in
  snd (allocateBlock cf) = p
  ∧ usedChunkInfo_ (fst (allocateBlock cf)) = usedChunkInfo_ cf ++ [true]
  ∧ BitArray.get (validChunkInfo_ (fst (allocateBlock cf))) p = false.
Proof.
  intros Hlen Hmiss p.
  pose proof (BitArray_length_nonneg (usedChunkInfo_ cf)) as Hnn.
  assert (∀ cf1 : CheckpointFile,
    usedChunkInfo_ cf1 = usedChunkInfo_ cf →
    let r := setUsedBlockInfo (wrap64 (to_int64 p)) true
               (with_valid
                  (BitArray.set (validChunkInfo_ cf1) (wrap64 (to_int64 p)) false)
                  (with_used (usedChunkInfo_ cf ++ [true]) cf1)) in
    usedChunkInfo_ r = usedChunkInfo_ cf ++ [true]
    ∧ BitArray.get (validChunkInfo_ r) p = false) as Happend.
  { intros cf1 Hu r. subst r p.
    rewrite to_int64_small, wrap64_small by lia. split.
    - rewrite setUsedBlockInfo_used. simpl. apply BitArray_set_appended.
    - rewrite setUsedBlockInfo_valid. simpl. by apply BitArray_get_set_eq. }
  unfold allocateBlock.
  destruct (0 <? freeUseBitNum_ cf) eqn:Hfree.
  - destruct Hmiss as [Hz|Hs]; [zbool; lia|].
    destruct (searchFromCursor _ _) as [[ap pos] c]. simpl in Hs. subst ap.
    simpl. split; [apply to_int64_small; lia|].
    by apply (Happend (with_cursor _ cf)).
  - simpl. split; [apply to_int64_small; lia|]. by apply (Happend cf).
Qed.

End AllocatorResults.

(** ** The public operations and the lengths of the two arrays *)

Lemma preserves_modifyCf_alloc (I : CheckpointFile → Prop) f :
  allocOnly I → (∀ cf, allocState (f cf) = allocState cf) →
  preserves I (modifyCf f).
Proof. intros HI Hf. apply preserves_modifyCf. intros cf. by apply HI. Qed.

Lemma BitArray_length_reset (a : BitArray.t) :
  BitArray.length (BitArray.reset a) = 0.
Proof. done. Qed.

Section LengthFacts.
Context `{HeaderConstants}.

(** The property kept by the operations below. *)
Let I (cf : CheckpointFile) : Prop := sameLength cf ∧ cursorOk cf.

Lemma sameLength_allocOnly : allocOnly I.
Proof.
  intros cf cf' Ha. unfold I, sameLength, cursorOk, allocState in *.
  injection Ha as Hu Hv _ Hc. by rewrite Hu, Hv, Hc.
Qed.

Lemma preserves_writeBlock size blockNo io :
  preserves I (writeBlock size blockNo io).
Proof.
  pose proof sameLength_allocOnly as HI.
  pose proof (allocOnly_coreOnly _ HI) as HI'.
  unfold writeBlock.
  repeat first [apply preserves_reopenForWrite; [done]
               | apply preserves_GS_FILE_WRITE_ALL
               | apply preserves_modifyCf_alloc;
                 [done|intros ?; try done; by case_match]
               | preserves_step].
Qed.

Lemma preserves_writePartialBlock size offset io :
  preserves I (writePartialBlock size offset io).
Proof.
  pose proof sameLength_allocOnly as HI.
  pose proof (allocOnly_coreOnly _ HI) as HI'.
  unfold writePartialBlock.
  repeat first [apply preserves_reopenForWrite; [done]
               | apply preserves_GS_FILE_WRITE_ALL
               | apply preserves_modifyCf_alloc;
                 [done|intros ?; try done; by case_match]
               | preserves_step].
Qed.

Lemma preserves_readBlock size blockNo io :
  preserves I (readBlock size blockNo io).
Proof.
  pose proof sameLength_allocOnly as HI.
  pose proof (allocOnly_coreOnly _ HI) as HI'.
  unfold readBlock.
  repeat first [apply preserves_GS_FILE_READ_ALL
               | apply preserves_FileSystem_exists
               | apply preserves_NamedFile_open
               | apply preserves_setFileAt; [done]
               | apply preserves_modifyCf_alloc;
                 [done|intros ?; try done; by case_match]
               | preserves_step].
Qed.

Lemma preserves_truncate : preserves I truncate.
Proof.
  intros s [Hlen Hcur].
  destruct (truncate s) as [s' r] eqn:E. simpl.
  apply truncate_inv in E as (_ & _ & Hok & Herr).
  destruct r as [e|[]].
  - specialize (Herr ltac:(done)).
    eapply (allocOnly_coreOnly _ sameLength_allocOnly); done.
  - destruct Hok as (_ & _ & Hc & Hu & Hv); [done|].
    unfold I, sameLength, cursorOk. rewrite Hc, Hu, Hv.
    rewrite !BitArray_length_reset. done.
Qed.

(** One operation keeps the two arrays at the same length. *)
Lemma runOp_sameLength op s :
  I (fst s) → opInRange op (fst s) → I (fst (fst (runOp op s))).
Proof.
  intros [Hlen Hcur] Hin. destruct op; simpl in *.
  - unfold liftCf. destruct (allocateBlock (fst s)) as [cf' b] eqn:E. simpl.
    apply allocateBlock_allocated in E; [|done..].
    split; [|by eapply allocated_cursorOk].
    unfold sameLength in *.
    destruct E as [Hf Hb Hg Hu Hv Hfree Hc | -> Hu Hv Hfree Hc];
      rewrite Hu, Hv.
    + by rewrite BitArray_length_set_in by lia.
    + rewrite BitArray_length_set_out by lia.
      unfold BitArray.length. rewrite length_app. simpl. lia.
  - pose proof (BitArray_get_true_in _ _ Hin).
    split; [|by apply freeBlock_cursorOk].
    unfold sameLength. rewrite freeBlock_length by done.
    unfold freeBlock. by rewrite setUsedBlockInfo_valid.
  - unfold I, sameLength, cursorOk.
    rewrite setUsedBlockInfo_used, setUsedBlockInfo_valid,
      setUsedBlockInfo_cursor.
    by rewrite BitArray_length_set_in by lia.
  - unfold I, sameLength, cursorOk, setValidBlockInfo. simpl.
    by rewrite BitArray_length_set_in by lia.
  - by apply preserves_writeBlock.
  - by apply preserves_writePartialBlock.
  - by apply preserves_readBlock.
  - apply preserves_bind; [apply preserves_truncate|intros; apply preserves_ret|done].
Qed.

(** C8, as amended.  The two arrays keep the same length through
    [allocateBlock], [freeBlock] of an allocated block, [truncate], the
    writes and the reads, and through [setUsedBlockInfo] and
    [setValidBlockInfo] at a position that the array holds; the sequence
    starts from a store where the lengths agree and the cursor lies in the
    array. *)
Theorem bitmap_lengths_stay_equal (ops : list Op) (s : CheckpointFile * OS) :
  sameLength (fst s) → cursorOk (fst s) → opsInRange ops s →
  sameLength (fst (runOps ops s)).
Proof.
  intros Hlen Hcur.
  assert (I (fst s)) as HI by done. clear Hlen Hcur.
  revert s HI. induction ops as [|op ops IH]; intros s HI Hin; simpl in *.
  - apply HI.
  - destruct Hin as [Hop Hrest]. apply IH; [|done].
    by apply runOp_sameLength.
Qed.

End LengthFacts.

(** ** [truncate] and the counters *)

(** C7, as amended.  When [truncate] returns, the cursor, the block count
    and the free count are zero, and each of the four counters
    ([readBlockCount_], [writeBlockCount_], [readRetryCount_],
    [writeRetryCount_]) has the value it had before the call. *)
Theorem truncate_resets_cursor_keeps_counters (s s' : CheckpointFile * OS) :
  truncate s = (s', inr tt) →
  freeBlockSearchCursor_ (fst s') = 0
  ∧ blockNum_ (fst s') = 0
  ∧ freeUseBitNum_ (fst s') = 0
  ∧ readBlockCount_ (counters (fst s')) = readBlockCount_ (counters (fst s))
  ∧ writeBlockCount_ (counters (fst s')) = writeBlockCount_ (counters (fst s))
  ∧ readRetryCount_ (counters (fst s')) = readRetryCount_ (counters (fst s))
  ∧ writeRetryCount_ (counters (fst s')) = writeRetryCount_ (counters (fst s)).
Proof.
  intros E. apply truncate_inv in E as (Hc & _ & Hok & _).
  destruct Hok as (Hb & Hf & Hcur & _); [done|].
  rewrite Hc. done.
Qed.

(** C7, the claim as stated fails: after four blocks were written,
    [truncate] returns and [writeBlockCount_] is still 4. *)
Lemma truncate_keeps_writeBlockCount :
  snd (truncate exampleWritten) = inr tt
  ∧ writeBlockCount_ (counters (fst exampleWritten)) = 4
  ∧ writeBlockCount_ (counters (fst (fst (truncate exampleWritten)))) = 4.
Proof. by vm_compute. Qed.

(** ** [open] on a new store *)

Lemma wrap64_neg z : - 2 ^ 64 ≤ z < 0 → wrap64 z = z + 2 ^ 64.
Proof.
  intros. unfold wrap64. symmetry.
  apply (Z.mod_unique_pos z (2 ^ 64) (-1) (z + 2 ^ 64)); lia.
Qed.

Lemma BitArray_set_nil pos :
  0 ≤ pos → BitArray.set [] pos false = replicate (Z.to_nat (pos + 1)) false.
Proof.
  intros Hp. unfold BitArray.set, BitArray.length. simpl.
  destruct (pos <? Z.of_nat 0) eqn:E; [exfalso; zbool; lia|].
  rewrite Nat.sub_0_r. replace (Z.to_nat (pos + 1)) with (S (Z.to_nat pos))
    by lia.
  change [false] with (replicate 1 false).
  rewrite <- replicate_add. f_equal. lia.
Qed.

Section OpenResults.
Context `{HeaderConstants}.

(** The constructor leaves both bit arrays empty. *)
Lemma CheckpointFile_new_bitmaps chunkExpSize dir pgId splitCount stripeSize
    configDirList os cf :
  CheckpointFile_new chunkExpSize dir pgId splitCount stripeSize
    configDirList os = inr cf →
  usedChunkInfo_ cf = [] ∧ validChunkInfo_ cf = []
  ∧ freeUseBitNum_ cf = 0 ∧ freeBlockSearchCursor_ cf = 0.
Proof.
  unfold CheckpointFile_new. intros Hnew.
  repeat case_match; simplify_eq; done.
Qed.

(** The state that [open] leaves in a newly constructed store. *)
Lemma open_new_store_state
    chunkExpSize dir pgId splitCount stripeSize configDirList
    (os os' : OS) (cf cf' : CheckpointFile) (checkOnly createMode empty : bool) :
  CheckpointFile_new chunkExpSize dir pgId splitCount stripeSize
    configDirList os = inr cf →
  open checkOnly createMode (cf, os) = ((cf', os'), inr empty) →
  blockNum_ cf' < 2 ^ 63 →
  usedChunkInfo_ cf' = replicate (Z.to_nat (blockNum_ cf' + 2)) false
  ∧ validChunkInfo_ cf' = replicate (Z.to_nat (blockNum_ cf' + 2)) false
  ∧ BitArray.length (usedChunkInfo_ cf') = blockNum_ cf' + 2
  ∧ BitArray.length (validChunkInfo_ cf') = blockNum_ cf' + 2
  ∧ freeUseBitNum_ cf' = blockNum_ cf' + 2
  ∧ freeBlockSearchCursor_ cf' = 0
  ∧ empty = (blockNum_ cf' =? 0).
Proof.
  intros Hnew Hopen Hsmall.
  apply CheckpointFile_new_bitmaps in Hnew as (Hu0 & Hv0 & _ & _).
  apply open_inv in Hopen
    as (total & cf1 & Hloop & -> & Hn & Hu & Hv & Hf & Hc & _ & _).
  simpl in *.
  assert (core cf1 = core cf) as Hcore.
  { pose proof (preserves_openFiles (λ c, core c = core cf)
                  ltac:(intros c c' ? ?; congruence) checkOnly createMode
                  (seqZ 0 (splitCount_ (config cf))) 0 (cf, os) eq_refl)
      as Hp.
    by rewrite Hloop in Hp. }
  assert (usedChunkInfo_ cf1 = [] ∧ validChunkInfo_ cf1 = []) as [Hu1 Hv1]
    by (unfold core in Hcore; split; congruence).
  apply openFiles_range in Hloop; [|lia].
  assert (0 ≤ total) as Hpos.
  { destruct (decide (0 ≤ total)) as [|Hneg]; [done|exfalso].
    rewrite Hn, wrap64_neg in Hsmall; lia. }
  rewrite Hn, (wrap64_small total) by lia.
  rewrite Hu1, wrap64_small in Hu by lia.
  rewrite Hv1, wrap64_small in Hv by lia.
  rewrite BitArray_set_nil in Hu, Hv by lia.
  replace (total + 1 + 1) with (total + 2) in Hu, Hv by lia.
  rewrite Hf, Hu, Hv. unfold BitArray.length. rewrite length_replicate.
  repeat split; try done; lia.
Qed.


(** After the constructor, and after [open] on a new store, the count of
    free blocks is exact and the cursor lies in the array. *)
Lemma allocInv_new chunkExpSize dir pgId splitCount stripeSize
    configDirList os cf :
  CheckpointFile_new chunkExpSize dir pgId splitCount stripeSize
    configDirList os = inr cf →
  allocInv cf.
Proof.
  intros Hnew.
  apply CheckpointFile_new_bitmaps in Hnew as (Hu & _ & Hf & Hc).
  unfold allocInv. rewrite Hu, Hf, Hc. by vm_compute.
Qed.

Lemma allocInv_open chunkExpSize dir pgId splitCount stripeSize configDirList
    (os os' : OS) (cf cf' : CheckpointFile) (checkOnly createMode empty : bool) :
  CheckpointFile_new chunkExpSize dir pgId splitCount stripeSize
    configDirList os = inr cf →
  open checkOnly createMode (cf, os) = ((cf', os'), inr empty) →
  blockNum_ cf' < 2 ^ 63 →
  allocInv cf'.
Proof.
  intros Hnew Hopen Hsmall.
  destruct (open_new_store_state _ _ _ _ _ _ _ _ _ _ _ _ _ Hnew Hopen Hsmall)
    as (Hu & _ & Hlu & _ & Hf & Hc & _).
  unfold allocInv. rewrite Hf, Hc, Hlu, Hu.
  rewrite BitArray_countFalse_replicate_false.
  pose proof (BitArray_length_nonneg (usedChunkInfo_ cf')). lia.
Qed.

(** The constructor makes one name slot for each file. *)
Lemma CheckpointFile_new_names chunkExpSize dir pgId splitCount stripeSize
    configDirList os cf :
  CheckpointFile_new chunkExpSize dir pgId splitCount stripeSize
    configDirList os = inr cf →
  List.length (fileNameList_ (fileSet cf))
  = Z.to_nat (splitCount_ (config cf)).
Proof.
  unfold CheckpointFile_new. intros Hnew.
  repeat case_match; simplify_eq; simpl;
    rewrite ?length_insert, ?length_replicate; done.
Qed.

(** The block count that [open] stores is the sum of the blocks of the
    backing files. *)
Lemma open_new_store_blockNum
    chunkExpSize dir pgId splitCount stripeSize configDirList
    (os os' : OS) (cf cf' : CheckpointFile) (checkOnly createMode empty : bool) :
  CheckpointFile_new chunkExpSize dir pgId splitCount stripeSize
    configDirList os = inr cf →
  open checkOnly createMode (cf, os) = ((cf', os'), inr empty) →
  0 < BLOCK_SIZE_ (config cf) ≤ 2 ^ 63 →
  filesBelow (BLOCK_SIZE_ (config cf)) os →
  totalBlocks cf' os' < 2 ^ 63 →
  blockNum_ cf' = totalBlocks cf' os'
  ∧ totalBlocks cf' os = totalBlocks cf' os'
  ∧ 0 ≤ totalBlocks cf' os'.
Proof.
  intros Hnew Hopen Hb Hbelow Hsum.
  apply CheckpointFile_new_names in Hnew as Hlen.
  apply open_inv in Hopen
    as (total & cf1 & Hloop & _ & Hn & _ & _ & _ & _ & _ & Hconfig & Hfiles).
  simpl in *.
  assert (Forall (λ i, 0 ≤ i) (seqZ 0 (splitCount_ (config cf)))) as Hpos.
  { apply Forall_forall. intros i Hi. apply elem_of_seqZ in Hi. lia. }
  destruct (openFiles_files _ _ _ _ _ _ _ _ _ Hloop Hpos)
    as (Hconfig1 & Hadd & _ & _).
  assert (∀ o, totalBlocks cf' o
               = blocksOfFiles cf1 o (seqZ 0 (splitCount_ (config cf))))
    as Htotal.
  { intros o. unfold totalBlocks. rewrite Hconfig, Hconfig1.
    by apply blocksOfFiles_ext. }
  rewrite (Htotal os), (Htotal os') in *.
  pose proof (blocksOfFiles_addsEmptyFiles cf1 os os'
                (seqZ 0 (splitCount_ (config cf))) Hadd) as Hsame.
  apply openFiles_total in Hloop; [|done|done|apply NoDup_seqZ| |done|lia].
  - pose proof (blocksOfFiles_nonneg cf1 os'
                  (seqZ 0 (splitCount_ (config cf)))) as Hnonneg.
    rewrite Hconfig1 in Hnonneg.
    rewrite Hn, Hloop, wrap64_small by lia.
    split; [lia|]. split; lia.
  - apply Forall_forall. intros i Hi. apply elem_of_seqZ in Hi.
    rewrite Hlen. lia.
Qed.

(** C10, as amended.  Right after a successful [open] of a newly
    constructed store whose backing files total [N] blocks (the sum, over the files of the
    store, of the file's size divided by the block size and rounded up; it
    is the same before and after [open], which adds empty files only), the
    block count is [N], both bit arrays hold [N + 2] bits, all clear,
    [freeUseBitNum_] is [N + 2] and the cursor is 0.  The block size is
    positive, each file ends a block below 2^63 and [N] is an [int64_t]. *)
Theorem open_new_store_bitmaps
    chunkExpSize dir pgId splitCount stripeSize configDirList
    (os os' : OS) (cf cf' : CheckpointFile) (checkOnly createMode empty : bool) :
  CheckpointFile_new chunkExpSize dir pgId splitCount stripeSize
    configDirList os = inr cf →
  open checkOnly createMode (cf, os) = ((cf', os'), inr empty) →
  0 < BLOCK_SIZE_ (config cf) ≤ 2 ^ 63 →
  filesBelow (BLOCK_SIZE_ (config cf)) os →
  totalBlocks cf' os' < 2 ^ 63 →
  totalBlocks cf' os = totalBlocks cf' os'
  ∧ blockNum_ cf' = totalBlocks cf' os'
  ∧ usedChunkInfo_ cf'
    = replicate (Z.to_nat (totalBlocks cf' os' + 2)) false
  ∧ validChunkInfo_ cf'
    = replicate (Z.to_nat (totalBlocks cf' os' + 2)) false
  ∧ BitArray.length (usedChunkInfo_ cf') = totalBlocks cf' os' + 2
  ∧ BitArray.length (validChunkInfo_ cf') = totalBlocks cf' os' + 2
  ∧ freeUseBitNum_ cf' = totalBlocks cf' os' + 2
  ∧ freeBlockSearchCursor_ cf' = 0
  ∧ empty = (totalBlocks cf' os' =? 0).
Proof.
  intros Hnew Hopen Hb Hbelow Hsum.
  destruct (open_new_store_blockNum _ _ _ _ _ _ _ _ _ _ _ _ _
              Hnew Hopen Hb Hbelow Hsum) as (Hn & Hsame & _).
  rewrite <- Hn in Hsum |- *.
  split; [by rewrite Hsame|]. split; [done|].
  by eapply open_new_store_state.
Qed.

End OpenResults.

(** C10, the claim as stated fails: a store that holds two allocated and
    written blocks is closed and opened again.  [open] returns, the files
    total [N = 2] blocks and both arrays hold [N + 2 = 4] bits, but two
    bits of the used array are set, while [freeUseBitNum_] is 4: [open]
    keeps the bits that the arrays hold. *)
Lemma open_keeps_bits_of_used_store :
  snd (close exampleTwoBlocks) = inr tt
  ∧ snd exampleReopened = inr false
  ∧ totalBlocks (fst (fst exampleReopened)) (snd (fst exampleReopened)) = 2
  ∧ usedChunkInfo_ (fst (fst exampleReopened)) = [true; true; false; false]
  ∧ validChunkInfo_ (fst (fst exampleReopened)) = replicate 4 false
  ∧ freeUseBitNum_ (fst (fst exampleReopened)) = 4
  ∧ usedChunkInfo_ (fst (fst exampleReopened)) ≠ replicate 4 false.
Proof. by vm_compute. Qed.

(** ** [zerofillUnusedBlock] *)

Lemma addPunches_nil os : addPunches [] os = os.
Proof. destruct os. unfold addPunches. simpl. by rewrite app_nil_r. Qed.

Lemma addPunches_app l1 l2 os :
  addPunches l2 (addPunches l1 os) = addPunches (l1 ++ l2) os.
Proof. unfold addPunches. simpl. by rewrite app_assoc. Qed.

Lemma punchable_addPunches cf os l b :
  punchable cf os b → punchable cf (addPunches l os) b.
Proof. intros (f & size & ?). by exists f, size. Qed.

(** One turn of the loop: a block whose bit is clear gets its request, a
    block in use gets none. *)
Lemma zerofillBlock_run granted cf os b :
  0 ≤ BLOCK_SIZE_ (config cf) < 2 ^ 63 →
  0 ≤ b * BLOCK_SIZE_ (config cf) < 2 ^ 63 →
  (BitArray.get (usedChunkInfo_ cf) b = false →
   punchable cf os b ∧ granted b = true) →
  zerofillBlock granted b (cf, os)
  = ((cf, addPunches
            (if BitArray.get (usedChunkInfo_ cf) b then [] else [punchOf cf b])
            os), inr tt).
Proof.
  intros Hbs Hoff Hfile. unfold zerofillBlock. rewrite bind_getCf. cbn [fst].
  destruct (BitArray.get (usedChunkInfo_ cf) b) eqn:Hget; simpl.
  - by rewrite addPunches_nil.
  - rewrite (wrap64_small (b * _)) by lia.
    rewrite !to_int64_small by lia. rewrite wrap64_small by lia.
    destruct Hfile as [(f & size & Hf & Hopen & Hrw & Hnode) Hgranted];
      [done|].
    rewrite Hf. unfold NamedFile_preAllocate, bind, getOs. cbn [fst snd].
    rewrite Hnode, Hopen, Hrw, Hgranted. simpl.
    unfold punchOf. by rewrite Hf.
Qed.

(** A request that fails ends the turn with the error and without a
    record. *)
Lemma zerofillBlock_refused granted cf os b :
  0 ≤ BLOCK_SIZE_ (config cf) < 2 ^ 63 →
  0 ≤ b * BLOCK_SIZE_ (config cf) < 2 ^ 63 →
  BitArray.get (usedChunkInfo_ cf) b = false →
  ¬ (punchable cf os b ∧ granted b = true) →
  zerofillBlock granted b (cf, os) = ((cf, os), inl GS_ERROR_CM_IO_ERROR).
Proof.
  intros Hbs Hoff Hget Hnot. unfold zerofillBlock. rewrite bind_getCf.
  cbn [fst]. rewrite Hget. simpl.
  rewrite (wrap64_small (b * _)) by lia.
  rewrite !to_int64_small by lia. rewrite wrap64_small by lia.
  destruct (fileAt cf _) as [f|] eqn:Hf; [|done].
  unfold NamedFile_preAllocate, bind, getOs. cbn [fst snd].
  destruct (os_nodes os !! nf_name f) as [[|size]|] eqn:Hnode; [done| |done].
  destruct (nf_closed f) eqn:Hopen, (nf_readOnly f) eqn:Hrw,
    (granted b) eqn:Hgranted; simpl; try done.
  exfalso. apply Hnot. split; [|done]. by exists f, size.
Qed.

Lemma zerofill_loop granted cf os (l : list Z) :
  0 ≤ BLOCK_SIZE_ (config cf) < 2 ^ 63 →
  (∀ b, b ∈ l → 0 ≤ b * BLOCK_SIZE_ (config cf) < 2 ^ 63) →
  (∀ b, b ∈ l → BitArray.get (usedChunkInfo_ cf) b = false →
   punchable cf os b ∧ granted b = true) →
  forEach l (zerofillBlock granted) (cf, os)
  = ((cf, addPunches
            (punchOf cf
               <$> filter (λ b, BitArray.get (usedChunkInfo_ cf) b = false) l)
            os), inr tt).
Proof.
  intros Hbs. revert os. induction l as [|b l IH]; intros os Hoff Hfile; simpl.
  - by rewrite addPunches_nil.
  - unfold bind. rewrite zerofillBlock_run; [|done|..].
    + rewrite IH.
      * rewrite addPunches_app, filter_cons.
        destruct (BitArray.get (usedChunkInfo_ cf) b) eqn:Hget;
          case_decide; try done.
      * intros b' Hb'. apply Hoff. by right.
      * intros b' Hb' Hget. destruct (Hfile b') as [Hp Hg]; [by right|done|].
        split; [by apply punchable_addPunches|done].
    + apply Hoff. by left.
    + apply Hfile. by left.
Qed.

(** The loop up to a request that fails: the requests of the blocks before
    it are made, the error is thrown, and the later blocks get none. *)
Lemma zerofill_loop_refused granted cf os (l1 l2 : list Z) (b : Z) :
  0 ≤ BLOCK_SIZE_ (config cf) < 2 ^ 63 →
  (∀ b', b' ∈ b :: l1 → 0 ≤ b' * BLOCK_SIZE_ (config cf) < 2 ^ 63) →
  (∀ b', b' ∈ l1 → BitArray.get (usedChunkInfo_ cf) b' = false →
   punchable cf os b' ∧ granted b' = true) →
  BitArray.get (usedChunkInfo_ cf) b = false →
  ¬ (punchable cf os b ∧ granted b = true) →
  forEach (l1 ++ b :: l2) (zerofillBlock granted) (cf, os)
  = ((cf, addPunches
            (punchOf cf
               <$> filter (λ b, BitArray.get (usedChunkInfo_ cf) b = false) l1)
            os), inl GS_ERROR_CM_IO_ERROR).
Proof.
  intros Hbs. revert os.
  induction l1 as [|b1 l1 IH]; intros os Hoff Hfile Hget Hnot; simpl.
  - unfold bind. rewrite zerofillBlock_refused; [|done| |done..].
    + by rewrite addPunches_nil.
    + apply Hoff. by left.
  - unfold bind. rewrite zerofillBlock_run; [|done|..].
    + rewrite IH; [| | |done|].
      * rewrite addPunches_app, filter_cons.
        destruct (BitArray.get (usedChunkInfo_ cf) b1) eqn:Hget1;
          case_decide; try done.
      * intros b' Hb'. apply Hoff. apply elem_of_cons in Hb' as [->|Hb'].
        -- by left.
        -- right. by right.
      * intros b' Hb' Hget'. destruct (Hfile b') as [Hp Hg]; [by right|done|].
        split; [by apply punchable_addPunches|done].
      * intros [(f & size & Hp) Hg]. apply Hnot. split; [|done].
        by exists f, size.
    + apply Hoff. right. by left.
    + apply Hfile. by left.
Qed.

Lemma elem_of_unusedBlocks cf b :
  b ∈ unusedBlocks cf
  ↔ 1 ≤ b < BitArray.length (usedChunkInfo_ cf)
    ∧ BitArray.get (usedChunkInfo_ cf) b = false.
Proof.
  unfold unusedBlocks. rewrite list_elem_of_filter, elem_of_seqZ.
  pose proof (BitArray_length_nonneg (usedChunkInfo_ cf)). split.
  - intros [? ?]. split; [lia|done].
  - intros [? ?]. split; [done|lia].
Qed.

Lemma elem_of_unusedBlocksBelow cf b b' :
  b' ∈ unusedBlocksBelow cf b
  ↔ 1 ≤ b' < b ∧ BitArray.get (usedChunkInfo_ cf) b' = false.
Proof.
  unfold unusedBlocksBelow. rewrite list_elem_of_filter, elem_of_seqZ. split.
  - intros [? ?]. split; [lia|done].
  - intros [? ?]. split; [done|lia].
Qed.

(** The run of [zerofillUnusedBlock] whose requests are all made. *)
Lemma zerofill_run granted cf os :
  0 ≤ BLOCK_SIZE_ (config cf) < 2 ^ 63 →
  BitArray.length (usedChunkInfo_ cf) * BLOCK_SIZE_ (config cf) < 2 ^ 63 →
  (∀ b, b ∈ unusedBlocks cf → punchable cf os b ∧ granted b = true) →
  zerofillUnusedBlock granted (cf, os)
  = ((cf, addPunches (punchOf cf <$> unusedBlocks cf) os), inr tt).
Proof.
  intros Hbs Hsize Hfile.
  unfold zerofillUnusedBlock. rewrite bind_getCf. cbn [fst].
  rewrite zerofill_loop; [done..| |].
  - intros b Hb. apply elem_of_seqZ in Hb. nia.
  - intros b Hb Hget. apply Hfile. apply elem_of_unusedBlocks.
    apply elem_of_seqZ in Hb. split; [lia|done].
Qed.

(** The run of [zerofillUnusedBlock] that meets a request that fails, at
    the first such block [b]. *)
Lemma zerofill_refused granted cf os b :
  0 ≤ BLOCK_SIZE_ (config cf) < 2 ^ 63 →
  BitArray.length (usedChunkInfo_ cf) * BLOCK_SIZE_ (config cf) < 2 ^ 63 →
  b ∈ unusedBlocks cf →
  ¬ (punchable cf os b ∧ granted b = true) →
  (∀ b', b' ∈ unusedBlocksBelow cf b →
         punchable cf os b' ∧ granted b' = true) →
  zerofillUnusedBlock granted (cf, os)
  = ((cf, addPunches (punchOf cf <$> unusedBlocksBelow cf b) os),
     inl GS_ERROR_CM_IO_ERROR).
Proof.
  intros Hbs Hsize Hb Hnot Hbefore.
  apply elem_of_unusedBlocks in Hb as [Hrange Hget].
  unfold zerofillUnusedBlock. rewrite bind_getCf. cbn [fst].
  set (n := BitArray.length (usedChunkInfo_ cf)) in *.
  assert (seqZ 1 (n - 1) = seqZ 1 (b - 1) ++ b :: seqZ (b + 1) (n - 1 - b))
    as ->.
  { replace (n - 1) with ((b - 1) + (n - b)) at 1 by lia.
    rewrite seqZ_app by lia.
    replace (1 + (b - 1)) with b by lia.
    rewrite (seqZ_cons b) by lia.
    do 3 f_equal; lia. }
  rewrite zerofill_loop_refused; [done|done| | |done..].
  - intros b' Hb'. apply elem_of_cons in Hb' as [->|Hb'].
    + nia.
    + apply elem_of_seqZ in Hb'. nia.
  - intros b' Hb' Hget'. apply elem_of_seqZ in Hb'.
    apply Hbefore. apply elem_of_unusedBlocksBelow. split; [lia|done].
Qed.

(** [punchHoleBlock] of one block makes the request of [punchOf], when the
    block size fits its [uint32_t] parameter. *)
Lemma punchHoleBlock_run cf os b :
  0 < BLOCK_SIZE_ (config cf) < 2 ^ 32 →
  punchable cf os b →
  punchHoleBlock (BLOCK_SIZE_ (config cf)) (b * BLOCK_SIZE_ (config cf)) true
    (cf, os)
  = ((cf, addPunches [punchOf cf b] os), inr tt).
Proof.
  intros Hbs (f & size & Hf & Hopen & Hrw & Hnode).
  unfold punchHoleBlock. rewrite bind_getCf. cbn [fst].
  unfold wrap32. rewrite Z.mod_small by lia.
  rewrite Hf, Hopen. simpl.
  destruct (0 <? BLOCK_SIZE_ (config cf)) eqn:E; [|exfalso; zbool; lia].
  unfold NamedFile_preAllocate, bind, getOs. cbn [fst snd].
  rewrite Hnode, Hopen, Hrw. simpl.
  unfold punchOf. by rewrite Hf.
Qed.

Lemma punchHoleBlock_loop granted cf os (l : list Z) :
  0 < BLOCK_SIZE_ (config cf) < 2 ^ 32 →
  (∀ b, b ∈ l → punchable cf os b ∧ granted b = true) →
  forEach l
    (λ b, punchHoleBlock (BLOCK_SIZE_ (config cf))
            (b * BLOCK_SIZE_ (config cf)) (granted b)) (cf, os)
  = ((cf, addPunches (punchOf cf <$> l) os), inr tt).
Proof.
  intros Hbs. revert os. induction l as [|b l IH]; intros os Hfile; simpl.
  - by rewrite addPunches_nil.
  - destruct (Hfile b) as [Hp Hg]; [by left|].
    unfold bind. rewrite Hg, punchHoleBlock_run by done.
    rewrite IH.
    + by rewrite addPunches_app.
    + intros b' Hb'. destruct (Hfile b') as [Hp' Hg']; [by right|].
      split; [by apply punchable_addPunches|done].
Qed.

(** C6.  [zerofillUnusedBlock] asks for one hole of [BLOCK_SIZE_] bytes for
    each block [b] from 1 to [length - 1] whose used bit is clear, for the
    byte offset [b * BLOCK_SIZE_] (at that offset itself in a store of one
    file, at its place in the file set otherwise), in the order of the
    blocks, and for no other; block 0 gets none.  This is the run in which
    every such block lies in a file that exists and is held open and
    writable, and the operating system does what is asked ([granted]).  A
    request that fails, at the first such block [b], ends the run with the
    error: the blocks before [b] have their holes and the later ones are
    not asked for.  With a block size that fits [uint32_t], the requests
    are those of [punchHoleBlock(BLOCK_SIZE_, b * BLOCK_SIZE_)], block by
    block.  After four blocks were allocated and written and blocks 1 and 3
    freed, the requests are the two at [1 * BLOCK_SIZE_] and
    [3 * BLOCK_SIZE_].  The store's byte size is below 2^63. *)
Theorem zerofill_punches_each_unused_block (granted : Z → bool)
    (cf : CheckpointFile) (os : OS) :
  0 ≤ BLOCK_SIZE_ (config cf) < 2 ^ 63 →
  BitArray.length (usedChunkInfo_ cf) * BLOCK_SIZE_ (config cf) < 2 ^ 63 →
  ((∀ b, b ∈ unusedBlocks cf → punchable cf os b ∧ granted b = true) →
   zerofillUnusedBlock granted (cf, os)
   = ((cf, addPunches (punchOf cf <$> unusedBlocks cf) os), inr tt))
  ∧ (∀ b, b ∈ unusedBlocks cf →
          ¬ (punchable cf os b ∧ granted b = true) →
          (∀ b', b' ∈ unusedBlocksBelow cf b →
                 punchable cf os b' ∧ granted b' = true) →
          zerofillUnusedBlock granted (cf, os)
          = ((cf, addPunches (punchOf cf <$> unusedBlocksBelow cf b) os),
             inl GS_ERROR_CM_IO_ERROR))
  ∧ NoDup (unusedBlocks cf)
  ∧ (∀ b, b ∈ unusedBlocks cf
          ↔ 1 ≤ b < BitArray.length (usedChunkInfo_ cf)
            ∧ BitArray.get (usedChunkInfo_ cf) b = false)
  ∧ (∀ b, pr_length (punchOf cf b) = BLOCK_SIZE_ (config cf)
          ∧ (splitCount_ (config cf) = 1 →
             pr_offset (punchOf cf b) = b * BLOCK_SIZE_ (config cf)))
  ∧ (0 < BLOCK_SIZE_ (config cf) < 2 ^ 32 →
     (∀ b, b ∈ unusedBlocks cf → punchable cf os b ∧ granted b = true) →
     zerofillUnusedBlock granted (cf, os)
     = forEach (unusedBlocks cf)
         (λ b, punchHoleBlock (BLOCK_SIZE_ (config cf))
                 (b * BLOCK_SIZE_ (config cf)) (granted b)) (cf, os))
  ∧ os_punched (snd (fst (zerofillUnusedBlock (λ _, true) exampleWritten)))
    = [ {| pr_file := "/tmp/t1/gs_cp_0_1.dat"; pr_offset := 1 * 65536;
           pr_length := 65536 |};
        {| pr_file := "/tmp/t1/gs_cp_0_1.dat"; pr_offset := 3 * 65536;
           pr_length := 65536 |} ].
Proof.
  intros Hbs Hsize.
  split; [by apply zerofill_run|].
  split; [intros b; by apply zerofill_refused|].
  split; [apply NoDup_filter, NoDup_seqZ|].
  split; [intros b; apply elem_of_unusedBlocks|].
  split.
  { intros b. split; [done|].
    intros Hone. unfold punchOf, calcFileOffset. simpl. by rewrite Hone. }
  split; [|by vm_compute].
  intros Hfit Hfile. rewrite zerofill_run by done.
  by rewrite punchHoleBlock_loop.
Qed.

(** ** [readBlock] *)

Lemma throwsOnly_ret {A} P (a : A) : throwsOnly P (ret a).
Proof. by intros s e. Qed.

Lemma throwsOnly_throw {A} (P : ErrorCode → Prop) e :
  P e → throwsOnly P (@throw A e).
Proof. intros He s e' [= <-]. done. Qed.

Lemma throwsOnly_bind {A B} P (m : M A) (k : A → M B) :
  throwsOnly P m → (∀ a, throwsOnly P (k a)) → throwsOnly P (bind m k).
Proof.
  intros Hm Hk s e. unfold bind. specialize (Hm s).
  destruct (m s) as [s1 [e1|a]]; simpl in *.
  - intros [= <-]. by apply Hm.
  - apply Hk.
Qed.

Lemma throwsOnly_getCf P : throwsOnly P getCf.
Proof. by intros s e. Qed.

Lemma throwsOnly_getOs P : throwsOnly P getOs.
Proof. by intros s e. Qed.

Lemma throwsOnly_modifyCf P f : throwsOnly P (modifyCf f).
Proof. by intros s e. Qed.

Lemma throwsOnly_modifyOs P f : throwsOnly P (modifyOs f).
Proof. by intros s e. Qed.

Ltac throwsOnly_step :=
  match goal with
  | |- throwsOnly _ (bind _ _) => apply throwsOnly_bind; [|intros ?]
  | |- throwsOnly _ (ret _) => apply throwsOnly_ret
  | |- throwsOnly _ (throw _) => apply throwsOnly_throw; done
  | |- throwsOnly _ getCf => apply throwsOnly_getCf
  | |- throwsOnly _ getOs => apply throwsOnly_getOs
  | |- throwsOnly _ (modifyCf _) => apply throwsOnly_modifyCf
  | |- throwsOnly _ (modifyOs _) => apply throwsOnly_modifyOs
  | |- throwsOnly _ (match ?x with _ => _ end) => destruct x
  | |- throwsOnly _ (if ?x then _ else _) => destruct x
  end.

(** [readBlock] throws the invalid-parameter error exactly when its opening
    test holds: every other throw of it is an I/O error. *)
Lemma readBlock_invalid_iff size blockNo io s :
  snd (readBlock size blockNo io s) = inl GS_ERROR_CF_READ_CHUNK_FAILED
  ↔ readBlockInvalid (fst s) size blockNo = true.
Proof.
  unfold readBlock. rewrite bind_getCf.
  destruct (readBlockInvalid (fst s) size blockNo) eqn:E; [done|].
  split; [|done]. intros Hthrow. exfalso. revert Hthrow.
  match goal with
  | |- snd (?m s) = _ → _ =>
      assert (throwsOnly (λ e, e = GS_ERROR_CM_IO_ERROR) m) as Ht
  end.
  { cbv zeta. unfold GS_FILE_READ_ALL, FileSystem_exists, NamedFile_open.
    repeat throwsOnly_step. }
  intros Hthrow. by apply Ht in Hthrow.
Qed.

(** The opening test of [readBlock] in plain arithmetic, for a request that
    does not wrap around. *)
Lemma readBlockInvalid_spec cf size blockNo :
  0 ≤ size → 0 ≤ blockNo → 1 ≤ size + blockNo ≤ 2 ^ 64 →
  readBlockInvalid cf size blockNo = true
  ↔ blockNum_ cf < blockNo + size - 1 ∨ size = 0.
Proof.
  intros Hs Hb Hr. unfold readBlockInvalid.
  rewrite wrap64_small by lia.
  rewrite orb_true_iff, Z.ltb_lt, Z.eqb_eq. lia.
Qed.

(** C1, the code at a failing input: on the newly opened store, whose block
    count is 0, [readBlock(buffer, 1, 0)] passes the parameter test and goes
    on to the file, whatever the operating system then does with the
    request; the invalid-parameter error is not thrown. *)
Theorem readBlock_empty_store_example (io : IoOutcome) :
  blockNum_ (fst exampleOpened) = 0
  ∧ readBlockInvalid (fst exampleOpened) 1 0 = false
  ∧ snd (readBlock 1 0 io exampleOpened) ≠ inl GS_ERROR_CF_READ_CHUNK_FAILED.
Proof.
  split; [by vm_compute|]. split; [by vm_compute|].
  rewrite readBlock_invalid_iff. by vm_compute.
Qed.

(** ** The file-name parser *)

(** *** Characters *)

Lemma digitValue_code c d :
  digitValue c = Some d →
  (48 ≤ nat_of_ascii c ≤ 57)%nat ∧ d = Z.of_nat (nat_of_ascii c) - 48.
Proof.
  unfold digitValue.
  destruct ((48 <=? Z.of_nat (nat_of_ascii c))
            && (Z.of_nat (nat_of_ascii c) <=? 57)) eqn:E; [|done].
  intros [= <-]. apply andb_true_iff in E as [E1 E2]. zbool. lia.
Qed.

Lemma digitValue_range c d : digitValue c = Some d → 0 ≤ d ≤ 9.
Proof. intros Hd. apply digitValue_code in Hd. lia. Qed.

Lemma isDigit_not_space c : isDigit c → isSpace c = false.
Proof.
  intros [d Hd]. apply digitValue_code in Hd as [Hc _].
  unfold isSpace. apply bool_decide_eq_false. lia.
Qed.

Lemma isDigit_not_minus c : isDigit c → c ≠ "-"%char.
Proof.
  intros [d Hd] ->. apply digitValue_code in Hd as [Hc _].
  vm_compute in Hc. lia.
Qed.

Lemma isDigit_not_plus c : isDigit c → c ≠ "+"%char.
Proof.
  intros [d Hd] ->. apply digitValue_code in Hd as [Hc _].
  vm_compute in Hc. lia.
Qed.

Lemma digitValue_digitChar d : 0 ≤ d ≤ 9 → digitValue (digitChar d) = Some d.
Proof.
  intros Hd. unfold digitValue, digitChar.
  rewrite nat_ascii_embedding by lia.
  destruct ((48 <=? Z.of_nat (Z.to_nat (48 + d)))
            && (Z.of_nat (Z.to_nat (48 + d)) <=? 57)) eqn:E.
  - f_equal. lia.
  - apply andb_false_iff in E as [E|E]; zbool; lia.
Qed.

(** *** Digits *)

Lemma digitsValue_app ds1 ds2 acc :
  digitsValue (ds1 ++ ds2) acc = digitsValue ds2 (digitsValue ds1 acc).
Proof. unfold digitsValue. apply fold_left_app. Qed.

Lemma digitsValue_nonneg ds acc :
  Forall isDigit ds → 0 ≤ acc → 0 ≤ digitsValue ds acc.
Proof.
  intros Hds. revert acc. induction Hds as [|c ds [d Hd] _ IH]; intros acc Ha;
    [done|].
  simpl. apply IH. rewrite Hd. simpl. apply digitValue_range in Hd. lia.
Qed.

(** [readDigits] takes the digits up to a character that is none. *)
Lemma readDigits_app ds rest acc n :
  Forall isDigit ds → noDigitHead rest →
  readDigits (ds ++ rest) acc n = (digitsValue ds acc, (n + length ds)%nat, rest).
Proof.
  intros Hds Hrest. revert acc n.
  induction Hds as [|c ds [d Hd] _ IH]; intros acc n; simpl.
  - rewrite Nat.add_0_r. destruct rest as [|c rest]; simpl; [done|].
    by rewrite Hrest.
  - rewrite Hd. simpl. rewrite IH. do 2 f_equal. lia.
Qed.

(** The digits written by [showDigits]. *)
Lemma showDigits_spec fuel n acc :
  (0 < fuel)%nat → 0 ≤ n < 10 ^ Z.of_nat fuel →
  ∃ ds, showDigits fuel n acc = ds ++ acc
        ∧ ds ≠ [] ∧ Forall isDigit ds
        ∧ ∀ a, digitsValue ds a = a * 10 ^ Z.of_nat (length ds) + n.
Proof.
  revert n acc. induction fuel as [|fuel IH]; intros n acc Hfuel Hn.
  - lia.
  - simpl. pose proof (Z.mod_pos_bound n 10 ltac:(lia)) as Hmod.
    destruct (n <? 10) eqn:E; zbool.
    + exists [digitChar (n mod 10)]. rewrite Z.mod_small by lia.
      split; [done|]. split; [done|]. split.
      * constructor; [|done]. exists n. apply digitValue_digitChar. lia.
      * intros a. unfold digitsValue. simpl.
        rewrite digitValue_digitChar by lia. simpl. lia.
    + destruct (IH (n / 10) (digitChar (n mod 10) :: acc)) as
        (ds & Hshow & Hne & Hds & Hval).
      { destruct fuel; [simpl in Hn|]; lia. }
      { split; [apply Z.div_pos; lia|].
        apply Z.div_lt_upper_bound; [lia|].
        rewrite Nat2Z.inj_succ, Z.pow_succ_r in Hn by lia. lia. }
      exists (ds ++ [digitChar (n mod 10)]).
      rewrite Hshow, <- app_assoc. split; [done|].
      split; [by destruct ds|]. split.
      * apply Forall_app. split; [done|]. constructor; [|done].
        exists (n mod 10). apply digitValue_digitChar. lia.
      * intros a. rewrite digitsValue_app, Hval. unfold digitsValue. simpl.
        rewrite digitValue_digitChar by lia. simpl.
        rewrite length_app. simpl.
        rewrite Nat2Z.inj_add, Z.pow_add_r by lia.
        pose proof (Z.div_mod n 10 ltac:(lia)). lia.
Qed.

Lemma showUnsigned_spec n :
  0 ≤ n →
  showUnsigned n ≠ [] ∧ Forall isDigit (showUnsigned n)
  ∧ digitsValue (showUnsigned n) 0 = n.
Proof.
  intros Hn. unfold showUnsigned.
  destruct (showDigits_spec (S (Z.to_nat (Z.log2 n))) n []) as
    (ds & Hshow & Hne & Hds & Hval).
  { lia. }
  { split; [done|].
    destruct (decide (n = 0)) as [->|Hnz]; [by vm_compute|].
    pose proof (Z.log2_nonneg n).
    pose proof (Z.log2_spec n ltac:(lia)) as [_ Hlt].
    rewrite Nat2Z.inj_succ, Z2Nat.id by lia.
    eapply Z.lt_le_trans; [apply Hlt|].
    apply Z.pow_le_mono_l. lia. }
  rewrite Hshow, app_nil_r. repeat split; [done..|].
  rewrite Hval. lia.
Qed.

(** *** [find] and [rfind] *)

Lemma isPrefix_app p s : isPrefix p (p ++ s) = true.
Proof.
  induction p as [|a p IH]; [done|]. simpl.
  rewrite bool_decide_eq_true_2 by done. done.
Qed.

Lemma isPrefix_inv p s : isPrefix p s = true → ∃ t, s = p ++ t.
Proof.
  revert s. induction p as [|a p IH]; intros s; simpl.
  - intros _. by exists s.
  - destruct s as [|b s]; [done|].
    intros Hp. apply andb_true_iff in Hp as [Hab Hp].
    apply bool_decide_eq_true in Hab as ->.
    destruct (IH s Hp) as [t ->]. by exists t.
Qed.

Lemma findFrom_prefix p s i : isPrefix p s = true → findFrom p s i = Some i.
Proof. intros Hp. destruct s; simpl; by rewrite Hp. Qed.

Lemma findFrom_ge p s i j : findFrom p s i = Some j → (i ≤ j)%nat.
Proof.
  revert i. induction s as [|c s IH]; intros i; simpl.
  - destruct (isPrefix p []); [|done]. intros [= ->]. lia.
  - destruct (isPrefix p (c :: s)).
    + intros [= ->]. lia.
    + intros Hf. apply IH in Hf. lia.
Qed.

(** [find] answers 0 only for a string that starts with the needle. *)
Lemma findFrom_here p s i : findFrom p s i = Some i → isPrefix p s = true.
Proof.
  destruct s as [|c s]; simpl.
  - by destruct (isPrefix p []).
  - destruct (isPrefix p (c :: s)); [done|].
    intros Hf. apply findFrom_ge in Hf. lia.
Qed.

Lemma rfindFrom_short p s i :
  (length s < length p)%nat → rfindFrom p s i = None.
Proof.
  revert i. induction s as [|c s IH]; intros i Hlen; simpl.
  - destruct p; [simpl in Hlen; lia|done].
  - rewrite IH by (simpl in Hlen; lia).
    destruct (isPrefix p (c :: s)) eqn:Hp; [|done].
    apply isPrefix_inv in Hp as [t Ht].
    apply (f_equal length) in Ht. rewrite length_app in Ht. lia.
Qed.

(** [rfind] on a string that ends with the needle answers the place of
    that ending. *)
Lemma rfindFrom_suffix p pre i :
  rfindFrom p (pre ++ p) i = Some (i + length pre)%nat.
Proof.
  revert i. induction pre as [|c pre IH]; intros i; simpl.
  - rewrite Nat.add_0_r. destruct p as [|a p]; [done|]. simpl.
    rewrite rfindFrom_short by (simpl; lia).
    rewrite bool_decide_eq_true_2 by done.
    pose proof (isPrefix_app p []) as Hp. rewrite app_nil_r in Hp.
    by rewrite Hp.
  - rewrite IH. f_equal. lia.
Qed.

Lemma rfindFrom_inv p s i j :
  rfindFrom p s i = Some j →
  ∃ pre post, s = pre ++ p ++ post ∧ j = (i + length pre)%nat.
Proof.
  revert i. induction s as [|c s IH]; intros i; simpl.
  - destruct (isPrefix p []) eqn:Hp; [|done]. intros [= <-].
    apply isPrefix_inv in Hp as [t Ht]. exists [], t. simpl. split; [done|lia].
  - destruct (rfindFrom p s (S i)) as [j'|] eqn:Hr.
    + intros [= <-]. apply IH in Hr as (pre & post & -> & ->).
      exists (c :: pre), post. simpl. split; [done|lia].
    + destruct (isPrefix p (c :: s)) eqn:Hp; [|done]. intros [= <-].
      apply isPrefix_inv in Hp as [t Ht]. exists [], t. simpl.
      split; [done|lia].
Qed.

(** *** Extractions *)

Lemma list_ascii_of_string_app s1 s2 :
  list_ascii_of_string (s1 +:+ s2)
  = list_ascii_of_string s1 ++ list_ascii_of_string s2.
Proof. induction s1 as [|c s1 IH]; [done|]. simpl. by rewrite IH. Qed.


Lemma readDigits_inv l acc n m n' rest :
  readDigits l acc n = (m, n', rest) →
  ∃ ds, l = ds ++ rest ∧ Forall isDigit ds ∧ m = digitsValue ds acc
        ∧ n' = (n + length ds)%nat ∧ noDigitHead rest.
Proof.
  revert acc n. induction l as [|c l IH]; intros acc n; simpl.
  - intros [= <- <- <-]. exists []. simpl. repeat split; try done; lia.
  - destruct (digitValue c) as [d|] eqn:Hd.
    + intros Hr. apply IH in Hr as (ds & -> & Hds & -> & -> & Hrest).
      exists (c :: ds). simpl. rewrite Hd. simpl.
      split; [done|]. split; [constructor; [by exists d|done]|].
      split; [done|]. split; [lia|done].
    + intros [= <- <- <-]. exists []. simpl.
      split; [done|]. split; [done|]. split; [done|]. split; [lia|done].
Qed.

Lemma skipSpaces_app ws l pos :
  Forall (λ c, isSpace c = true) ws → noSpaceHead l →
  skipSpaces (ws ++ l) pos = (l, (pos + length ws)%nat).
Proof.
  intros Hws Hl. revert pos. induction Hws as [|c ws Hc _ IH]; intros pos.
  - simpl. rewrite Nat.add_0_r. destruct l as [|c l]; [done|].
    simpl in *. by rewrite Hl.
  - simpl. rewrite Hc, IH. f_equal. lia.
Qed.

Lemma skipSpaces_inv l pos l' pos' :
  skipSpaces l pos = (l', pos') →
  ∃ ws, l = ws ++ l' ∧ Forall (λ c, isSpace c = true) ws
        ∧ pos' = (pos + length ws)%nat ∧ noSpaceHead l'.
Proof.
  revert pos. induction l as [|c l IH]; intros pos; simpl.
  - intros [= <- <-]. exists []. simpl. repeat split; try done; lia.
  - destruct (isSpace c) eqn:Hc.
    + intros Hs. apply IH in Hs as (ws & -> & Hws & -> & Hl').
      exists (c :: ws). simpl.
      split; [done|]. split; [by constructor|]. split; [lia|done].
    + intros [= <- <-]. exists []. simpl.
      split; [done|]. split; [done|]. split; [lia|done].
Qed.

(** *** The sentry *)

Lemma sentry_spaces ws l pos :
  Forall (λ c, isSpace c = true) ws → l ≠ [] → noSpaceHead l →
  sentry {| is_rest := ws ++ l; is_pos := pos; is_fail := false;
            is_eof := false |}
  = {| is_rest := l; is_pos := (pos + length ws)%nat; is_fail := false;
       is_eof := false |}.
Proof.
  intros Hws Hne Hl. unfold sentry, good. simpl.
  rewrite skipSpaces_app by done. by destruct l.
Qed.

Lemma sentry_inv s :
  is_fail (sentry s) = false →
  is_fail s = false ∧ is_eof s = false
  ∧ ∃ ws, is_rest s = ws ++ is_rest (sentry s)
          ∧ Forall (λ c, isSpace c = true) ws
          ∧ is_pos (sentry s) = (is_pos s + length ws)%nat
          ∧ is_rest (sentry s) ≠ []
          ∧ noSpaceHead (is_rest (sentry s))
          ∧ is_eof (sentry s) = false.
Proof.
  unfold sentry, good.
  destruct (is_fail s) eqn:Hf, (is_eof s) eqn:He; simpl; try done.
  destruct (skipSpaces (is_rest s) (is_pos s)) as [l pos] eqn:Hs.
  apply skipSpaces_inv in Hs as (ws & Hrest & Hws & -> & Hl).
  destruct l as [|c l]; [done|]. simpl. intros _.
  repeat split. by exists ws.
Qed.

(** *** Reading an integer *)

Lemma signed_digits_head sg ds rest :
  ds ≠ [] → Forall isDigit ds →
  signText sg ++ ds ++ rest ≠ [] ∧ noSpaceHead (signText sg ++ ds ++ rest).
Proof.
  intros Hne Hds. destruct sg; simpl; [|done..].
  destruct Hds as [|c ds Hc _]; [done|]. simpl.
  split; [done|by apply isDigit_not_space].
Qed.

Lemma readInteger_digits maxPos maxNeg negate pos negative signLen ds rest :
  ds ≠ [] → Forall isDigit ds → noDigitHead rest →
  digitsValue ds 0 ≤ (if negative : bool then maxNeg else maxPos) →
  readInteger maxPos maxNeg negate pos negative signLen (ds ++ rest)
  = ({| is_rest := rest; is_pos := (pos + signLen + length ds)%nat;
        is_fail := false; is_eof := bool_decide (rest = []) |},
     if negative then negate (digitsValue ds 0) else digitsValue ds 0).
Proof.
  intros Hne Hds Hc Hmax. unfold readInteger.
  rewrite readDigits_app by done. simpl.
  rewrite bool_decide_eq_false_2 by (destruct ds; simpl; [done|lia]).
  destruct (_ <? _) eqn:E; [exfalso; zbool; lia|done].
Qed.

Lemma readInteger_inv maxPos maxNeg negate pos negative signLen l s' v :
  readInteger maxPos maxNeg negate pos negative signLen l = (s', v) →
  is_fail s' = false →
  ∃ ds, l = ds ++ is_rest s' ∧ ds ≠ [] ∧ Forall isDigit ds
        ∧ noDigitHead (is_rest s')
        ∧ digitsValue ds 0 ≤ (if negative then maxNeg else maxPos)
        ∧ v = (if negative then negate (digitsValue ds 0)
               else digitsValue ds 0)
        ∧ is_pos s' = (pos + signLen + length ds)%nat
        ∧ is_eof s' = bool_decide (is_rest s' = []).
Proof.
  unfold readInteger.
  destruct (readDigits l 0 0) as [[m n] rest] eqn:Hr.
  apply readDigits_inv in Hr as (ds & -> & Hds & -> & -> & Hrest).
  case_bool_decide as Hn; [by intros [= <- <-]|].
  destruct (_ <? _) eqn:E; [by intros [= <- <-]|].
  intros [= <- <-] _. simpl. exists ds. zbool.
  repeat split; try done. by intros ->.
Qed.

(** An integer written with white space before it, its sign and its
    digits, and followed by a character that is no digit, is read whole
    when it is in range. *)
Lemma extractInteger_accepts maxPos maxNeg negate ws sg ds rest pos :
  Forall (λ c, isSpace c = true) ws →
  ds ≠ [] → Forall isDigit ds → noDigitHead rest →
  digitsValue ds 0 ≤ (if sg is MinusSign then maxNeg else maxPos) →
  extractInteger maxPos maxNeg negate
    {| is_rest := ws ++ signText sg ++ ds ++ rest; is_pos := pos;
       is_fail := false; is_eof := false |}
  = ({| is_rest := rest;
        is_pos := (pos + length ws + length (signText sg) + length ds)%nat;
        is_fail := false; is_eof := bool_decide (rest = []) |},
     if sg is MinusSign then negate (digitsValue ds 0) else digitsValue ds 0).
Proof.
  intros Hws Hne Hds Hrest Hmax. unfold extractInteger.
  destruct (signed_digits_head sg ds rest Hne Hds) as [Hne' Hhead].
  rewrite sentry_spaces by done. simpl is_fail. cbv iota.
  simpl is_rest. simpl is_pos.
  destruct sg; simpl signText; simpl app; simpl in Hmax.
  - destruct ds as [|d ds]; [done|]. simpl app.
    inversion Hds as [|? ? Hd _]; subst.
    rewrite bool_decide_eq_false_2 by (by apply isDigit_not_minus).
    rewrite bool_decide_eq_false_2 by (by apply isDigit_not_plus).
    change (d :: ds ++ rest) with ((d :: ds) ++ rest).
    rewrite readInteger_digits; done.
  - cbv beta iota. rewrite bool_decide_eq_true_2 by done.
    rewrite readInteger_digits; done.
  - cbv beta iota. rewrite bool_decide_eq_false_2 by done.
    rewrite bool_decide_eq_true_2 by done.
    rewrite readInteger_digits; done.
Qed.

Lemma extractInteger_inv maxPos maxNeg negate s s' v :
  extractInteger maxPos maxNeg negate s = (s', v) →
  is_fail s' = false →
  is_fail s = false ∧ is_eof s = false
  ∧ ∃ ws sg ds,
      is_rest s = ws ++ signText sg ++ ds ++ is_rest s'
      ∧ Forall (λ c, isSpace c = true) ws
      ∧ ds ≠ [] ∧ Forall isDigit ds ∧ noDigitHead (is_rest s')
      ∧ digitsValue ds 0 ≤ (if sg is MinusSign then maxNeg else maxPos)
      ∧ v = (if sg is MinusSign then negate (digitsValue ds 0)
             else digitsValue ds 0)
      ∧ is_pos s'
        = (is_pos s + length ws + length (signText sg) + length ds)%nat
      ∧ is_eof s' = bool_decide (is_rest s' = []).
Proof.
  unfold extractInteger.
  destruct (is_fail (sentry s)) eqn:Hf; [by intros [= <- <-]; rewrite Hf|].
  apply sentry_inv in Hf as (Hfs & Hes & ws & Hrest & Hws & Hpos & Hne & _).
  intros Hread Hok. split; [done|]. split; [done|]. exists ws.
  rewrite Hrest. rewrite Hpos in Hread. cbv zeta in Hread.
  destruct (is_rest (sentry s)) as [|c l] eqn:Hl; [done|].
  case_bool_decide as Hminus; [|case_bool_decide as Hplus].
  - apply readInteger_inv in Hread
      as (ds & -> & Hnz & Hds & Hnd & Hmax & -> & -> & ->); [|done].
    exists MinusSign, ds. subst c. simpl. by repeat split.
  - apply readInteger_inv in Hread
      as (ds & -> & Hnz & Hds & Hnd & Hmax & -> & -> & ->); [|done].
    exists PlusSign, ds. subst c. simpl. by repeat split.
  - apply readInteger_inv in Hread
      as (ds & Hcl & Hnz & Hds & Hnd & Hmax & -> & -> & ->); [|done].
    exists NoSign, ds. simpl. rewrite Hcl. repeat split; try done; lia.
Qed.

(** *** Reading a character *)

Lemma extractChar_accepts ws c rest pos :
  Forall (λ c, isSpace c = true) ws → isSpace c = false →
  extractChar {| is_rest := ws ++ c :: rest; is_pos := pos; is_fail := false;
                 is_eof := false |}
  = ({| is_rest := rest; is_pos := S (pos + length ws); is_fail := false;
        is_eof := false |}, c).
Proof.
  intros Hws Hc. unfold extractChar. by rewrite sentry_spaces.
Qed.

Lemma extractChar_inv s s' c :
  extractChar s = (s', c) → is_fail s' = false →
  is_fail s = false ∧ is_eof s = false
  ∧ ∃ ws, is_rest s = ws ++ c :: is_rest s'
          ∧ Forall (λ c, isSpace c = true) ws
          ∧ is_pos s' = S (is_pos s + length ws)
          ∧ is_eof s' = false.
Proof.
  unfold extractChar.
  destruct (is_fail (sentry s)) eqn:Hf; [by intros [= <- <-]; rewrite Hf|].
  apply sentry_inv in Hf as (Hfs & Hes & ws & Hrest & Hws & Hpos & Hne & _).
  destruct (is_rest (sentry s)) as [|c0 l] eqn:Hl; [done|].
  intros [= <- <-] _. simpl. repeat split; try done.
  exists ws. by rewrite Hpos.
Qed.

(** *** The names that are accepted *)

Lemma isSpace_not_digit c : isSpace c = true → digitValue c = None.
Proof.
  intros Hc. destruct (digitValue c) as [d|] eqn:Hd; [|done].
  rewrite isDigit_not_space in Hc; [done|by exists d].
Qed.

Lemma noDigitHead_spaces ws c rest :
  Forall (λ c, isSpace c = true) ws → digitValue c = None →
  noDigitHead (ws ++ c :: rest).
Proof.
  intros [|c0 ws0 Hc0 _] Hc; simpl; [done|]. by apply isSpace_not_digit.
Qed.

Lemma seekg_new base tail :
  seekg (length base) (IStream_new (base ++ tail))
  = {| is_rest := tail; is_pos := length base; is_fail := false;
       is_eof := false |}.
Proof.
  unfold seekg, IStream_new. simpl.
  rewrite bool_decide_eq_true_2 by (rewrite length_app; lia).
  by rewrite Nat.sub_0_r, drop_app_length.
Qed.

(** Every name of [acceptedAs] is accepted, with its numbers. *)
Lemma checkFileName_accepts name pgId splitId :
  acceptedAs name pgId splitId → checkFileName name = Some (pgId, splitId).
Proof.
  intros (ws1 & sg1 & ds1 & ws2 & ws3 & sg2 & ds2 & Heq & Hws1 & Hws2 & Hws3
          & Hne1 & Hds1 & Hne2 & Hds2 & Hmax1 & Hmax2 & -> & ->).
  unfold checkFileName. rewrite Heq. clear Heq.
  set (base := list_ascii_of_string gsCpFileBaseName).
  set (ext := list_ascii_of_string gsCpFileExtension).
  pose (rest2 := ws3 ++ signText sg2 ++ ds2 ++ ext).
  pose (rest1 := ws2 ++ "_"%char :: rest2).
  pose (tail := ws1 ++ signText sg1 ++ ds1 ++ rest1).
  pose (pre := base ++ ws1 ++ signText sg1 ++ ds1 ++ ws2
               ++ "_"%char :: ws3 ++ signText sg2 ++ ds2).
  change (base ++ ws1 ++ signText sg1 ++ ds1 ++ ws2
          ++ list_ascii_of_string gsCpFileSeparator
          ++ ws3 ++ signText sg2 ++ ds2 ++ ext)
    with (base ++ tail).
  assert (base ++ tail = pre ++ ext) as Hname.
  { unfold tail, rest1, rest2, pre.
    repeat (rewrite <- ?app_assoc; simpl). done. }
  rewrite findFrom_prefix by apply isPrefix_app.
  rewrite Hname at 1. rewrite rfindFrom_suffix.
  change (0 + length pre)%nat with (length pre).
  rewrite bool_decide_eq_true_2 by (by rewrite Hname, length_app).
  simpl negb. cbv iota.
  rewrite seekg_new. unfold extractUInt32, tail.
  rewrite extractInteger_accepts; try done;
    [|by apply noDigitHead_spaces|by destruct sg1].
  rewrite (bool_decide_eq_false_2 (rest1 = [])) by (by destruct ws2).
  unfold rest1. rewrite extractChar_accepts by done.
  unfold extractInt32, rest2.
  rewrite extractInteger_accepts; try done.
  rewrite (bool_decide_eq_false_2 (ext = [])) by done.
  simpl is_fail. cbv iota.
  rewrite bool_decide_eq_true_2 by done. simpl negb. cbv iota.
  unfold tellg, good. simpl is_fail. simpl is_eof. simpl is_pos.
  simpl negb. simpl andb. cbv iota.
  rewrite bool_decide_eq_true_2.
  - simpl. by destruct sg1, sg2.
  - f_equal. unfold pre. rewrite !length_app. simpl. rewrite !length_app. lia.
Qed.

(** Every accepted name is one of [acceptedAs]. *)
Lemma checkFileName_accepted name pgId splitId :
  checkFileName name = Some (pgId, splitId) → acceptedAs name pgId splitId.
Proof.
  unfold checkFileName.
  set (base := list_ascii_of_string gsCpFileBaseName).
  set (ext := list_ascii_of_string gsCpFileExtension).
  destruct (findFrom _ _ 0) as [[|n]|] eqn:Hfind; [|done..].
  destruct (rfindFrom _ _ 0) as [pos|] eqn:Hrfind; [|done].
  case_bool_decide as Hlen; [|done]. simpl negb. cbv iota.
  apply findFrom_here, isPrefix_inv in Hfind as [tail Htail].
  rewrite Htail. rewrite seekg_new.
  destruct (extractUInt32 _) as [s1 num1] eqn:H1.
  destruct (extractChar s1) as [s2 c] eqn:H2.
  destruct (extractInt32 s2) as [s3 num2] eqn:H3.
  destruct (is_fail s3) eqn:Hf3; [done|].
  case_bool_decide as Hc; [|done]. simpl negb. cbv iota.
  case_bool_decide as Htell; [|done]. simpl negb. cbv iota.
  intros [= <- <-]. subst c.
  apply extractInteger_inv in H3
    as (Hf2 & He2 & ws3 & sg2 & ds2 & Hr2 & Hws3 & Hne2 & Hds2 & _ & Hmax2
        & Hv2 & Hp3 & He3); [|done].
  apply extractChar_inv in H2
    as (Hf1 & He1 & ws2 & Hr1 & Hws2 & Hp2 & _); [|done].
  apply extractInteger_inv in H1
    as (_ & _ & ws1 & sg1 & ds1 & Hr0 & Hws1 & Hne1 & Hds1 & _ & Hmax1
        & Hv1 & Hp1 & _); [|done].
  simpl in Hr0, Hp1.
  unfold tellg, good in Htell. rewrite Hf3 in Htell. simpl in Htell.
  destruct (is_eof s3) eqn:He3'; [done|]. simpl in Htell.
  injection Htell as Hpos.
  apply rfindFrom_inv in Hrfind as (front & post & Hname & Hfront).
  assert (is_rest s3 = ext) as Hext.
  { assert (list_ascii_of_string name
            = (base ++ ws1 ++ signText sg1 ++ ds1 ++ ws2
               ++ "_"%char :: ws3 ++ signText sg2 ++ ds2) ++ is_rest s3)
      as Hall.
    { rewrite Htail, Hr0, Hr1, Hr2.
      repeat (rewrite <- ?app_assoc; simpl). done. }
    assert (post = []) as ->.
    { apply (f_equal length) in Hname. rewrite !length_app in Hname.
      destruct post; [done|]. simpl in Hname, Hlen. lia. }
    rewrite app_nil_r in Hname. rewrite Hname in Hall.
    apply app_inj_1 in Hall as [_ Hall]; [done|].
    rewrite !length_app. simpl. rewrite !length_app.
    change (length base) with 6%nat in *. simpl in Hp1. lia. }
  exists ws1, sg1, ds1, ws2, ws3, sg2, ds2.
  split.
  { rewrite Htail, Hr0, Hr1, Hr2, Hext. done. }
  repeat split; try done; by destruct sg1, sg2.
Qed.

(** A name of the form, whose numbers are in the range of [uint32_t] and
    [int32_t], is accepted with these numbers. *)
Lemma checkFileName_form ds1 sg ds2 :
  ds1 ≠ [] → ds2 ≠ [] → Forall isDigit ds1 → Forall isDigit ds2 →
  digitsValue ds1 0 ≤ UINT32_MAX →
  digitsValue ds2 0 ≤ (if sg is MinusSign then - INT32_MIN else INT32_MAX) →
  checkFileName (cpFormName ds1 sg ds2)
  = Some (digitsValue ds1 0, signedValue sg (digitsValue ds2 0)).
Proof.
  intros Hne1 Hne2 Hds1 Hds2 Hmax1 Hmax2.
  apply checkFileName_accepts.
  exists [], NoSign, ds1, [], [], sg, ds2.
  unfold cpFormName. rewrite list_ascii_of_string_of_list_ascii.
  repeat split; done.
Qed.

(** *** Names written by [open] are read back *)

Lemma showInt_chars z :
  list_ascii_of_string (showInt z)
  = signText (if z <? 0 then MinusSign else NoSign) ++ showUnsigned (Z.abs z).
Proof.
  unfold showInt. rewrite list_ascii_of_string_of_list_ascii.
  destruct (z <? 0) eqn:E; zbool; simpl.
  - by rewrite Z.abs_neq by lia.
  - by rewrite Z.abs_eq by lia.
Qed.

Lemma cpFileName_form pgId i :
  0 ≤ pgId →
  cpFileName pgId i
  = cpFormName (showUnsigned pgId) (if i <? 0 then MinusSign else NoSign)
      (showUnsigned (Z.abs i)).
Proof.
  intros Hpg. unfold cpFileName, cpFormName.
  rewrite <- (string_of_list_ascii_of_string (_ +:+ _)).
  f_equal. rewrite !list_ascii_of_string_app, !showInt_chars.
  destruct (pgId <? 0) eqn:E; [zbool; lia|]. simpl signText at 1.
  rewrite Z.abs_eq by done. by rewrite <- !app_assoc.
Qed.

(** The round trip: the name that [open] writes for a partition group and a
    split index is read back as these two numbers. *)
Lemma checkFileName_cpFileName pgId splitId :
  0 ≤ pgId ≤ UINT32_MAX → INT32_MIN ≤ splitId ≤ INT32_MAX →
  checkFileName (cpFileName pgId splitId) = Some (pgId, splitId).
Proof.
  intros Hpg Hsp. rewrite cpFileName_form by lia.
  destruct (showUnsigned_spec pgId) as (Hne1 & Hds1 & Hv1); [lia|].
  destruct (showUnsigned_spec (Z.abs splitId)) as (Hne2 & Hds2 & Hv2); [lia|].
  rewrite checkFileName_form; try done.
  - rewrite Hv1, Hv2. f_equal. f_equal.
    destruct (splitId <? 0) eqn:E; zbool; simpl; lia.
  - lia.
  - rewrite Hv2. unfold INT32_MIN, INT32_MAX in *.
    destruct (splitId <? 0) eqn:E; zbool; lia.
Qed.

(** C9, as amended.  [checkFileName] accepts exactly the names of
    [acceptedAs]: the prefix [gs_cp_], then, each after optional white
    space, an optionally signed decimal number whose magnitude is at most
    2^32 - 1, the separator ['_'], and an optionally signed decimal number
    in the range of [int32_t], then the extension [.dat]; the numbers
    returned are those written (a partition group written with a minus sign
    is negated modulo 2^32).  Among them is every name of the form
    [gs_cp_<uint>_<int>.dat] whose numbers are in range, so the name
    written for a valid pair is read back as that pair;
    ["gs_cp_17_3.dat"] gives (17, 3), and ["gs_cp_17.dat"] and
    ["gs_cp_17_3.dat.bak"] are refused. *)
Theorem checkFileName_accepts_and_round_trips :
  (∀ name pgId splitId,
     checkFileName name = Some (pgId, splitId) ↔ acceptedAs name pgId splitId)
  ∧ (∀ ds1 sg ds2,
       ds1 ≠ [] → ds2 ≠ [] → Forall isDigit ds1 → Forall isDigit ds2 →
       digitsValue ds1 0 ≤ UINT32_MAX →
       digitsValue ds2 0
       ≤ (if sg is MinusSign then - INT32_MIN else INT32_MAX) →
       checkFileName (cpFormName ds1 sg ds2)
       = Some (digitsValue ds1 0, signedValue sg (digitsValue ds2 0)))
  ∧ (∀ pgId splitId,
       0 ≤ pgId ≤ UINT32_MAX → INT32_MIN ≤ splitId ≤ INT32_MAX →
       checkFileName (cpFileName pgId splitId) = Some (pgId, splitId))
  ∧ checkFileName "gs_cp_17_3.dat" = Some (17, 3)
  ∧ checkFileName "gs_cp_17.dat" = None
  ∧ checkFileName "gs_cp_17_3.dat.bak" = None.
Proof.
  split; [|split; [|split; [|split; [|split]]]].
  - intros name pgId splitId. split.
    + apply checkFileName_accepted.
    + apply checkFileName_accepts.
  - apply checkFileName_form.
  - apply checkFileName_cpFileName.
  - by vm_compute.
  - by vm_compute.
  - by vm_compute.
Qed.

(** C9, the claim as stated fails: a name with a blank before the partition
    group is accepted, and it is not of the form
    [gs_cp_<uint>_<int>.dat]. *)
Lemma checkFileName_accepts_leading_space :
  checkFileName "gs_cp_ 17_3.dat" = Some (17, 3)
  ∧ ¬ cpForm "gs_cp_ 17_3.dat".
Proof.
  split; [by vm_compute|].
  intros (ds1 & sg & ds2 & Hne1 & _ & Hds1 & _ & Heq).
  apply (f_equal list_ascii_of_string) in Heq.
  unfold cpFormName in Heq. rewrite list_ascii_of_string_of_list_ascii in Heq.
  simpl in Heq. destruct ds1 as [|c ds1]; [done|].
  simpl in Heq. injection Heq as <- _.
  inversion Hds1 as [|? ? [d Hd] _]; subst. by vm_compute in Hd.
Qed.

(** A partition group written with a minus sign is accepted too. *)
Example checkFileName_accepts_minus_sign :
  checkFileName "gs_cp_-17_3.dat" = Some (4294967279, 3).
Proof. by vm_compute. Qed.

(** A number that [uint32_t] cannot hold is refused. *)
Example checkFileName_refuses_overflow :
  checkFileName "gs_cp_4294967296_0.dat" = None.
Proof. by vm_compute. Qed.

(** C8, the claim as stated fails: on the newly opened store, whose arrays
    both hold two bits, [setValidBlockInfo(5, true)] leaves the valid array
    with six bits and the used array with two. *)
Lemma setValid_leaves_valid_longer :
  sameLength (fst exampleOpened)
  ∧ BitArray.length
      (usedChunkInfo_ (setValidBlockInfo 5 true (fst exampleOpened))) = 2
  ∧ BitArray.length
      (validChunkInfo_ (setValidBlockInfo 5 true (fst exampleOpened))) = 6.
Proof. by vm_compute. Qed.

(** ** The properties at work on the example store *)

Lemma freeCount_counts_false_bits_witness :
  freeUseBitNum_
    (@runAlloc exampleConstants [Allocate; Allocate; Free 0; Allocate]
       (fst exampleOpened))
  = BitArray.countFalse
      (usedChunkInfo_
         (@runAlloc exampleConstants [Allocate; Allocate; Free 0; Allocate]
            (fst exampleOpened))).
Proof.
  apply (@freeCount_counts_false_bits exampleConstants).
  - split; by vm_compute.
  - by vm_compute.
  - by vm_compute.
Defined.

Lemma allocate_returns_used_block_once_witness :
  (0 ≤ 0 < BitArray.length
             (usedChunkInfo_
                (fst (@allocateBlock exampleConstants (fst exampleOpened))))
   ∧ BitArray.get
       (usedChunkInfo_
          (fst (@allocateBlock exampleConstants (fst exampleOpened)))) 0
     = true)
  ∧ Free 0 ∈ [Allocate; Free 0].
Proof.
  pose proof (@allocate_returns_used_block_once exampleConstants
                (fst exampleOpened)
                (fst (@allocateBlock exampleConstants (fst exampleOpened)))
                (fst (@allocateBlock exampleConstants
                        (@runAlloc exampleConstants [Allocate; Free 0]
                           (fst (@allocateBlock exampleConstants
                                   (fst exampleOpened))))))
                0 0 [Allocate; Free 0]) as Hthm.
  destruct Hthm as [Hused Honce].
  - split; by vm_compute.
  - by vm_compute.
  - by vm_compute.
  - split; [exact Hused|]. apply Honce; by vm_compute.
Defined.

Lemma zerofill_punches_each_unused_block_witness :
  zerofillUnusedBlock (λ _, true) exampleWritten
  = ((fst exampleWritten,
      addPunches (punchOf (fst exampleWritten)
                    <$> unusedBlocks (fst exampleWritten))
        (snd exampleWritten)), inr tt)
  ∧ unusedBlocks (fst exampleWritten) = [1; 3].
Proof.
  split; [|by vm_compute].
  assert (∀ b, b ∈ unusedBlocks (fst exampleWritten) →
               punchable (fst exampleWritten) (snd exampleWritten) b
               ∧ true = true) as Hfile.
  { intros b _. split; [|done].
    exists (openedHandle "/tmp/t1/gs_cp_0_1.dat" false), (4 * 65536)%N.
    repeat split; by vm_compute. }
  destruct (zerofill_punches_each_unused_block (λ _, true)
              (fst exampleWritten) (snd exampleWritten)) as (Hrun & _).
  - split; by vm_compute.
  - by vm_compute.
  - rewrite <- surjective_pairing in Hrun. exact (Hrun Hfile).
Defined.

Lemma truncate_resets_cursor_keeps_counters_witness :
  freeBlockSearchCursor_ (fst (fst (truncate exampleWritten))) = 0
  ∧ writeBlockCount_ (counters (fst (fst (truncate exampleWritten))))
    = writeBlockCount_ (counters (fst exampleWritten)).
Proof.
  destruct (truncate_resets_cursor_keeps_counters exampleWritten
              (fst (truncate exampleWritten)))
    as (Hc & _ & _ & _ & Hw & _).
  - by vm_compute.
  - by split.
Defined.

Lemma bitmap_lengths_stay_equal_witness :
  sameLength
    (fst (@runOps exampleConstants
            [OpAllocate; OpWrite 1 0 (IoDone 0); OpFree 0; OpSetValid 0 true;
             OpSetUsed 1 true; OpRead 1 0 (IoDone 0); OpTruncate;
             OpAllocate]
            exampleOpened)).
Proof.
  apply (@bitmap_lengths_stay_equal exampleConstants).
  - by vm_compute.
  - split; by vm_compute.
  - vm_compute. repeat split; done.
Defined.

Lemma open_new_store_bitmaps_witness :
  totalBlocks (fst (fst (open true false (exampleNew, exampleOSWithFile))))
    exampleOSWithFile = 4
  ∧ usedChunkInfo_ (fst (fst (open true false (exampleNew, exampleOSWithFile))))
    = replicate 6 false
  ∧ validChunkInfo_
      (fst (fst (open true false (exampleNew, exampleOSWithFile))))
    = replicate 6 false
  ∧ freeUseBitNum_ (fst (fst (open true false (exampleNew, exampleOSWithFile))))
    = 6
  ∧ freeBlockSearchCursor_
      (fst (fst (open true false (exampleNew, exampleOSWithFile))))
    = 0.
Proof.
  split; [by vm_compute|].
  destruct (@open_new_store_bitmaps exampleConstants 16 "/tmp/t1" 0 0 0 []
              exampleOSWithFile exampleOSWithFile exampleNew
              (fst (fst (open true false (exampleNew, exampleOSWithFile))))
              true false false)
    as (_ & _ & Hu & Hv & _ & _ & Hf & Hc & _).
  - reflexivity.
  - by vm_compute.
  - split; by vm_compute.
  - intros path size. simpl. intros Hnode.
    apply lookup_insert_Some in Hnode as [[_ [=]]|[_ Hnode]].
    apply lookup_singleton_Some in Hnode as [_ [= <-]]. by vm_compute.
  - by vm_compute.
  - split; [exact Hu|]. split; [exact Hv|]. split; [exact Hf|exact Hc].
Defined.

Lemma checkFileName_accepts_and_round_trips_witness :
  checkFileName (cpFileName 17 3) = Some (17, 3)
  ∧ checkFileName (cpFileName 4294967295 (-2147483648))
    = Some (4294967295, -2147483648).
Proof.
  destruct checkFileName_accepts_and_round_trips as (_ & _ & Hround & _).
  split; apply Hround; by vm_compute.
Defined.

(** * Further properties of the code *)

(** ** The allocator *)

Lemma BitArray_set_set (a : BitArray.t) pos v :
  0 ≤ pos → BitArray.set (BitArray.set a pos v) pos v = BitArray.set a pos v.
Proof.
  intros Hpos.
  destruct (decide (pos < BitArray.length a)) as [Hin|Hout].
  - unfold BitArray.set at 1.
    rewrite BitArray_length_set_in by done.
    destruct (pos <? BitArray.length a) eqn:E; [|lia].
    unfold BitArray.set. rewrite E. apply list_insert_insert_eq.
  - unfold BitArray.set at 1.
    rewrite BitArray_length_set_out by lia.
    destruct (pos <? pos + 1) eqn:E; [|lia].
    apply list_insert_id.
    pose proof (BitArray_get_set_eq a pos v Hpos) as Hget.
    rewrite BitArray_get_in in Hget
      by (rewrite BitArray_length_set_out; lia).
    destruct (BitArray.set a pos v !! Z.to_nat pos) as [x|] eqn:Hx.
    + simpl in Hget. by subst.
    + apply lookup_ge_None in Hx.
      pose proof (BitArray_length_set_out a pos v ltac:(lia)) as Hl.
      unfold BitArray.length in Hl. lia.
Qed.

Section AllocatorMore.
Context `{HeaderConstants}.

(** [setUsedBlockInfo] and [allocateBlock] work on the two arrays, the
    count and the cursor. *)
Lemma setUsedBlockInfo_others blockNo flag cf :
  config (setUsedBlockInfo blockNo flag cf) = config cf
  ∧ blockNum_ (setUsedBlockInfo blockNo flag cf) = blockNum_ cf
  ∧ fileSet (setUsedBlockInfo blockNo flag cf) = fileSet cf
  ∧ counters (setUsedBlockInfo blockNo flag cf) = counters cf.
Proof.
  unfold setUsedBlockInfo.
  destruct flag, (BitArray.get (usedChunkInfo_ cf) blockNo); done.
Qed.

Lemma allocateBlock_others cf :
  config (fst (allocateBlock cf)) = config cf
  ∧ blockNum_ (fst (allocateBlock cf)) = blockNum_ cf
  ∧ fileSet (fst (allocateBlock cf)) = fileSet cf
  ∧ counters (fst (allocateBlock cf)) = counters cf.
Proof.
  unfold allocateBlock.
  destruct (0 <? freeUseBitNum_ cf);
    [destruct (searchFromCursor _ _) as [[ap p] c]; destruct (ap =? -1)|];
    simpl;
    match goal with
    | |- context [setUsedBlockInfo ?b ?f ?c] =>
        destruct (setUsedBlockInfo_others b f c) as (-> & -> & -> & ->)
    end; done.
Qed.

End AllocatorMore.

(** ** The allocator, block by block *)

Section AllocatorSearch.
Context `{HeaderConstants}.

(** X1.  [allocateBlock] changes the block it returns and no other: the
    used bit and the valid bit of every other block read as before, and the
    configuration, the block count, the files and the counters are
    untouched.  The cursor lies in the array, which holds fewer than 2^63
    bits. *)
Theorem allocateBlock_changes_one_block cf cf' b :
  cursorOk cf →
  BitArray.length (usedChunkInfo_ cf) < 2 ^ 63 →
  allocateBlock cf = (cf', b) →
  (∀ p, p ≠ b →
        getUsedBlockInfo p cf' = getUsedBlockInfo p cf
        ∧ getValidBlockInfo p cf' = getValidBlockInfo p cf)
  ∧ config cf' = config cf
  ∧ blockNum_ cf' = blockNum_ cf
  ∧ fileSet cf' = fileSet cf
  ∧ counters cf' = counters cf.
Proof.
  intros Hc Hlen Hrun.
  pose proof (allocateBlock_others cf) as Hothers.
  rewrite Hrun in Hothers. simpl in Hothers.
  split; [|done].
  apply allocateBlock_allocated in Hrun; [|done..].
  pose proof (BitArray_length_nonneg (usedChunkInfo_ cf)) as Hnn.
  intros p Hp. unfold getUsedBlockInfo, getValidBlockInfo.
  destruct Hrun as [Hf Hb Hg Hu Hv Hfree Hcur | -> Hu Hv Hfree Hcur];
    rewrite Hu, Hv.
  - split; [|done]. apply BitArray_get_set_ne; [lia|done].
  - split.
    + destruct (decide (p < BitArray.length (usedChunkInfo_ cf))) as [Hin|Hout].
      * by apply BitArray_get_app_l.
      * rewrite !BitArray_get_out; [done|lia|].
        unfold BitArray.length in *. rewrite length_app. simpl. lia.
    + apply BitArray_get_set_ne; [lia|done].
Qed.

Lemma searchFree_finds u n pos count p :
  0 ≤ pos ≤ p → p < pos + Z.of_nat n → p < 2 ^ 63 →
  (∀ q, pos ≤ q < p → BitArray.get u q = true) →
  BitArray.get u p = false →
  count + (p - pos) ≤ ALLOCATE_BLOCK_SEARCH_LIMIT + 1 →
  searchFree u n pos count = (p, p, count + (p - pos)).
Proof.
  revert pos count.
  induction n as [|n IH]; intros pos count Hpos Hn Hp Hset Hclear Hlimit;
    [lia|].
  simpl. destruct (decide (pos = p)) as [->|Hne].
  - rewrite Hclear. simpl. rewrite to_int64_small by lia.
    repeat (f_equal; try lia).
  - rewrite Hset by lia. simpl.
    destruct (ALLOCATE_BLOCK_SEARCH_LIMIT <? count) eqn:E; [zbool; lia|].
    rewrite wrap64_small by lia.
    rewrite IH; [|lia..| |done|lia].
    + repeat (f_equal; try lia).
    + intros q Hq. apply Hset. lia.
Qed.

Lemma searchFree_exhausts u n pos count :
  0 ≤ pos → pos + Z.of_nat n < 2 ^ 63 →
  (∀ q, pos ≤ q < pos + Z.of_nat n → BitArray.get u q = true) →
  count + Z.of_nat n ≤ ALLOCATE_BLOCK_SEARCH_LIMIT + 1 →
  searchFree u n pos count = (-1, pos + Z.of_nat n, count + Z.of_nat n).
Proof.
  revert pos count.
  induction n as [|n IH]; intros pos count Hpos Hn Hset Hlimit; simpl.
  - repeat (f_equal; try lia).
  - rewrite Hset by lia. simpl.
    destruct (ALLOCATE_BLOCK_SEARCH_LIMIT <? count) eqn:E; [zbool; lia|].
    rewrite wrap64_small by lia.
    rewrite IH; [|lia..| |lia].
    + repeat (f_equal; try lia).
    + intros q Hq. apply Hset. lia.
Qed.

(** What [allocateBlock] leaves when the search ends at the clear bit [p]. *)
Lemma allocateBlock_found cf p count :
  0 < freeUseBitNum_ cf →
  0 ≤ p < BitArray.length (usedChunkInfo_ cf) →
  BitArray.length (usedChunkInfo_ cf) < 2 ^ 63 →
  searchFromCursor (usedChunkInfo_ cf) (freeBlockSearchCursor_ cf)
  = (p, p, count) →
  snd (allocateBlock cf) = p
  ∧ usedChunkInfo_ (fst (allocateBlock cf))
    = BitArray.set (usedChunkInfo_ cf) p true
  ∧ freeBlockSearchCursor_ (fst (allocateBlock cf))
    = (if p + 1 <? BitArray.length (usedChunkInfo_ cf) then p + 1 else 0).
Proof.
  intros Hfree Hp Hlen Hsearch. unfold allocateBlock.
  destruct (0 <? freeUseBitNum_ cf) eqn:E; [|zbool; lia].
  rewrite Hsearch. destruct (p =? -1) eqn:E1; [zbool; lia|].
  simpl. split; [done|].
  rewrite setUsedBlockInfo_used, setUsedBlockInfo_cursor. simpl.
  rewrite !wrap64_small by lia. split; [done|].
  destruct (BitArray.length (usedChunkInfo_ cf) <=? p + 1) eqn:E2,
    (p + 1 <? BitArray.length (usedChunkInfo_ cf)) eqn:E3; zbool; lia.
Qed.

(** X2.  First fit from the cursor: when a block is counted free and [p] is
    the first clear bit at or after the cursor, at most
    [ALLOCATE_BLOCK_SEARCH_LIMIT + 1] positions away, [allocateBlock]
    returns [p], sets its bit, and moves the cursor to [p + 1], or to 0 when
    [p] is the last bit. *)
Theorem allocateBlock_first_fit cf p :
  0 < freeUseBitNum_ cf →
  0 ≤ freeBlockSearchCursor_ cf ≤ p →
  p < BitArray.length (usedChunkInfo_ cf) →
  BitArray.length (usedChunkInfo_ cf) < 2 ^ 63 →
  (∀ q, freeBlockSearchCursor_ cf ≤ q < p → getUsedBlockInfo q cf = true) →
  getUsedBlockInfo p cf = false →
  p - freeBlockSearchCursor_ cf ≤ ALLOCATE_BLOCK_SEARCH_LIMIT + 1 →
  snd (allocateBlock cf) = p
  ∧ usedChunkInfo_ (fst (allocateBlock cf))
    = BitArray.set (usedChunkInfo_ cf) p true
  ∧ freeBlockSearchCursor_ (fst (allocateBlock cf))
    = (if p + 1 <? BitArray.length (usedChunkInfo_ cf) then p + 1 else 0).
Proof.
  intros Hfree Hc Hp Hlen Hset Hclear Hlimit.
  apply (allocateBlock_found cf p (0 + (p - freeBlockSearchCursor_ cf)));
    [done|lia|done|].
  unfold searchFromCursor.
  rewrite (searchFree_finds _ _ _ _ p); [|lia..|done|done|lia].
  destruct (p =? -1) eqn:E; [zbool; lia|]. done.
Qed.

(** X3.  The search wraps around: when every bit from the cursor to the end
    is set, these are at most [ALLOCATE_BLOCK_SEARCH_LIMIT] bits, and [p] is
    the first clear bit from 0, below the cursor and within the limit
    counted over both parts, [allocateBlock] returns [p]. *)
Theorem allocateBlock_wraps_around cf p :
  0 < freeUseBitNum_ cf →
  0 ≤ p < freeBlockSearchCursor_ cf →
  freeBlockSearchCursor_ cf ≤ BitArray.length (usedChunkInfo_ cf) →
  BitArray.length (usedChunkInfo_ cf) < 2 ^ 63 →
  (∀ q, freeBlockSearchCursor_ cf ≤ q < BitArray.length (usedChunkInfo_ cf) →
        getUsedBlockInfo q cf = true) →
  (∀ q, 0 ≤ q < p → getUsedBlockInfo q cf = true) →
  getUsedBlockInfo p cf = false →
  BitArray.length (usedChunkInfo_ cf) - freeBlockSearchCursor_ cf
  ≤ ALLOCATE_BLOCK_SEARCH_LIMIT →
  BitArray.length (usedChunkInfo_ cf) - freeBlockSearchCursor_ cf + p
  ≤ ALLOCATE_BLOCK_SEARCH_LIMIT + 1 →
  snd (allocateBlock cf) = p
  ∧ usedChunkInfo_ (fst (allocateBlock cf))
    = BitArray.set (usedChunkInfo_ cf) p true
  ∧ freeBlockSearchCursor_ (fst (allocateBlock cf))
    = (if p + 1 <? BitArray.length (usedChunkInfo_ cf) then p + 1 else 0).
Proof.
  intros Hfree Hp Hc Hlen Htail Hhead Hclear Hlimit1 Hlimit2.
  set (len := BitArray.length (usedChunkInfo_ cf)) in *.
  set (cur := freeBlockSearchCursor_ cf) in *.
  apply (allocateBlock_found cf p (0 + Z.of_nat (Z.to_nat (len - cur)) + (p - 0)));
    [done|lia|done|].
  unfold searchFromCursor. fold len cur.
  rewrite searchFree_exhausts; [|lia|lia| |lia].
  - simpl.
    destruct (0 + Z.of_nat (Z.to_nat (len - cur))
              <=? ALLOCATE_BLOCK_SEARCH_LIMIT) eqn:E; [|zbool; lia].
    rewrite (searchFree_finds _ _ _ _ p); [done|lia..|done|done|lia].
  - intros q Hq. apply Htail. lia.
Qed.

(** X4.  Storing the same used flag twice changes nothing the second time:
    a block freed twice is counted free once. *)
Theorem setUsedBlockInfo_twice blockNo flag cf :
  0 ≤ blockNo →
  setUsedBlockInfo blockNo flag (setUsedBlockInfo blockNo flag cf)
  = setUsedBlockInfo blockNo flag cf.
Proof.
  intros Hb.
  pose proof (setUsedBlockInfo_used blockNo flag cf) as Hu.
  pose proof (BitArray_get_set_eq (usedChunkInfo_ cf) blockNo flag Hb) as Hg.
  rewrite <- Hu in Hg.
  pose proof (BitArray_set_set (usedChunkInfo_ cf) blockNo flag Hb) as Hss.
  rewrite <- Hu in Hss.
  destruct (setUsedBlockInfo blockNo flag cf) as [c u v n f cur fs k].
  simpl in *. unfold setUsedBlockInfo. simpl. rewrite Hg, Hss.
  by destruct flag.
Qed.

End AllocatorSearch.

(** ** The capped search *)

Section ScanResults.
Context `{HeaderConstants}.

(** A loop of the search that meets set bits only ends without a block:
    at the end of its range when the count stays within the limit, at the
    limit otherwise. *)
Lemma searchFree_misses u n pos count :
  0 ≤ pos → pos + Z.of_nat n < 2 ^ 63 →
  count ≤ ALLOCATE_BLOCK_SEARCH_LIMIT + 1 →
  (∀ q, pos ≤ q < pos + Z.of_nat n →
        count + (q - pos) ≤ ALLOCATE_BLOCK_SEARCH_LIMIT + 1 →
        BitArray.get u q = true) →
  ∃ p c,
    searchFree u n pos count = (-1, p, c)
    ∧ (count + Z.of_nat n ≤ ALLOCATE_BLOCK_SEARCH_LIMIT + 1 →
       c = count + Z.of_nat n)
    ∧ (ALLOCATE_BLOCK_SEARCH_LIMIT + 1 < count + Z.of_nat n →
       c = ALLOCATE_BLOCK_SEARCH_LIMIT + 1).
Proof.
  revert pos count. induction n as [|n IH]; intros pos count Hpos Hend Hc Hset.
  - exists pos, count. simpl. split; [done|]. split; lia.
  - simpl. rewrite (Hset pos) by lia. simpl.
    destruct (ALLOCATE_BLOCK_SEARCH_LIMIT <? count) eqn:E; zbool.
    + exists pos, count. split; [done|]. split; lia.
    + rewrite wrap64_small by lia.
      destruct (IH (pos + 1) (count + 1)) as (p & c & Hrun & Hin & Hout);
        [lia..| |].
      * intros q Hq Hcount. apply Hset; lia.
      * exists p, c. split; [done|]. split; lia.
Qed.

Lemma searchFromCursor_misses u cursor :
  0 ≤ ALLOCATE_BLOCK_SEARCH_LIMIT →
  0 ≤ cursor ≤ BitArray.length u →
  BitArray.length u < 2 ^ 63 →
  forallb (BitArray.get u) (scanWindow u cursor) = true →
  (searchFromCursor u cursor).1.1 = -1.
Proof.
  intros Hlimit Hc Hlen Hset.
  assert (∀ q, q ∈ scanWindow u cursor → BitArray.get u q = true) as Hw.
  { intros q Hq. rewrite forallb_forall in Hset. apply Hset.
    by apply list_elem_of_In. }
  clear Hset. unfold scanWindow in Hw.
  set (n := BitArray.length u - cursor) in *.
  unfold searchFromCursor. fold n.
  destruct (searchFree_misses u (Z.to_nat n) cursor 0)
    as (p & c & Hrun & Hin & Hout); [lia..| |].
  { intros q Hq Hcount. apply Hw. apply elem_of_app. left.
    apply elem_of_seqZ. lia. }
  rewrite Hrun. simpl.
  destruct (c <=? ALLOCATE_BLOCK_SEARCH_LIMIT) eqn:E; zbool; [|done].
  assert (c = n) as -> by lia.
  destruct (searchFree_misses u (Z.to_nat cursor) 0 n)
    as (p' & c' & Hrun' & _); [lia..| |].
  { intros q Hq Hcount. apply Hw. apply elem_of_app. right.
    destruct (n <=? ALLOCATE_BLOCK_SEARCH_LIMIT) eqn:E'; zbool; [|lia].
    apply elem_of_seqZ. lia. }
  by rewrite Hrun'.
Qed.

Lemma scanWindow_length u cursor :
  0 ≤ ALLOCATE_BLOCK_SEARCH_LIMIT →
  0 ≤ cursor ≤ BitArray.length u →
  Z.of_nat (length (scanWindow u cursor)) ≤ ALLOCATE_BLOCK_SEARCH_LIMIT + 2.
Proof.
  intros Hlimit Hc. unfold scanWindow.
  set (n := BitArray.length u - cursor).
  rewrite length_app, length_seqZ.
  destruct (n <=? ALLOCATE_BLOCK_SEARCH_LIMIT) eqn:E; zbool.
  - rewrite length_seqZ. lia.
  - simpl. lia.
Qed.

(** C5, as amended.  The search of [allocateBlock] is capped.  With the
    limit at 1024, from 2000 set bits followed by one clear bit at position
    2000, the cursor at 0 and one free block counted, [allocateBlock]
    appends and returns 2001.  In general, when no block is counted free,
    or every position of [scanWindow] holds a set bit (the
    [ALLOCATE_BLOCK_SEARCH_LIMIT + 2] positions from the cursor, or the
    positions from the cursor to the end and then from 0, as far as the
    count allows), [allocateBlock] appends [true] to the used array at the
    new index [p], leaves the valid bit of [p] clear and returns [p].  The
    window holds [ALLOCATE_BLOCK_SEARCH_LIMIT + 2] positions at most, and
    its last position counts: a clear bit [ALLOCATE_BLOCK_SEARCH_LIMIT + 1]
    positions after the cursor, behind set bits, is found and returned. *)
Theorem allocate_scan_is_capped (cf : CheckpointFile) :
  (ALLOCATE_BLOCK_SEARCH_LIMIT = 1024 →
   usedChunkInfo_ cf = replicate 2000 true ++ [false] →
   freeBlockSearchCursor_ cf = 0 →
   freeUseBitNum_ cf = 1 →
   snd (allocateBlock cf) = 2001
   ∧ usedChunkInfo_ (fst (allocateBlock cf))
     = replicate 2000 true ++ [false; true]
   ∧ BitArray.get (validChunkInfo_ (fst (allocateBlock cf))) 2001 = false)
  ∧ (BitArray.length (usedChunkInfo_ cf) < 2 ^ 63 →
     freeUseBitNum_ cf = 0
     ∨ (0 ≤ ALLOCATE_BLOCK_SEARCH_LIMIT
        ∧ cursorOk cf
        ∧ forallb (BitArray.get (usedChunkInfo_ cf))
            (scanWindow (usedChunkInfo_ cf) (freeBlockSearchCursor_ cf))
          = true) →
     let p := BitArray.length (usedChunkInfo_ cf) in
     snd (allocateBlock cf) = p
     ∧ usedChunkInfo_ (fst (allocateBlock cf)) = usedChunkInfo_ cf ++ [true]
     ∧ BitArray.get (validChunkInfo_ (fst (allocateBlock cf))) p = false)
  ∧ (0 ≤ ALLOCATE_BLOCK_SEARCH_LIMIT → cursorOk cf →
     Z.of_nat (length (scanWindow (usedChunkInfo_ cf)
                         (freeBlockSearchCursor_ cf)))
     ≤ ALLOCATE_BLOCK_SEARCH_LIMIT + 2)
  ∧ (let p := freeBlockSearchCursor_ cf + ALLOCATE_BLOCK_SEARCH_LIMIT + 1 in
     0 ≤ ALLOCATE_BLOCK_SEARCH_LIMIT →
     0 < freeUseBitNum_ cf →
     0 ≤ freeBlockSearchCursor_ cf →
     p < BitArray.length (usedChunkInfo_ cf) < 2 ^ 63 →
     (∀ q, freeBlockSearchCursor_ cf ≤ q < p →
           BitArray.get (usedChunkInfo_ cf) q = true) →
     BitArray.get (usedChunkInfo_ cf) p = false →
     snd (allocateBlock cf) = p
     ∧ usedChunkInfo_ (fst (allocateBlock cf))
       = BitArray.set (usedChunkInfo_ cf) p true).
Proof.
  split; [|split; [|split]].
  - intros Hlimit Hu Hc Hf.
    assert ((searchFromCursor (usedChunkInfo_ cf)
               (freeBlockSearchCursor_ cf)).1.1 = -1) as Hs.
    { rewrite Hu, Hc. unfold searchFromCursor.
      destruct H as [limit ? ? ?]. simpl in Hlimit. subst limit.
      by vm_compute. }
    assert (BitArray.length (usedChunkInfo_ cf) = 2001) as Hlen
      by (by rewrite Hu).
    destruct (allocateBlock_append cf) as (Hp & Hu' & Hv); [lia|by right|].
    rewrite Hlen in Hp, Hv. rewrite Hu' , Hu, <- app_assoc. done.
  - intros Hlen [Hfree|(Hlimit & Hc & Hset)].
    + apply allocateBlock_append; [done|by left].
    + apply allocateBlock_append; [done|]. right.
      by apply searchFromCursor_misses.
  - intros Hlimit Hc. by apply scanWindow_length.
  - intros p Hlimit Hfree Hc Hp Hset Hclear.
    destruct (allocateBlock_found cf p (0 + (p - freeBlockSearchCursor_ cf)))
      as (Hr & Hu & _); [done|lia|lia| |done].
    unfold searchFromCursor.
    rewrite (searchFree_finds _ _ _ _ p); [|lia..|done|done|lia].
    destruct (p =? -1) eqn:E; [zbool; lia|]. done.
Qed.

End ScanResults.

(** C5, the claim as stated fails: with the limit at 1024, from 1024 set
    bits followed by one clear bit at position 1024, the cursor at 0 and
    one free block counted, no clear bit lies in the window of the spec (the
    1024 positions from the cursor), and [allocateBlock] returns 1024 and
    appends nothing. *)
Lemma allocate_reuses_bit_past_search_limit :
  @ALLOCATE_BLOCK_SEARCH_LIMIT exampleConstants = 1024
  ∧ usedChunkInfo_ exampleFull = replicate 1024 true ++ [false]
  ∧ freeBlockSearchCursor_ exampleFull = 0
  ∧ freeUseBitNum_ exampleFull = 1
  ∧ @specWindow exampleConstants (usedChunkInfo_ exampleFull) 0 = seqZ 0 1024
  ∧ forallb (BitArray.get (usedChunkInfo_ exampleFull))
      (@specWindow exampleConstants (usedChunkInfo_ exampleFull) 0) = true
  ∧ snd (@allocateBlock exampleConstants exampleFull) = 1024
  ∧ usedChunkInfo_ (fst (@allocateBlock exampleConstants exampleFull))
    = replicate 1025 true
  ∧ BitArray.length (usedChunkInfo_ exampleFull) = 1025.
Proof. by vm_compute. Qed.

Lemma BitArray_countFalse_set_out (a : BitArray.t) pos v :
  BitArray.length a ≤ pos →
  BitArray.countFalse (BitArray.set a pos v)
  = BitArray.countFalse a + (pos - BitArray.length a)
    + (if v then 0 else 1).
Proof.
  intros Hp. unfold BitArray.set.
  destruct (pos <? BitArray.length a) eqn:E; [zbool; lia|].
  rewrite !BitArray_countFalse_app, BitArray_countFalse_replicate_false,
    BitArray_countFalse_cons.
  change (BitArray.countFalse []) with 0.
  unfold BitArray.length in *. destruct v; lia.
Qed.

Lemma fold_append_false {A} (l : list A) (a : BitArray.t) :
  fold_left (λ a _, fst (BitArray.append a false)) l a
  = a ++ replicate (length l) false.
Proof.
  revert a. induction l as [|x l IH]; intros a; simpl.
  - by rewrite app_nil_r.
  - rewrite IH. rewrite <- app_assoc. done.
Qed.

Section AllocatorBounds.
Context `{HeaderConstants}.

(** X5.  [setUsedBlockInfo] beyond the end of the array grows it to
    [blockNo + 1] bits and does not count the clear bits it adds.  The flag
    [false] leaves [freeUseBitNum_] as it is, and the flag [true] takes one
    from it, modulo 2^64.  From an exact count, [freeUseBitNum_] ends
    [blockNo - length + 1] below the number of clear bits when the flag is
    [false] or a block was counted free; with the flag [true] and a count
    of 0, against the assertion of the code, the count wraps to
    2^64 - 1. *)
Theorem setUsedBlockInfo_beyond_end blockNo flag cf :
  freeUseBitNum_ cf = BitArray.countFalse (usedChunkInfo_ cf) →
  BitArray.length (usedChunkInfo_ cf) ≤ blockNo < 2 ^ 64 →
  BitArray.length (usedChunkInfo_ (setUsedBlockInfo blockNo flag cf))
  = blockNo + 1
  ∧ BitArray.countFalse (usedChunkInfo_ (setUsedBlockInfo blockNo flag cf))
    = BitArray.countFalse (usedChunkInfo_ cf)
      + (blockNo - BitArray.length (usedChunkInfo_ cf))
      + (if flag then 0 else 1)
  ∧ freeUseBitNum_ (setUsedBlockInfo blockNo flag cf)
    = (if flag then wrap64 (freeUseBitNum_ cf - 1) else freeUseBitNum_ cf)
  ∧ (flag = false ∨ 0 < freeUseBitNum_ cf →
     BitArray.countFalse (usedChunkInfo_ (setUsedBlockInfo blockNo flag cf))
     - freeUseBitNum_ (setUsedBlockInfo blockNo flag cf)
     = blockNo - BitArray.length (usedChunkInfo_ cf) + 1)
  ∧ (flag = true → freeUseBitNum_ cf = 0 →
     freeUseBitNum_ (setUsedBlockInfo blockNo flag cf) = 2 ^ 64 - 1).
Proof.
  intros Hcount Hb.
  rewrite setUsedBlockInfo_used, setUsedBlockInfo_free.
  rewrite BitArray_length_set_out, BitArray_countFalse_set_out by lia.
  rewrite BitArray_get_out by lia.
  pose proof (BitArray_countFalse_bounds (usedChunkInfo_ cf)) as Hbounds.
  split; [done|]. split; [done|].
  destruct flag; simpl.
  - split; [done|]. split.
    + intros [?|Hpos]; [done|]. rewrite wrap64_small by lia. lia.
    + intros _ ->. done.
  - split; [done|]. split; [lia|done].
Qed.

(** X6.  [initializeUsedBlockInfo] leaves [blockNum_] clear bits and an
    exact count, and keeps the cursor; [initializeValidBlockInfo] leaves
    [blockNum_] clear bits; after both, the two arrays have the same
    length. *)
Theorem initialize_block_info cf :
  0 ≤ blockNum_ cf →
  usedChunkInfo_ (initializeUsedBlockInfo cf)
  = replicate (Z.to_nat (blockNum_ cf)) false
  ∧ freeUseBitNum_ (initializeUsedBlockInfo cf)
    = BitArray.countFalse (usedChunkInfo_ (initializeUsedBlockInfo cf))
  ∧ freeBlockSearchCursor_ (initializeUsedBlockInfo cf)
    = freeBlockSearchCursor_ cf
  ∧ validChunkInfo_ (initializeValidBlockInfo cf)
    = replicate (Z.to_nat (blockNum_ cf)) false
  ∧ sameLength (initializeValidBlockInfo (initializeUsedBlockInfo cf)).
Proof.
  intros Hn.
  assert (usedChunkInfo_ (initializeUsedBlockInfo cf)
          = replicate (Z.to_nat (blockNum_ cf)) false) as Hu.
  { unfold initializeUsedBlockInfo. simpl.
    by rewrite fold_append_false, length_seqZ. }
  assert (∀ c, validChunkInfo_ (initializeValidBlockInfo c)
               = replicate (Z.to_nat (blockNum_ c)) false) as Hv.
  { intros c. unfold initializeValidBlockInfo. simpl.
    by rewrite fold_append_false, length_seqZ. }
  split; [done|]. split.
  { rewrite Hu, BitArray_countFalse_replicate_false.
    unfold initializeUsedBlockInfo. simpl. lia. }
  split; [done|]. split; [apply Hv|].
  unfold sameLength. rewrite Hv.
  change (usedChunkInfo_ (initializeValidBlockInfo (initializeUsedBlockInfo cf)))
    with (usedChunkInfo_ (initializeUsedBlockInfo cf)).
  rewrite Hu.
  change (blockNum_ (initializeUsedBlockInfo cf)) with (blockNum_ cf).
  done.
Qed.

End AllocatorBounds.

Lemma allocateBlock_changes_one_block_witness :
  getUsedBlockInfo 1 (fst (@allocateBlock exampleConstants (fst exampleOpened)))
  = getUsedBlockInfo 1 (fst exampleOpened)
  ∧ snd (@allocateBlock exampleConstants (fst exampleOpened)) = 0.
Proof.
  split; [|by vm_compute].
  destruct (@allocateBlock_changes_one_block exampleConstants
              (fst exampleOpened)
              (fst (@allocateBlock exampleConstants (fst exampleOpened))) 0)
    as (Hbits & _).
  - split; by vm_compute.
  - by vm_compute.
  - by vm_compute.
  - apply (Hbits 1). lia.
Defined.

Lemma allocateBlock_first_fit_witness :
  snd (@allocateBlock exampleConstants
         (with_cursor 1
            (with_freeUseBitNum 2
               (with_used [false; true; true; false] exampleNew))))
  = 3.
Proof.
  apply (@allocateBlock_first_fit exampleConstants
           (with_cursor 1
              (with_freeUseBitNum 2
                 (with_used [false; true; true; false] exampleNew))) 3).
  - by vm_compute.
  - split; by vm_compute.
  - by vm_compute.
  - by vm_compute.
  - intros q Hq. simpl in Hq.
    assert (q = 1 ∨ q = 2) as [->| ->] by lia; by vm_compute.
  - by vm_compute.
  - by vm_compute.
Defined.

Lemma allocateBlock_wraps_around_witness :
  snd (@allocateBlock exampleConstants
         (with_cursor 2
            (with_freeUseBitNum 1
               (with_used [true; false; true; true] exampleNew))))
  = 1.
Proof.
  apply (@allocateBlock_wraps_around exampleConstants
           (with_cursor 2
              (with_freeUseBitNum 1
                 (with_used [true; false; true; true] exampleNew))) 1).
  - by vm_compute.
  - split; by vm_compute.
  - by vm_compute.
  - by vm_compute.
  - intros q Hq. simpl in Hq. unfold BitArray.length in Hq. simpl in Hq.
    assert (q = 2 ∨ q = 3) as [->| ->] by lia; by vm_compute.
  - intros q Hq. assert (q = 0) as -> by lia. by vm_compute.
  - by vm_compute.
  - by vm_compute.
  - by vm_compute.
Defined.

Lemma setUsedBlockInfo_twice_witness :
  @setUsedBlockInfo 1 false
    (@setUsedBlockInfo 1 false
       (fst (@allocateBlock exampleConstants (fst exampleOpened))))
  = @setUsedBlockInfo 1 false
      (fst (@allocateBlock exampleConstants (fst exampleOpened))).
Proof. apply setUsedBlockInfo_twice. lia. Defined.

Lemma setUsedBlockInfo_beyond_end_witness :
  BitArray.length (usedChunkInfo_ (setUsedBlockInfo 5 true (fst exampleOpened)))
  = 6
  ∧ BitArray.countFalse
      (usedChunkInfo_ (setUsedBlockInfo 5 true (fst exampleOpened)))
    - freeUseBitNum_ (setUsedBlockInfo 5 true (fst exampleOpened))
    = 4
  ∧ freeUseBitNum_ (setUsedBlockInfo 5 true exampleNew) = 2 ^ 64 - 1.
Proof.
  assert (freeUseBitNum_ (fst exampleOpened)
          = BitArray.countFalse (usedChunkInfo_ (fst exampleOpened))) as Hc
    by (by vm_compute).
  assert (BitArray.length (usedChunkInfo_ (fst exampleOpened)) ≤ 5 < 2 ^ 64)
    as Hb by (split; by vm_compute).
  destruct (setUsedBlockInfo_beyond_end 5 true (fst exampleOpened) Hc Hb)
    as (Hlen & _ & _ & Hdiff & _).
  split; [exact Hlen|]. split.
  - apply Hdiff. right. by vm_compute.
  - by vm_compute.
Defined.

Lemma initialize_block_info_witness :
  usedChunkInfo_ (initializeUsedBlockInfo (fst exampleTwoBlocks))
  = [false; false]
  ∧ sameLength
      (initializeValidBlockInfo (initializeUsedBlockInfo (fst exampleTwoBlocks))).
Proof.
  destruct (initialize_block_info (fst exampleTwoBlocks)) as (Hu & _ & _ & _ & Hs).
  - by vm_compute.
  - split; [exact Hu|exact Hs].
Defined.

(** ** [open], [truncate], [close] and the sizes of the files *)

(** The names that [open] composes are never empty. *)
Lemma string_append_nonempty (s t : string) :
  t ≠ ""%string → (s +:+ t)%string ≠ ""%string.
Proof. intros Ht. destruct s; [done|]. by simpl. Qed.

Lemma cpFileName_nonempty (pgId i : Z) : cpFileName pgId i ≠ ""%string.
Proof. unfold cpFileName, gsCpFileBaseName. by simpl. Qed.

Lemma openFileName_nonempty (cf : CheckpointFile) (i : Z) :
  openFileName cf i ≠ ""%string.
Proof.
  unfold openFileName. destruct (splitMode_ (config cf)).
  - apply string_append_nonempty, string_append_nonempty, cpFileName_nonempty.
  - apply string_append_nonempty, cpFileName_nonempty.
Qed.

Lemma checkDirectory_run path s :
  checkDirectory path s
  = (s, if isDirectory (snd s) path then inr tt
        else inl GS_ERROR_CF_INVALID_DIRECTORY).
Proof.
  unfold checkDirectory, FileSystem_exists, FileSystem_isDirectory, bind,
    getOs, ret, throw, isDirectory.
  simpl. destruct (os_nodes s.2 !! path) as [[|size]|] eqn:E; simpl;
    rewrite ?E; done.
Qed.

Lemma openFile_run checkOnly createMode i cf os :
  openFile checkOnly createMode i (cf, os)
  = if openDirectoryOk cf os i then
      let name := openFileName cf i in
      let cf0 := setFileNameAt i name cf in
      match os_nodes os !! name with
      | Some (File size) =>
          let chunkNum :=
            to_int64 (wrap64 (Z.of_N size + BLOCK_SIZE_ (config cf) - 1)
                      / BLOCK_SIZE_ (config cf)) in
          ((setBlockCountAt i chunkNum
              (setFileAt i (Some (openedHandle name checkOnly))
                 (setFileAt i (Some NamedFile_new) cf0)), os),
           inr chunkNum)
      | Some Dir =>
          ((setFileAt i (Some NamedFile_new) cf0, os),
           inl GS_ERROR_CM_IO_ERROR)
      | None =>
          if checkOnly || negb createMode
          then ((cf0, os), inl GS_ERROR_CM_FILE_NOT_FOUND)
          else
            ((setBlockCountAt i 0
                (setFileAt i (Some (openedHandle name false))
                   (setFileAt i (Some NamedFile_new) cf0)),
              setNode name (File 0) os),
             inr 0)
      end
    else ((cf, os), inl GS_ERROR_CF_INVALID_DIRECTORY).
Proof.
  assert (∀ name, name ≠ ""%string →
    (modifyCf (setFileNameAt i name) ;;;
     ex <- FileSystem_exists name ;;
     if ex : bool then
       modifyCf (setFileAt i (Some NamedFile_new)) ;;;
       f <- NamedFile_open name false false checkOnly ;;
       let f := if checkOnly then f else NamedFile_lock f in
       modifyCf (setFileAt i (Some f)) ;;;
       size <- NamedFile_getSize f ;;
       let chunkNum :=
         to_int64 (wrap64 (size + BLOCK_SIZE_ (config cf) - 1)
                   / BLOCK_SIZE_ (config cf)) in
       modifyCf (setBlockCountAt i chunkNum) ;;;
       ret chunkNum
     else if checkOnly then throw GS_ERROR_CM_FILE_NOT_FOUND
     else if negb createMode then throw GS_ERROR_CM_FILE_NOT_FOUND
     else
       modifyCf (setFileAt i (Some NamedFile_new)) ;;;
       f <- NamedFile_open name true false false ;;
       modifyCf (setFileAt i (Some (NamedFile_lock f))) ;;;
       modifyCf (setBlockCountAt i 0) ;;;
       ret 0) (cf, os)
    = let cf0 := setFileNameAt i name cf in
      match os_nodes os !! name with
      | Some (File size) =>
          let chunkNum :=
            to_int64 (wrap64 (Z.of_N size + BLOCK_SIZE_ (config cf) - 1)
                      / BLOCK_SIZE_ (config cf)) in
          ((setBlockCountAt i chunkNum
              (setFileAt i (Some (openedHandle name checkOnly))
                 (setFileAt i (Some NamedFile_new) cf0)), os),
           inr chunkNum)
      | Some Dir =>
          ((setFileAt i (Some NamedFile_new) cf0, os),
           inl GS_ERROR_CM_IO_ERROR)
      | None =>
          if checkOnly || negb createMode
          then ((cf0, os), inl GS_ERROR_CM_FILE_NOT_FOUND)
          else
            ((setBlockCountAt i 0
                (setFileAt i (Some (openedHandle name false))
                   (setFileAt i (Some NamedFile_new) cf0)),
              setNode name (File 0) os),
             inr 0)
      end) as Hbody.
  { intros name Hname.
    cbv [bind modifyCf FileSystem_exists NamedFile_open NamedFile_getSize
         getOs getCf modifyOs ret throw].
    simpl.
    destruct (os_nodes os !! name) as [[|size]|] eqn:Hnode; simpl;
      rewrite ?Hnode; simpl.
    - done.
    - destruct checkOnly; simpl; rewrite ?Hnode; simpl; done.
    - destruct checkOnly; [done|]. destruct createMode; [|done]. simpl.
      rewrite Hnode. simpl. rewrite bool_decide_false by done. done. }
  pose proof (openFileName_nonempty cf i) as Hname.
  unfold openFile. rewrite bind_getCf. simpl fst.
  unfold openDirectoryOk, openDirectory.
  unfold openFileName in *.
  destruct (splitMode_ (config cf)) eqn:Hmode.
  - unfold bind at 1. unfold bind at 1.
    rewrite checkDirectory_run. simpl snd.
    destruct (isDirectory os (dirAt cf i)); [|done].
    unfold ret at 1. by apply Hbody.
  - case_bool_decide as Hdir.
    + unfold bind at 1. unfold bind at 1. unfold ret at 1. unfold ret at 1.
      by apply Hbody.
    + unfold bind at 1. unfold bind at 1. unfold bind at 1.
      rewrite checkDirectory_run. simpl snd.
      destruct (isDirectory os (dir_ (config cf))); [|done].
      unfold ret at 1. unfold ret at 1. by apply Hbody.
Qed.

Lemma isDirectory_addsEmptyFiles os os' path :
  addsEmptyFiles os os' → isDirectory os' path = isDirectory os path.
Proof.
  intros Hadd. unfold isDirectory.
  destruct (Hadd path) as [->|[-> ->]]; done.
Qed.

Lemma open_run checkOnly createMode cf os :
  open checkOnly createMode (cf, os)
  = match openFiles checkOnly createMode
            (seqZ 0 (splitCount_ (config cf))) 0 (cf, os) with
    | (s, inl e) => (s, inl e)
    | ((cf1, os1), inr total) =>
        ((with_cursor 0
            (with_freeUseBitNum
               (BitArray.length
                  (BitArray.set (usedChunkInfo_ cf1) (wrap64 (total + 1))
                     false))
               (with_valid
                  (BitArray.set (validChunkInfo_ cf1) (wrap64 (total + 1))
                     false)
                  (with_used
                     (BitArray.set (usedChunkInfo_ cf1) (wrap64 (total + 1))
                        false)
                     (with_blockNum (wrap64 total) cf1)))), os1),
         inr (total =? 0))
    end.
Proof.
  unfold open. rewrite bind_getCf. simpl fst. unfold bind at 1.
  destruct (openFiles _ _ _ _ _) as [[cf1 os1] [e|total]]; done.
Qed.

(** X7.  When the directory of the first file does not exist or is no
    directory, [open] throws [GS_ERROR_CF_INVALID_DIRECTORY] and leaves the
    store and the file system as they were. *)
Theorem open_directory_missing checkOnly createMode cf os d :
  0 < splitCount_ (config cf) →
  openDirectory cf 0 = Some d →
  isDirectory os d = false →
  open checkOnly createMode (cf, os)
  = ((cf, os), inl GS_ERROR_CF_INVALID_DIRECTORY).
Proof.
  intros Hcount Hdir Hno. rewrite open_run.
  rewrite seqZ_cons by lia. simpl openFiles. unfold bind at 1.
  rewrite openFile_run. unfold openDirectoryOk. rewrite Hdir, Hno. done.
Qed.

Lemma openFile_keeps_os checkOnly createMode i cf os :
  checkOnly || negb createMode = true →
  snd (fst (openFile checkOnly createMode i (cf, os))) = os.
Proof.
  intros Hflags. rewrite openFile_run.
  destruct (openDirectoryOk cf os i); [|done]. simpl.
  destruct (os_nodes os !! openFileName cf i) as [[|size]|]; [done..|].
  by rewrite Hflags.
Qed.

Lemma openFiles_keeps_os checkOnly createMode l total cf os :
  checkOnly || negb createMode = true →
  snd (fst (openFiles checkOnly createMode l total (cf, os))) = os.
Proof.
  intros Hflags. revert total cf.
  induction l as [|i l IH]; intros total cf; simpl; [done|].
  unfold bind.
  pose proof (openFile_keeps_os checkOnly createMode i cf os Hflags) as Hos.
  destruct (openFile checkOnly createMode i (cf, os)) as [[cf1 os1] [e|n]];
    simpl in Hos; subst os1; [done|].
  apply IH.
Qed.

(** X8.  [open] creates a file only when [checkOnly] is false and
    [createMode] is true: with any other flags the file system is the same
    after the call, whether it returns or throws. *)
Theorem open_creates_only_in_create_mode checkOnly createMode cf os :
  checkOnly || negb createMode = true →
  snd (fst (open checkOnly createMode (cf, os))) = os.
Proof.
  intros Hflags. rewrite open_run.
  pose proof (openFiles_keeps_os checkOnly createMode
                (seqZ 0 (splitCount_ (config cf))) 0 cf os Hflags) as Hos.
  destruct (openFiles _ _ _ _ _) as [[cf1 os1] [e|total]]; done.
Qed.

(** X9.  A store of one file whose directory is there and whose file is
    missing: with [checkOnly], or without [createMode], [open] throws
    [GS_ERROR_CM_FILE_NOT_FOUND], having set the file's name and nothing
    else; otherwise it creates the file empty, sets the block count to 0 and
    returns [true]. *)
Theorem open_missing_file checkOnly createMode cf os :
  splitCount_ (config cf) = 1 →
  openDirectoryOk cf os 0 = true →
  os_nodes os !! openFileName cf 0 = None →
  (checkOnly || negb createMode = true →
   open checkOnly createMode (cf, os)
   = ((setFileNameAt 0 (openFileName cf 0) cf, os),
      inl GS_ERROR_CM_FILE_NOT_FOUND))
  ∧ (checkOnly || negb createMode = false →
     snd (open checkOnly createMode (cf, os)) = inr true
     ∧ snd (fst (open checkOnly createMode (cf, os)))
       = setNode (openFileName cf 0) (File 0) os
     ∧ blockNum_ (fst (fst (open checkOnly createMode (cf, os)))) = 0).
Proof.
  intros Hcount Hdir Hnone. rewrite open_run, Hcount.
  change (seqZ 0 1) with [0]. simpl openFiles. unfold bind.
  rewrite openFile_run, Hdir. simpl. rewrite Hnone.
  split; intros Hflags; rewrite Hflags; [done|].
  simpl. done.
Qed.

(** One successful turn of the loop of [open]. *)
Lemma openFile_success checkOnly createMode i cf os cf1 os1 n :
  openFile checkOnly createMode i (cf, os) = ((cf1, os1), inr n) →
  openDirectoryOk cf os i = true
  ∧ core cf1 = core cf
  ∧ fileList_ (fileSet cf1)
    = <[Z.to_nat i := Some (openedHandle (openFileName cf i) checkOnly)]>
        (fileList_ (fileSet cf))
  ∧ fileNameList_ (fileSet cf1)
    = <[Z.to_nat i := openFileName cf i]> (fileNameList_ (fileSet cf))
  ∧ blockCountList_ (fileSet cf1)
    = <[Z.to_nat i := n]> (blockCountList_ (fileSet cf))
  ∧ dirList_ (fileSet cf1) = dirList_ (fileSet cf)
  ∧ addsEmptyFiles os os1
  ∧ ∃ size, os_nodes os1 !! openFileName cf i = Some (File size).
Proof.
  rewrite openFile_run.
  destruct (openDirectoryOk cf os i); [|done]. simpl.
  destruct (os_nodes os !! openFileName cf i) as [[|size]|] eqn:Hnode;
    [done| |].
  - intros [= <- <- <-]. simpl.
    rewrite list_insert_insert_eq.
    repeat split; try done; [apply addsEmptyFiles_refl|by exists size].
  - destruct (checkOnly || negb createMode) eqn:Hflags; [done|].
    intros [= <- <- <-]. simpl.
    rewrite list_insert_insert_eq.
    apply orb_false_iff in Hflags as [-> _].
    repeat split; try done; [by apply addsEmptyFiles_create|].
    exists 0%N. by rewrite lookup_insert_eq.
Qed.

Lemma openDirectoryOk_ext cf cf1 os os1 i :
  config cf1 = config cf → dirList_ (fileSet cf1) = dirList_ (fileSet cf) →
  addsEmptyFiles os os1 →
  openDirectoryOk cf1 os1 i = openDirectoryOk cf os i.
Proof.
  intros Hc Hd Hadd. unfold openDirectoryOk, openDirectory, dirAt.
  rewrite Hc, Hd.
  repeat case_match; try done; by apply isDirectory_addsEmptyFiles.
Qed.

Lemma openFileName_ext cf cf1 i :
  config cf1 = config cf → dirList_ (fileSet cf1) = dirList_ (fileSet cf) →
  openFileName cf1 i = openFileName cf i.
Proof. intros Hc Hd. unfold openFileName, dirAt. by rewrite Hc, Hd. Qed.

Lemma core_config cf cf1 : core cf1 = core cf → config cf1 = config cf.
Proof. unfold core. congruence. Qed.

(** The loop of [open], when it returns: every file of [l] was found or
    created under a directory, and is held open under its name. *)
Lemma openFiles_success checkOnly createMode l total0 cf os cf' os' total :
  openFiles checkOnly createMode l total0 (cf, os) = ((cf', os'), inr total) →
  NoDup l →
  Forall (λ i, 0 ≤ i
               ∧ (Z.to_nat i < length (fileList_ (fileSet cf)))%nat
               ∧ (Z.to_nat i < length (fileNameList_ (fileSet cf)))%nat) l →
  core cf' = core cf
  ∧ dirList_ (fileSet cf') = dirList_ (fileSet cf)
  ∧ length (fileList_ (fileSet cf')) = length (fileList_ (fileSet cf))
  ∧ length (fileNameList_ (fileSet cf'))
    = length (fileNameList_ (fileSet cf))
  ∧ addsEmptyFiles os os'
  ∧ (∀ j, 0 ≤ j → j ∉ l →
          fileAt cf' j = fileAt cf j ∧ fileNameAt cf' j = fileNameAt cf j)
  ∧ (∀ i, i ∈ l →
          openDirectoryOk cf os i = true
          ∧ fileAt cf' i = Some (openedHandle (openFileName cf i) checkOnly)
          ∧ fileNameAt cf' i = openFileName cf i
          ∧ ∃ size, os_nodes os' !! openFileName cf i = Some (File size)).
Proof.
  revert total0 cf os.
  induction l as [|i l IH]; intros total0 cf os; simpl.
  - unfold ret. intros [= <- <- <-] _ _.
    do 4 (split; [done|]). split; [apply addsEmptyFiles_refl|].
    split; [done|]. intros i Hi. by apply elem_of_nil in Hi.
  - intros Hrun Hnodup Hl.
    apply NoDup_cons in Hnodup as [Hnotin Hnodup].
    apply Forall_cons in Hl as [(Hi & Hlt1 & Hlt2) Hl].
    apply bind_inv in Hrun as [([cf1 os1] & n & Hturn & Hrest)|(e & _ & ?)];
      [|done].
    apply openFile_success in Hturn
      as (Hdir & Hcore & Hfiles & Hnames & _ & Hdirs & Hadd & size & Hnode).
    apply IH in Hrest; [|done|].
    2:{ rewrite Hfiles, Hnames, !length_insert. done. }
    destruct Hrest
      as (Hcore' & Hdirs' & Hlen1 & Hlen2 & Hadd' & Hkeep & Hopened).
    pose proof (core_config _ _ Hcore) as Hconfig.
    split; [congruence|]. split; [congruence|].
    split; [by rewrite Hlen1, Hfiles, length_insert|].
    split; [by rewrite Hlen2, Hnames, length_insert|].
    split; [by eapply addsEmptyFiles_trans|].
    split.
    + intros j Hj Hne. apply not_elem_of_cons in Hne as [Hne Hnotin'].
      destruct (Hkeep j Hj Hnotin') as [-> ->].
      unfold fileAt, fileNameAt. rewrite Hfiles, Hnames.
      rewrite !list_lookup_insert_ne by lia. done.
    + intros k Hk. apply elem_of_cons in Hk as [->|Hk].
      * split; [done|].
        destruct (Hkeep i Hi Hnotin) as [-> ->].
        unfold fileAt, fileNameAt. rewrite Hfiles, Hnames.
        rewrite !list_lookup_insert_eq by done. simpl.
        split; [done|]. split; [done|].
        exists size. by apply (addsEmptyFiles_file os1 os').
      * destruct (Hopened k Hk) as (Hd & Hf & Hn & Hs).
        rewrite (openDirectoryOk_ext cf cf1 os os1) in Hd by done.
        rewrite (openFileName_ext cf cf1) in Hf, Hn, Hs by done.
        done.
Qed.

Section OpenFiles.
Context `{HeaderConstants}.

Lemma CheckpointFile_new_lists chunkExpSize dir pgId splitCount stripeSize
    configDirList os cf :
  CheckpointFile_new chunkExpSize dir pgId splitCount stripeSize
    configDirList os = inr cf →
  length (fileList_ (fileSet cf)) = Z.to_nat (splitCount_ (config cf))
  ∧ length (fileNameList_ (fileSet cf)) = Z.to_nat (splitCount_ (config cf))
  ∧ length (blockCountList_ (fileSet cf))
    = Z.to_nat (splitCount_ (config cf)).
Proof.
  unfold CheckpointFile_new. intros Hnew.
  repeat case_match; simplify_eq; simpl;
    rewrite ?length_insert, ?length_replicate; done.
Qed.

Lemma open_success_files
    chunkExpSize dir pgId splitCount stripeSize configDirList
    (os os' : OS) (cf cf' : CheckpointFile) (checkOnly createMode empty : bool) :
  CheckpointFile_new chunkExpSize dir pgId splitCount stripeSize
    configDirList os = inr cf →
  open checkOnly createMode (cf, os) = ((cf', os'), inr empty) →
  ∀ i, 0 ≤ i < splitCount_ (config cf) →
    openDirectoryOk cf os i = true
    ∧ fileNameAt cf' i = openFileName cf i
    ∧ fileAt cf' i = Some (openedHandle (openFileName cf i) checkOnly)
    ∧ ∃ size, os_nodes os' !! openFileName cf i = Some (File size).
Proof.
  intros Hnew Hopen i Hi.
  apply CheckpointFile_new_lists in Hnew as (Hlen1 & Hlen2 & _).
  apply open_inv in Hopen
    as (total & cf1 & Hloop & _ & _ & _ & _ & _ & _ & _ & _ & Hfiles).
  simpl in *.
  apply openFiles_success in Hloop; [|apply NoDup_seqZ|].
  - destruct Hloop as (_ & _ & _ & _ & _ & _ & Hopened).
    destruct (Hopened i) as (Hd & Hf & Hn & Hs);
      [apply elem_of_seqZ; lia|].
    unfold fileAt, fileNameAt in *. rewrite Hfiles. done.
  - apply Forall_forall. intros j Hj. apply elem_of_seqZ in Hj.
    rewrite Hlen1, Hlen2. lia.
Qed.

(** X10.  After a successful [open] of a newly constructed store, every
    file [i] of the store lies under a directory, has the name that [open]
    composes, exists as a regular file, and is held open under that name:
    read-only and unlocked for [checkOnly], writable and locked
    otherwise. *)
Theorem open_holds_every_file
    chunkExpSize dir pgId splitCount stripeSize configDirList
    (os os' : OS) (cf cf' : CheckpointFile) (checkOnly createMode empty : bool) :
  CheckpointFile_new chunkExpSize dir pgId splitCount stripeSize
    configDirList os = inr cf →
  open checkOnly createMode (cf, os) = ((cf', os'), inr empty) →
  ∀ i, 0 ≤ i < splitCount_ (config cf) →
    openDirectoryOk cf os i = true
    ∧ fileNameAt cf' i = openFileName cf i
    ∧ fileAt cf' i = Some (openedHandle (openFileName cf i) checkOnly)
    ∧ ∃ size, os_nodes os' !! openFileName cf i = Some (File size).
Proof. apply open_success_files. Qed.

End OpenFiles.

Lemma openFilesSize_nonneg cf os l : 0 ≤ openFilesSize cf os l.
Proof.
  induction l as [|j l IH]; simpl; [done|].
  unfold openFileSize at 1.
  destruct (fileAt cf j) as [f|];
    [pose proof (fileSize_nonneg os (nf_name f))|]; lia.
Qed.

Lemma sumFileSizes_run l total cf os :
  (∀ i f, i ∈ l → fileAt cf i = Some f →
          ∃ size, os_nodes os !! nf_name f = Some (File size)) →
  0 ≤ total → total + openFilesSize cf os l < 2 ^ 63 →
  sumFileSizes l total (cf, os)
  = ((cf, os), inr (total + openFilesSize cf os l)).
Proof.
  revert total. induction l as [|i l IH]; intros total Hfiles Htotal Hsum;
    simpl.
  - unfold ret. by rewrite Z.add_0_r.
  - rewrite bind_getCf. cbn [fst].
    pose proof (openFilesSize_nonneg cf os l) as Hrest.
    simpl in Hsum. unfold openFileSize at 1 in Hsum. unfold openFileSize at 1.
    destruct (fileAt cf i) as [f|] eqn:Hf.
    + destruct (Hfiles i f) as [size Hnode]; [left|done|].
      assert (fileSize os (nf_name f) = Z.of_N size) as Hsize
        by (unfold fileSize; by rewrite Hnode).
      rewrite Hsize in Hsum |- *.
      unfold bind at 1. unfold NamedFile_getSize, bind, getOs, ret.
      cbn [snd]. rewrite Hnode.
      rewrite to_int64_small by lia.
      rewrite IH; [|intros j g Hj; apply Hfiles; by right|lia..].
      do 2 f_equal. lia.
    + rewrite IH; [|intros j g Hj; apply Hfiles; by right|lia..].
      do 2 f_equal.
Qed.

Lemma blocksOf_bounds c size :
  0 < BLOCK_SIZE_ c → 0 ≤ size →
  size ≤ blocksOf c size * BLOCK_SIZE_ c < size + BLOCK_SIZE_ c.
Proof.
  intros Hb Hs. unfold blocksOf.
  pose proof (Z.div_mod (size + BLOCK_SIZE_ c - 1) (BLOCK_SIZE_ c)
                ltac:(lia)) as Hdm.
  pose proof (Z.mod_pos_bound (size + BLOCK_SIZE_ c - 1) (BLOCK_SIZE_ c)
                ltac:(lia)) as Hm.
  nia.
Qed.

Lemma blocksOfFiles_bounds cf os l :
  0 < BLOCK_SIZE_ (config cf) →
  (∀ i, i ∈ l → openFileSize cf os i = fileSize os (fileNameAt cf i)) →
  openFilesSize cf os l
  ≤ blocksOfFiles cf os l * BLOCK_SIZE_ (config cf)
  ≤ openFilesSize cf os l
    + Z.of_nat (length l) * BLOCK_SIZE_ (config cf)
  ∧ (l ≠ [] →
     blocksOfFiles cf os l * BLOCK_SIZE_ (config cf)
     < openFilesSize cf os l
       + Z.of_nat (length l) * BLOCK_SIZE_ (config cf)).
Proof.
  intros Hb. induction l as [|i l IH]; intros Hsizes; simpl.
  - split; [lia|done].
  - destruct IH as [IH _]; [intros j Hj; apply Hsizes; by right|].
    rewrite Hsizes by left.
    pose proof (blocksOf_bounds (config cf) (fileSize os (fileNameAt cf i))
                  Hb (fileSize_nonneg _ _)).
    split; [|intros _]; nia.
Qed.

Section OpenSizes.
Context `{HeaderConstants}.

Lemma CheckpointFile_new_splitCount chunkExpSize dir pgId splitCount
    stripeSize configDirList os cf :
  CheckpointFile_new chunkExpSize dir pgId splitCount stripeSize
    configDirList os = inr cf →
  splitCount_ (config cf) = (if splitCount =? 0 then 1 else splitCount)
  ∧ splitMode_ (config cf) = (0 <? splitCount)
  ∧ pgId_ (config cf) = pgId
  ∧ dir_ (config cf) = dir
  ∧ BLOCK_SIZE_ (config cf) = wrap64 (Z.shiftl 1 chunkExpSize).
Proof.
  unfold CheckpointFile_new. intros Hnew.
  repeat case_match; simplify_eq; simpl; done.
Qed.

(** X11.  After a successful [open] of a newly constructed store,
    [getFileSize] returns the sum of the sizes of the files and leaves the
    state alone, and [blockNum_] blocks cover these bytes with less than one
    block to spare for each file.  The sizes are as for C10, and the sum is
    an [int64_t]. *)
Theorem getFileSize_after_open
    chunkExpSize dir pgId splitCount stripeSize configDirList
    (os os' : OS) (cf cf' : CheckpointFile) (checkOnly createMode empty : bool) :
  CheckpointFile_new chunkExpSize dir pgId splitCount stripeSize
    configDirList os = inr cf →
  open checkOnly createMode (cf, os) = ((cf', os'), inr empty) →
  0 ≤ splitCount →
  0 < BLOCK_SIZE_ (config cf) ≤ 2 ^ 63 →
  filesBelow (BLOCK_SIZE_ (config cf)) os →
  totalBlocks cf' os' < 2 ^ 63 →
  totalBytes cf' os' < 2 ^ 63 →
  getFileSize (cf', os') = ((cf', os'), inr (totalBytes cf' os'))
  ∧ totalBytes cf' os' ≤ blockNum_ cf' * BLOCK_SIZE_ (config cf')
  ∧ blockNum_ cf' * BLOCK_SIZE_ (config cf')
    < totalBytes cf' os' + splitCount_ (config cf') * BLOCK_SIZE_ (config cf').
Proof.
  intros Hnew Hopen Hsplit Hb Hbelow Hblocks Hbytes.
  destruct (open_new_store_blockNum _ _ _ _ _ _ _ _ _ _ _ _ _
              Hnew Hopen Hb Hbelow Hblocks) as (Hn & _ & _).
  pose proof (open_success_files _ _ _ _ _ _ _ _ _ _ _ _ _ Hnew Hopen)
    as Hfiles.
  apply CheckpointFile_new_splitCount in Hnew as (Hcount & _).
  apply open_inv in Hopen
    as (total & cf1 & Hloop & _ & _ & _ & _ & _ & _ & _ & Hconfig & _).
  simpl in Hloop, Hconfig.
  assert (config cf' = config cf) as Hc.
  { rewrite Hconfig.
    pose proof (preserves_openFiles (λ c, core c = core cf)
                  ltac:(intros c c' ? ?; congruence) checkOnly createMode
                  (seqZ 0 (splitCount_ (config cf))) 0 (cf, os) eq_refl)
      as Hp.
    rewrite Hloop in Hp. by apply core_config. }
  assert (∀ i, i ∈ seqZ 0 (splitCount_ (config cf')) →
               openFileSize cf' os' i = fileSize os' (fileNameAt cf' i)
               ∧ ∀ f, fileAt cf' i = Some f →
                      ∃ size, os_nodes os' !! nf_name f = Some (File size))
    as Hsizes.
  { intros i Hi. rewrite Hc in Hi. apply elem_of_seqZ in Hi.
    destruct (Hfiles i) as (_ & Hname & Hfile & Hnode); [lia|].
    unfold openFileSize. rewrite Hfile, Hname. simpl.
    split; [done|]. by intros f [= <-]. }
  split.
  - unfold getFileSize. rewrite bind_getCf. simpl fst.
    rewrite sumFileSizes_run; [done| |done|done].
    intros i f Hi. by apply Hsizes.
  - rewrite Hn. unfold totalBlocks, totalBytes.
    destruct (blocksOfFiles_bounds cf' os'
                (seqZ 0 (splitCount_ (config cf')))) as [Hle Hlt];
      [rewrite Hc; lia|intros i Hi; by apply Hsizes|].
    rewrite length_seqZ in Hle, Hlt.
    assert (0 < splitCount_ (config cf')) as Hpos.
    { rewrite Hc, Hcount. destruct (splitCount =? 0) eqn:E; zbool; lia. }
    rewrite Z2Nat.id in Hle, Hlt by lia.
    split; [lia|]. apply Hlt.
    rewrite seqZ_cons by lia. done.
Qed.

End OpenSizes.

(** ** [truncate] and [close] *)

Lemma truncateFile_run i cf os :
  truncateFile i (cf, os)
  = match os_nodes os !! fileNameAt cf i with
    | Some (File _) =>
        ((setBlockCountAt i 0
            (setFileAt i (Some (openedHandle (fileNameAt cf i) false))
               (setFileAt i (Some NamedFile_new) cf)),
          setNode (fileNameAt cf i) (File 0) os), inr tt)
    | Some Dir =>
        ((setFileAt i (Some NamedFile_new) cf, os), inl GS_ERROR_CM_IO_ERROR)
    | None =>
        if bool_decide (fileNameAt cf i = ""%string)
        then ((setFileAt i (Some NamedFile_new) cf, os),
              inl GS_ERROR_CM_IO_ERROR)
        else
          ((setBlockCountAt i 0
              (setFileAt i (Some (openedHandle (fileNameAt cf i) false))
                 (setFileAt i (Some NamedFile_new) cf)),
            setNode (fileNameAt cf i) (File 0) os), inr tt)
    end.
Proof.
  unfold truncateFile. rewrite bind_getCf. cbn [fst].
  cbv [bind modifyCf NamedFile_open getOs getCf modifyOs ret throw].
  simpl.
  destruct (os_nodes os !! fileNameAt cf i) as [[|size]|] eqn:Hnode; simpl;
    rewrite ?Hnode; [done..|].
  by case_bool_decide.
Qed.

Lemma truncateFiles_success l cf os cf' os' :
  forEach l truncateFile (cf, os) = ((cf', os'), inr tt) →
  NoDup l →
  Forall (λ i, 0 ≤ i
               ∧ (Z.to_nat i < length (fileList_ (fileSet cf)))%nat) l →
  core cf' = core cf
  ∧ fileNameList_ (fileSet cf') = fileNameList_ (fileSet cf)
  ∧ length (fileList_ (fileSet cf')) = length (fileList_ (fileSet cf))
  ∧ os_punched os' = os_punched os
  ∧ (∀ i, i ∈ l →
          os_nodes os' !! fileNameAt cf i = Some (File 0)
          ∧ fileAt cf' i = Some (openedHandle (fileNameAt cf i) false))
  ∧ (∀ j, 0 ≤ j → j ∉ l → fileAt cf' j = fileAt cf j)
  ∧ (∀ p, (∀ i, i ∈ l → fileNameAt cf i ≠ p) →
          os_nodes os' !! p = os_nodes os !! p)
  ∧ (∀ p, os_nodes os !! p = Some (File 0) →
          os_nodes os' !! p = Some (File 0)).
Proof.
  revert cf os. induction l as [|i l IH]; intros cf os; simpl.
  - unfold ret. intros [= <- <-] _ _.
    do 4 (split; [done|]). split; [|done].
    intros i Hi. by apply elem_of_nil in Hi.
  - intros Hrun Hnodup Hl.
    apply NoDup_cons in Hnodup as [Hnotin Hnodup].
    apply Forall_cons in Hl as [[Hi Hlt] Hl].
    apply bind_inv in Hrun as [([cf1 os1] & [] & Hturn & Hrest)|(e & _ & ?)];
      [|done].
    rewrite truncateFile_run in Hturn.
    assert (cf1 = setBlockCountAt i 0
                    (setFileAt i (Some (openedHandle (fileNameAt cf i) false))
                       (setFileAt i (Some NamedFile_new) cf))
            ∧ os1 = setNode (fileNameAt cf i) (File 0) os) as [-> ->].
    { destruct (os_nodes os !! fileNameAt cf i) as [[|size]|];
        [done|by injection Hturn|].
      case_bool_decide; [done|by injection Hturn]. }
    apply IH in Hrest; [|done|].
    2:{ simpl. rewrite !length_insert. done. }
    destruct Hrest
      as (Hcore & Hnames & Hlen & Hpunched & Hfiles & Hkeep & Hframe & Hzero).
    split; [done|]. split; [done|].
    split; [by rewrite Hlen; simpl; rewrite !length_insert|].
    split; [done|].
    split; [|split; [|split]].
    + intros k Hk. apply elem_of_cons in Hk as [->|Hk].
      * split.
        -- apply Hzero. simpl. by rewrite lookup_insert_eq.
        -- rewrite Hkeep by done. unfold fileAt. simpl.
           rewrite list_insert_insert_eq, list_lookup_insert_eq by done.
           done.
      * apply (Hfiles k Hk).
    + intros j Hj Hne. apply not_elem_of_cons in Hne as [Hne Hnotin'].
      rewrite Hkeep by done. unfold fileAt. simpl.
      rewrite !list_lookup_insert_ne by lia. done.
    + intros p Hp. rewrite Hframe.
      * simpl. rewrite lookup_insert_ne; [done|]. apply Hp. by left.
      * intros k Hk. apply (Hp k). by right.
    + intros p Hp. apply Hzero. simpl.
      destruct (decide (fileNameAt cf i = p)) as [->|Hne].
      * by rewrite lookup_insert_eq.
      * by rewrite lookup_insert_ne.
Qed.

Lemma truncate_run cf os :
  truncate (cf, os)
  = match forEach (seqZ 0 (splitCount_ (config cf))) truncateFile (cf, os)
    with
    | (s, inl e) => (s, inl e)
    | ((cf1, os1), inr _) =>
        ((with_valid (BitArray.reset (validChunkInfo_ cf1))
            (with_used (BitArray.reset (usedChunkInfo_ cf1))
               (with_cursor 0 (with_freeUseBitNum 0 (with_blockNum 0 cf1)))),
          os1), inr tt)
    end.
Proof.
  unfold truncate. rewrite bind_getCf. cbn [fst]. unfold bind at 1.
  destruct (forEach _ _ _) as [[cf1 os1] [e|[]]]; done.
Qed.

Lemma openFilesSize_zero cf os l :
  (∀ i, i ∈ l → openFileSize cf os i = 0) → openFilesSize cf os l = 0.
Proof.
  induction l as [|i l IH]; intros Hz; simpl; [done|].
  rewrite Hz by left. rewrite IH; [done|]. intros j Hj. apply Hz. by right.
Qed.

(** X12.  After a successful [truncate], every file of the store is empty
    and held open, writable and locked, under its name; every other path of
    the file system is as before, no hole is punched, and [getFileSize]
    returns 0.  [fileList_] has an entry for each file. *)
Theorem truncate_empties_every_file cf os cf' os' :
  truncate (cf, os) = ((cf', os'), inr tt) →
  (Z.to_nat (splitCount_ (config cf)) ≤ length (fileList_ (fileSet cf)))%nat →
  (∀ i, 0 ≤ i < splitCount_ (config cf) →
        os_nodes os' !! fileNameAt cf i = Some (File 0)
        ∧ fileAt cf' i = Some (openedHandle (fileNameAt cf i) false))
  ∧ (∀ p, (∀ i, 0 ≤ i < splitCount_ (config cf) → fileNameAt cf i ≠ p) →
          os_nodes os' !! p = os_nodes os !! p)
  ∧ os_punched os' = os_punched os
  ∧ getFileSize (cf', os') = ((cf', os'), inr 0).
Proof.
  intros Hrun Hlen. rewrite truncate_run in Hrun.
  destruct (forEach _ _ _) as [[cf1 os1] [e|[]]] eqn:Hloop; [done|].
  injection Hrun as <- <-.
  apply truncateFiles_success in Hloop; [|apply NoDup_seqZ|].
  2:{ apply Forall_forall. intros j Hj. apply elem_of_seqZ in Hj. lia. }
  destruct Hloop as (Hcore & _ & _ & Hpunched & Hfiles & _ & Hframe & _).
  assert (∀ i, 0 ≤ i < splitCount_ (config cf) →
               os_nodes os1 !! fileNameAt cf i = Some (File 0)
               ∧ fileAt cf1 i = Some (openedHandle (fileNameAt cf i) false))
    as Hall.
  { intros i Hi. apply Hfiles. apply elem_of_seqZ. lia. }
  split; [done|]. split.
  { intros p Hp. apply Hframe. intros i Hi. apply Hp.
    apply elem_of_seqZ in Hi. lia. }
  split; [done|].
  unfold getFileSize. rewrite bind_getCf. cbn [fst].
  change (config (with_valid _ _)) with (config cf1).
  rewrite (core_config _ _ Hcore).
  assert (∀ i, i ∈ seqZ 0 (splitCount_ (config cf)) →
               ∃ f, fileAt cf1 i = Some f
                    ∧ os_nodes os1 !! nf_name f = Some (File 0)) as Hopen.
  { intros i Hi. apply elem_of_seqZ in Hi.
    destruct (Hall i) as [Hnode Hfile]; [lia|]. eexists. split; [done|].
    done. }
  rewrite sumFileSizes_run.
  - rewrite openFilesSize_zero; [done|].
    intros i Hi. destruct (Hopen i Hi) as (f & Hf & Hnode).
    unfold openFileSize, fileAt in *. simpl. rewrite Hf.
    unfold fileSize. by rewrite Hnode.
  - intros i f Hi Hf. destruct (Hopen i Hi) as (g & Hg & Hnode).
    unfold fileAt in *. simpl in Hf. rewrite Hg in Hf.
    injection Hf as <-. by exists 0%N.
  - done.
  - rewrite openFilesSize_zero; [done|].
    intros i Hi. destruct (Hopen i Hi) as (f & Hf & Hnode).
    unfold openFileSize, fileAt in *. simpl. rewrite Hf.
    unfold fileSize. by rewrite Hnode.
Qed.

Lemma closeFiles_run l cf os :
  ∃ cf',
    forEach l (λ i, modifyCf (setFileAt i None)) (cf, os) = ((cf', os), inr tt)
    ∧ core cf' = core cf
    ∧ fileNameList_ (fileSet cf') = fileNameList_ (fileSet cf)
    ∧ (∀ j, fileAt cf j = None → fileAt cf' j = None)
    ∧ (∀ i, i ∈ l → fileAt cf' i = None).
Proof.
  revert cf. induction l as [|i l IH]; intros cf; simpl.
  - exists cf. do 4 (split; [done|]).
    intros i Hi. by apply elem_of_nil in Hi.
  - unfold bind at 1. unfold modifyCf at 1. cbn [fst snd].
    destruct (IH (setFileAt i None cf))
      as (cf' & Hrun & Hcore & Hnames & Hkeep & Hnone).
    assert (fileAt (setFileAt i None cf) i = None) as Hi.
    { unfold fileAt. simpl.
      destruct (decide (Z.to_nat i < length (fileList_ (fileSet cf)))%nat).
      - by rewrite list_lookup_insert_eq.
      - rewrite list_insert_ge by lia.
        rewrite lookup_ge_None_2; [done|lia]. }
    exists cf'. split; [done|]. split; [done|]. split; [done|]. split.
    + intros j Hj. apply Hkeep. unfold fileAt in *. simpl.
      destruct (decide (Z.to_nat i = Z.to_nat j)) as [Heq|Hne].
      * rewrite <- Heq. apply Hi.
      * by rewrite list_lookup_insert_ne.
    + intros k Hk. apply elem_of_cons in Hk as [->|Hk];
        [by apply Hkeep|by apply Hnone].
Qed.

(** X13.  [close] releases every file and never throws: afterwards every
    entry of [fileList_] is null, the names, the arrays, the block count and
    the counters are as before, the file system is untouched, and
    [getFileSize] returns 0 whatever the files hold. *)
Theorem close_releases_every_file cf os :
  ∃ cf',
    close (cf, os) = ((cf', os), inr tt)
    ∧ core cf' = core cf
    ∧ fileNameList_ (fileSet cf') = fileNameList_ (fileSet cf)
    ∧ (∀ i, 0 ≤ i < splitCount_ (config cf) → fileAt cf' i = None)
    ∧ getFileSize (cf', os) = ((cf', os), inr 0).
Proof.
  destruct (closeFiles_run (seqZ 0 (splitCount_ (config cf))) cf os)
    as (cf' & Hrun & Hcore & Hnames & _ & Hnone).
  exists cf'. unfold close. rewrite bind_getCf. cbn [fst].
  split; [done|]. split; [done|]. split; [done|]. split.
  - intros i Hi. apply Hnone. apply elem_of_seqZ. lia.
  - unfold getFileSize. rewrite bind_getCf. cbn [fst].
    rewrite (core_config _ _ Hcore).
    rewrite sumFileSizes_run.
    + rewrite openFilesSize_zero; [done|].
      intros i Hi. unfold openFileSize. by rewrite Hnone.
    + intros i f Hi Hf. by rewrite Hnone in Hf.
    + done.
    + rewrite openFilesSize_zero; [done|].
      intros i Hi. unfold openFileSize. by rewrite Hnone.
Qed.

(** ** [truncate] after writes and allocations *)







Section FilesStay.
Context `{HeaderConstants}.



End FilesStay.


Section TruncateAfter.
Context `{HeaderConstants}.





End TruncateAfter.

(** ** The transfers *)

Lemma reopenForWrite_open fileNth f cf os :
  fileAt cf fileNth = Some f →
  reopenForWrite fileNth (cf, os) = ((cf, os), inr f).
Proof.
  intros Hf. unfold reopenForWrite. rewrite bind_getCf. cbn [fst].
  by rewrite Hf.
Qed.

(** [writeBlock] through an open file, when the operating system completes
    the request. *)
Lemma writeBlock_run size blockNo retryCount cf os f fileSize0 :
  fileAt cf (calcFileNth (config cf)
               (wrap64 (blockNo * BLOCK_SIZE_ (config cf)))) = Some f →
  os_nodes os !! nf_name f = Some (File fileSize0) →
  writeBlock size blockNo (IoDone retryCount) (cf, os)
  = ((addWriteBlockCount
        (Z.shiftr (shiftSize (config cf) size) (BLOCK_EXP_SIZE_ (config cf)))
        ((if blockNum_ cf <? wrap64 (size + blockNo)
          then with_blockNum (wrap64 (size + blockNo)) else id)
           (addWriteRetry retryCount cf)),
      setNode (nf_name f)
        (File (if 0 <? shiftSize (config cf) size
               then N.max fileSize0
                      (Z.to_N (calcFileOffset (config cf)
                                 (wrap64 (blockNo * BLOCK_SIZE_ (config cf)))
                               + shiftSize (config cf) size))
               else fileSize0)) os),
     inr size).
Proof.
  intros Hf Hnode. unfold writeBlock. rewrite bind_getCf. cbn [fst].
  unfold bind at 1. rewrite (reopenForWrite_open _ f) by done.
  cbv [bind GS_FILE_WRITE_ALL modifyCf getOs getCf modifyOs ret throw].
  cbn [fst snd]. rewrite Hnode. cbn [fst snd].
  destruct (blockNum_ cf <? wrap64 (size + blockNo)) eqn:E.
  - assert ((blockNum_ (addWriteRetry retryCount cf)
             <? wrap64 (size + blockNo)) = true) as -> by done. done.
  - assert ((blockNum_ (addWriteRetry retryCount cf)
             <? wrap64 (size + blockNo)) = false) as -> by done. done.
Qed.

Lemma shiftSize_blocks c size :
  0 ≤ BLOCK_EXP_SIZE_ c → 0 ≤ size →
  size * 2 ^ BLOCK_EXP_SIZE_ c < 2 ^ 32 →
  Z.shiftr (shiftSize c size) (BLOCK_EXP_SIZE_ c) = size.
Proof.
  intros He Hs Hfit. unfold shiftSize, wrap32.
  rewrite Z.shiftl_mul_pow2 by done.
  rewrite Z.mod_small by lia.
  rewrite Z.shiftr_div_pow2 by done.
  apply Z.div_mul. lia.
Qed.

(** X14.  A write of [size > 0] blocks at [blockNo], through an open file and
    completed by the operating system, returns [size], raises [blockNum_] to
    [size + blockNo] when it was lower, adds [size] to [writeBlockCount_]
    and the retries to [writeRetryCount_], and leaves the read counters, the
    allocator and the files' handles alone; the file is at least as long as
    the end of the written range.  The byte count fits [uint32_t]. *)
Theorem writeBlock_success size blockNo retryCount cf os f fileSize0 :
  fileAt cf (calcFileNth (config cf)
               (wrap64 (blockNo * BLOCK_SIZE_ (config cf)))) = Some f →
  os_nodes os !! nf_name f = Some (File fileSize0) →
  0 < size → 0 ≤ blockNo → size + blockNo < 2 ^ 64 →
  0 ≤ BLOCK_EXP_SIZE_ (config cf) →
  size * 2 ^ BLOCK_EXP_SIZE_ (config cf) < 2 ^ 32 →
  ∃ cf' os',
    writeBlock size blockNo (IoDone retryCount) (cf, os)
    = ((cf', os'), inr size)
    ∧ blockNum_ cf' = Z.max (blockNum_ cf) (size + blockNo)
    ∧ writeBlockCount_ (counters cf')
      = wrap64 (writeBlockCount_ (counters cf) + size)
    ∧ writeRetryCount_ (counters cf')
      = wrap64 (writeRetryCount_ (counters cf) + retryCount)
    ∧ readBlockCount_ (counters cf') = readBlockCount_ (counters cf)
    ∧ readRetryCount_ (counters cf') = readRetryCount_ (counters cf)
    ∧ allocState cf' = allocState cf
    ∧ fileSet cf' = fileSet cf
    ∧ os_nodes os'
      = <[nf_name f :=
            File (N.max fileSize0
                    (Z.to_N (calcFileOffset (config cf)
                               (wrap64 (blockNo * BLOCK_SIZE_ (config cf)))
                             + size * 2 ^ BLOCK_EXP_SIZE_ (config cf))))]>
          (os_nodes os)
    ∧ os_punched os' = os_punched os.
Proof.
  intros Hf Hnode Hs Hb Hsum He Hfit.
  eexists _, _. split; [by apply writeBlock_run|].
  rewrite shiftSize_blocks by (done || lia).
  rewrite wrap64_small by lia.
  assert (shiftSize (config cf) size = size * 2 ^ BLOCK_EXP_SIZE_ (config cf))
    as ->.
  { unfold shiftSize, wrap32. rewrite Z.shiftl_mul_pow2 by done.
    apply Z.mod_small. lia. }
  assert ((0 <? size * 2 ^ BLOCK_EXP_SIZE_ (config cf)) = true) as ->.
  { apply Z.ltb_lt. apply Z.mul_pos_pos; [done|]. by apply Z.pow_pos_nonneg. }
  destruct (blockNum_ cf <? size + blockNo) eqn:E; zbool; simpl;
    (split; [lia|done]).
Qed.

(** The errors of the three transfers, and what a transfer that throws
    leaves of the store. *)
Lemma writeBlock_throw size blockNo io s e :
  snd (writeBlock size blockNo io s) = inl e →
  e = GS_ERROR_CM_IO_ERROR
  ∧ core (fst (fst (writeBlock size blockNo io s))) = core (fst s).
Proof.
  destruct s as [cf os]. unfold writeBlock. rewrite bind_getCf. cbn [fst].
  cbv [bind reopenForWrite GS_FILE_WRITE_ALL NamedFile_open modifyCf getOs
       getCf modifyOs ret throw].
  cbn [fst snd].
  repeat case_match; simplify_eq; simpl; intros; simplify_eq; done.
Qed.

Lemma writePartialBlock_throw size offset io s e :
  snd (writePartialBlock size offset io s) = inl e →
  e = GS_ERROR_CM_IO_ERROR
  ∧ core (fst (fst (writePartialBlock size offset io s))) = core (fst s).
Proof.
  destruct s as [cf os]. unfold writePartialBlock. rewrite bind_getCf.
  cbn [fst].
  cbv [bind reopenForWrite GS_FILE_WRITE_ALL NamedFile_open modifyCf getOs
       getCf modifyOs ret throw].
  cbn [fst snd].
  repeat case_match; simplify_eq; simpl; intros; simplify_eq; done.
Qed.

Lemma readBlock_throw size blockNo io s e :
  snd (readBlock size blockNo io s) = inl e →
  (e = GS_ERROR_CM_IO_ERROR ∨ e = GS_ERROR_CF_READ_CHUNK_FAILED)
  ∧ core (fst (fst (readBlock size blockNo io s))) = core (fst s).
Proof.
  destruct s as [cf os]. unfold readBlock. rewrite bind_getCf. cbn [fst].
  cbv [bind GS_FILE_READ_ALL FileSystem_exists NamedFile_open modifyCf getOs
       getCf modifyOs ret throw].
  cbn [fst snd].
  repeat case_match; simplify_eq; simpl; intros; simplify_eq; auto.
Qed.

(** X15.  A transfer that throws counts nothing: after [writeBlock] or
    [writePartialBlock] threw, the error is [GS_ERROR_CM_IO_ERROR], after
    [readBlock] threw it is that or [GS_ERROR_CF_READ_CHUNK_FAILED], and in
    each case the arrays, the block count and the four counters are as
    before the call. *)
Theorem failed_transfer_counts_nothing size place io s e :
  (snd (writeBlock size place io s) = inl e →
   e = GS_ERROR_CM_IO_ERROR
   ∧ core (fst (fst (writeBlock size place io s))) = core (fst s))
  ∧ (snd (writePartialBlock size place io s) = inl e →
     e = GS_ERROR_CM_IO_ERROR
     ∧ core (fst (fst (writePartialBlock size place io s))) = core (fst s))
  ∧ (snd (readBlock size place io s) = inl e →
     (e = GS_ERROR_CM_IO_ERROR ∨ e = GS_ERROR_CF_READ_CHUNK_FAILED)
     ∧ core (fst (fst (readBlock size place io s))) = core (fst s)).
Proof.
  split; [apply writeBlock_throw|].
  split; [apply writePartialBlock_throw|apply readBlock_throw].
Qed.

Lemma readBlock_state size blockNo io s :
  snd (fst (readBlock size blockNo io s)) = snd s
  ∧ allocState (fst (fst (readBlock size blockNo io s))) = allocState (fst s)
  ∧ blockNum_ (fst (fst (readBlock size blockNo io s))) = blockNum_ (fst s)
  ∧ config (fst (fst (readBlock size blockNo io s))) = config (fst s)
  ∧ fileNameList_ (fileSet (fst (fst (readBlock size blockNo io s))))
    = fileNameList_ (fileSet (fst s))
  ∧ writeBlockCount_ (counters (fst (fst (readBlock size blockNo io s))))
    = writeBlockCount_ (counters (fst s))
  ∧ writeRetryCount_ (counters (fst (fst (readBlock size blockNo io s))))
    = writeRetryCount_ (counters (fst s)).
Proof.
  destruct s as [cf os]. unfold readBlock. rewrite bind_getCf. cbn [fst].
  cbv [bind GS_FILE_READ_ALL FileSystem_exists NamedFile_open modifyCf getOs
       getCf modifyOs ret throw].
  cbn [fst snd].
  repeat case_match; simplify_eq; simpl; done.
Qed.

(** X16.  [readBlock] only reads: whatever it returns or throws, the file
    system, the allocator, the block count, the configuration, the names of
    the files and the two write counters are as before. *)
Theorem readBlock_reads_only size blockNo io s :
  snd (fst (readBlock size blockNo io s)) = snd s
  ∧ allocState (fst (fst (readBlock size blockNo io s))) = allocState (fst s)
  ∧ blockNum_ (fst (fst (readBlock size blockNo io s))) = blockNum_ (fst s)
  ∧ config (fst (fst (readBlock size blockNo io s))) = config (fst s)
  ∧ fileNameList_ (fileSet (fst (fst (readBlock size blockNo io s))))
    = fileNameList_ (fileSet (fst s))
  ∧ writeBlockCount_ (counters (fst (fst (readBlock size blockNo io s))))
    = writeBlockCount_ (counters (fst s))
  ∧ writeRetryCount_ (counters (fst (fst (readBlock size blockNo io s))))
    = writeRetryCount_ (counters (fst s)).
Proof. apply readBlock_state. Qed.

(** X17.  [readBlock] on a file that is not held open and does not exist
    returns 0 blocks, and changes and counts nothing. *)
Theorem readBlock_without_file size blockNo io cf os :
  readBlockInvalid cf size blockNo = false →
  fileAt cf (calcFileNth (config cf)
               (wrap64 (blockNo * BLOCK_SIZE_ (config cf)))) = None →
  os_nodes os
    !! fileNameAt cf (calcFileNth (config cf)
                        (wrap64 (blockNo * BLOCK_SIZE_ (config cf)))) = None →
  readBlock size blockNo io (cf, os) = ((cf, os), inr 0).
Proof.
  intros Hvalid Hf Hnode. unfold readBlock. rewrite bind_getCf. cbn [fst].
  rewrite Hvalid, Hf.
  unfold bind, FileSystem_exists, getOs, ret. simpl.
  rewrite Hnode. rewrite bool_decide_eq_false_2; [done|]. by intros [? ?].
Qed.

(** X18.  A read of [size] blocks through an open file, completed by the
    operating system, returns [size], adds it to [readBlockCount_] and the
    retries to [readRetryCount_], and changes nothing else.  The request
    passes the parameter test and its byte count fits [uint32_t]. *)
Theorem readBlock_success size blockNo retryCount cf os f fileSize0 :
  readBlockInvalid cf size blockNo = false →
  fileAt cf (calcFileNth (config cf)
               (wrap64 (blockNo * BLOCK_SIZE_ (config cf)))) = Some f →
  os_nodes os !! nf_name f = Some (File fileSize0) →
  0 ≤ size → 0 ≤ BLOCK_EXP_SIZE_ (config cf) →
  size * 2 ^ BLOCK_EXP_SIZE_ (config cf) < 2 ^ 32 →
  readBlock size blockNo (IoDone retryCount) (cf, os)
  = ((addReadBlockCount size (addReadRetry retryCount cf), os), inr size).
Proof.
  intros Hvalid Hf Hnode Hs He Hfit.
  unfold readBlock. rewrite bind_getCf. cbn [fst].
  rewrite Hvalid, Hf.
  cbv [bind GS_FILE_READ_ALL modifyCf getOs getCf modifyOs ret throw].
  cbn [fst snd]. rewrite Hnode. cbn [fst snd].
  by rewrite shiftSize_blocks.
Qed.

(** X19.  What was written can be read: after [writeBlock] returned for
    [size > 0] blocks at [blockNo], it returned [size], the block count
    covers the range, and [readBlock] of the same range does not throw the
    invalid-parameter error. *)
Theorem writeBlock_then_readBlock size blockNo io io' cf os cf' os' n :
  writeBlock size blockNo io (cf, os) = ((cf', os'), inr n) →
  0 < size → 0 ≤ blockNo → size + blockNo < 2 ^ 64 →
  n = size
  ∧ size + blockNo ≤ blockNum_ cf'
  ∧ readBlockInvalid cf' size blockNo = false
  ∧ snd (readBlock size blockNo io' (cf', os'))
    ≠ inl GS_ERROR_CF_READ_CHUNK_FAILED.
Proof.
  intros Hrun Hs Hb Hsum.
  assert (n = size ∧ size + blockNo ≤ blockNum_ cf') as [-> Hn].
  { revert Hrun. unfold writeBlock. rewrite bind_getCf. cbn [fst].
    cbv [bind reopenForWrite GS_FILE_WRITE_ALL NamedFile_open modifyCf getOs
         getCf modifyOs ret throw].
    cbn [fst snd]. rewrite (wrap64_small (size + blockNo)) by lia.
    repeat case_match; simplify_eq; simpl; intros; simplify_eq; simpl;
      split; try done;
      repeat match goal with
             | H : context [blockNum_ (addWriteRetry _ _)] |- _ =>
                 simpl in H
             end;
      zbool; simpl; lia. }
  split; [done|]. split; [done|].
  assert (readBlockInvalid cf' size blockNo = false) as Hvalid.
  { unfold readBlockInvalid. rewrite wrap64_small by lia.
    apply orb_false_iff. split; [apply Z.ltb_ge|apply Z.eqb_neq]; lia. }
  split; [done|].
  rewrite readBlock_invalid_iff. cbn [fst]. by rewrite Hvalid.
Qed.

Lemma writePartialBlock_run size offset retryCount cf os f fileSize0 :
  fileAt cf (calcFileNth (config cf) offset) = Some f →
  os_nodes os !! nf_name f = Some (File fileSize0) →
  writePartialBlock size offset (IoDone retryCount) (cf, os)
  = (((if wrap64 (Z.shiftl (blockNum_ cf) (BLOCK_EXP_SIZE_ (config cf)))
          <? wrap64 (size + offset)
       then with_blockNum
              (Z.shiftr (wrap64 (size + offset + BLOCK_SIZE_ (config cf) - 1))
                 (BLOCK_EXP_SIZE_ (config cf)))
       else id) (addWriteRetry retryCount cf),
      setNode (nf_name f)
        (File (if 0 <? size
               then N.max fileSize0
                      (Z.to_N (calcFileOffset (config cf) offset + size))
               else fileSize0)) os),
     inr size).
Proof.
  intros Hf Hnode. unfold writePartialBlock. rewrite bind_getCf. cbn [fst].
  unfold bind at 1. rewrite (reopenForWrite_open _ f) by done.
  cbv [bind GS_FILE_WRITE_ALL modifyCf getOs getCf modifyOs ret throw].
  cbn [fst snd]. rewrite Hnode. cbn [fst snd].
  change (blockNum_ (addWriteRetry retryCount cf)) with (blockNum_ cf).
  by destruct (_ <? _).
Qed.

(** X20.  [writePartialBlock] of [size] bytes at [offset], through an open
    file and completed by the operating system, returns [size], raises
    [blockNum_] to the blocks that [size + offset] bytes take when it was
    lower, adds the retries to [writeRetryCount_], and counts no block in
    [writeBlockCount_].  The block size is 2^[BLOCK_EXP_SIZE_] and nothing
    overflows 64 bits. *)
Theorem writePartialBlock_success size offset retryCount cf os f fileSize0 :
  fileAt cf (calcFileNth (config cf) offset) = Some f →
  os_nodes os !! nf_name f = Some (File fileSize0) →
  0 ≤ BLOCK_EXP_SIZE_ (config cf) →
  BLOCK_SIZE_ (config cf) = 2 ^ BLOCK_EXP_SIZE_ (config cf) →
  0 ≤ blockNum_ cf →
  blockNum_ cf * BLOCK_SIZE_ (config cf) < 2 ^ 64 →
  0 ≤ size → 0 ≤ offset →
  size + offset + BLOCK_SIZE_ (config cf) - 1 < 2 ^ 64 →
  ∃ cf' os',
    writePartialBlock size offset (IoDone retryCount) (cf, os)
    = ((cf', os'), inr size)
    ∧ blockNum_ cf'
      = Z.max (blockNum_ cf) (blocksOf (config cf) (size + offset))
    ∧ writeBlockCount_ (counters cf') = writeBlockCount_ (counters cf)
    ∧ writeRetryCount_ (counters cf')
      = wrap64 (writeRetryCount_ (counters cf) + retryCount)
    ∧ allocState cf' = allocState cf
    ∧ os_punched os' = os_punched os.
Proof.
  intros Hf Hnode He Hbs Hn Hnb Hs Ho Hfit.
  eexists _, _. split; [by apply writePartialBlock_run|].
  assert (0 < BLOCK_SIZE_ (config cf)) as Hpos by (rewrite Hbs; lia).
  rewrite Z.shiftl_mul_pow2, Z.shiftr_div_pow2 by done.
  rewrite <- Hbs. rewrite !wrap64_small by lia.
  unfold blocksOf.
  set (q := (size + offset + BLOCK_SIZE_ (config cf) - 1)
            / BLOCK_SIZE_ (config cf)).
  pose proof (Z.div_mod (size + offset + BLOCK_SIZE_ (config cf) - 1)
                (BLOCK_SIZE_ (config cf)) ltac:(lia)) as Hdm.
  pose proof (Z.mod_pos_bound (size + offset + BLOCK_SIZE_ (config cf) - 1)
                (BLOCK_SIZE_ (config cf)) ltac:(lia)) as Hm.
  fold q in Hdm.
  destruct (blockNum_ cf * BLOCK_SIZE_ (config cf) <? size + offset) eqn:E;
    zbool; simpl; (split; [nia|done]).
Qed.

Lemma writeBlock_blockNum_le size blockNo io s :
  blockNum_ (fst s) ≤ blockNum_ (fst (fst (writeBlock size blockNo io s))).
Proof.
  destruct s as [cf os]. unfold writeBlock. rewrite bind_getCf. cbn [fst].
  cbv [bind reopenForWrite GS_FILE_WRITE_ALL NamedFile_open modifyCf getOs
       getCf modifyOs ret throw].
  cbn [fst snd].
  repeat case_match; simplify_eq; simpl; try lia;
    repeat match goal with
           | H : context [blockNum_ (addWriteRetry _ _)] |- _ => simpl in H
           end;
    zbool; lia.
Qed.

Section RunsBlockNum.
Context `{HeaderConstants}.

Lemma runOp_blockNum_le op s :
  mayLowerBlockNum op = false →
  blockNum_ (fst s) ≤ blockNum_ (fst (fst (runOp op s))).
Proof.
  intros Hop. destruct op; try done; simpl.
  - unfold liftCf. destruct (allocateBlock (fst s)) as [cf' b] eqn:E. simpl.
    pose proof (allocateBlock_others (fst s)) as (_ & Hn & _).
    rewrite E in Hn. simpl in Hn. lia.
  - unfold bind, modifyCf, ret, freeBlock. cbn [fst snd].
    pose proof (setUsedBlockInfo_others blockNo false (fst s)) as (_ & Hn & _).
    lia.
  - unfold bind, modifyCf, ret. cbn [fst snd].
    pose proof (setUsedBlockInfo_others blockNo flag (fst s)) as (_ & Hn & _).
    lia.
  - apply writeBlock_blockNum_le.
  - pose proof (readBlock_state size blockNo io s) as (_ & _ & Hn & _). lia.
Qed.

(** X21.  [blockNum_] never decreases over calls of [allocateBlock],
    [freeBlock], [setUsedBlockInfo], [setValidBlockInfo], [writeBlock] and
    [readBlock], whatever they return or throw: only [truncate] and
    [writePartialBlock] are left out. *)
Theorem blockNum_never_decreases ops s :
  Forall (λ op, mayLowerBlockNum op = false) ops →
  blockNum_ (fst s) ≤ blockNum_ (fst (runOps ops s)).
Proof.
  revert s. induction ops as [|op ops IH]; intros s Hops; simpl; [done|].
  apply Forall_cons in Hops as [Hop Hops].
  pose proof (runOp_blockNum_le op s Hop). specialize (IH (fst (runOp op s)) Hops).
  lia.
Qed.

End RunsBlockNum.

(** ** The constructor and the names of the files *)

Lemma forallb_false_exists {A} (f : A → bool) (l : list A) :
  forallb f l = false ↔ ∃ x, x ∈ l ∧ f x = false.
Proof.
  induction l as [|x l IH]; simpl.
  - split; [done|]. intros (x & Hx & _). by apply elem_of_nil in Hx.
  - rewrite andb_false_iff, IH. split.
    + intros [Hx|(y & Hy & Hf)].
      * exists x. split; [left|done].
      * exists y. split; [by right|done].
    + intros (y & Hy & Hf). apply elem_of_cons in Hy as [->|Hy].
      * by left.
      * right. by exists y.
Qed.

Lemma configDirs_free os configDirList splitCount :
  forallb (noFileAt os) (configDir configDirList <$> seqZ 0 splitCount) = true
  ↔ ∀ i size, 0 ≤ i < splitCount →
              os_nodes os !! configDir configDirList i ≠ Some (File size).
Proof.
  rewrite forallb_forall. unfold noFileAt. split.
  - intros Hall i size Hi Hnode.
    specialize (Hall (configDir configDirList i)).
    rewrite Hnode in Hall.
    assert (false = true) by
      (apply Hall; apply list_elem_of_In, list_elem_of_fmap;
       exists i; split; [done|apply elem_of_seqZ; lia]).
    done.
  - intros Hall d Hd.
    apply list_elem_of_In, list_elem_of_fmap in Hd as (i & -> & Hi).
    apply elem_of_seqZ in Hi.
    destruct (os_nodes os !! configDir configDirList i) as [[|size]|] eqn:E;
      try done.
    exfalso. apply (Hall i size); [lia|done].
Qed.

Lemma configDirs_file os configDirList splitCount :
  forallb (noFileAt os) (configDir configDirList <$> seqZ 0 splitCount) = false
  ↔ ∃ i size, 0 ≤ i < splitCount
              ∧ os_nodes os !! configDir configDirList i = Some (File size).
Proof.
  rewrite forallb_false_exists. unfold noFileAt. split.
  - intros (d & Hd & Hfalse).
    apply list_elem_of_fmap in Hd as (i & -> & Hi).
    apply elem_of_seqZ in Hi.
    destruct (os_nodes os !! configDir configDirList i) as [[|size]|] eqn:E;
      try done.
    exists i, size. split; [lia|done].
  - intros (i & size & Hi & Hnode).
    exists (configDir configDirList i). split.
    + apply list_elem_of_fmap. exists i. split; [done|].
      apply elem_of_seqZ. lia.
    + by rewrite Hnode.
Qed.

Section ConstructorResult.
Context `{HeaderConstants}.

(** X22.  The constructor returns a store exactly when the split count is
    0 and no directory is configured, or the split count is positive, at
    most [FILE_SPLIT_COUNT_LIMIT], at least the number of configured
    directories, of which there is one at least, the stripe size is at most
    [FILE_SPLIT_STRIPE_SIZE_LIMIT], and no directory given to a file is a
    regular file.  It throws [GS_ERROR_CM_IO_ERROR] exactly when only the
    last of these fails, and [GS_ERROR_CF_INVALID_DIRECTORY] in every other
    case. *)
Theorem CheckpointFile_new_succeeds_iff
    chunkExpSize dir pgId splitCount stripeSize configDirList os :
  0 ≤ splitCount →
  ((∃ cf, CheckpointFile_new chunkExpSize dir pgId splitCount stripeSize
            configDirList os = inr cf)
   ↔ (splitCount = 0 ∧ configDirList = [])
     ∨ (0 < splitCount
        ∧ 0 < Z.of_nat (length configDirList) ≤ splitCount
        ∧ splitCount ≤ FILE_SPLIT_COUNT_LIMIT
        ∧ stripeSize ≤ FILE_SPLIT_STRIPE_SIZE_LIMIT
        ∧ ∀ i size, 0 ≤ i < splitCount →
                    os_nodes os !! configDir configDirList i
                    ≠ Some (File size)))
  ∧ (CheckpointFile_new chunkExpSize dir pgId splitCount stripeSize
       configDirList os = inl GS_ERROR_CM_IO_ERROR
     ↔ 0 < splitCount
       ∧ 0 < Z.of_nat (length configDirList) ≤ splitCount
       ∧ splitCount ≤ FILE_SPLIT_COUNT_LIMIT
       ∧ stripeSize ≤ FILE_SPLIT_STRIPE_SIZE_LIMIT
       ∧ ∃ i size, 0 ≤ i < splitCount
                   ∧ os_nodes os !! configDir configDirList i
                     = Some (File size))
  ∧ (∀ e, CheckpointFile_new chunkExpSize dir pgId splitCount stripeSize
            configDirList os = inl e →
          e = GS_ERROR_CF_INVALID_DIRECTORY ∨ e = GS_ERROR_CM_IO_ERROR).
Proof.
  intros Hsplit.
  unfold CheckpointFile_new.
  change (forallb _
            ((λ i : Z, default ""%string
                (configDirList
                 !! Z.to_nat (i `mod` Z.of_nat (length configDirList))))
               <$> seqZ 0 (if splitCount =? 0 then 1 else splitCount)))
    with (forallb (noFileAt os)
            (configDir configDirList
               <$> seqZ 0 (if splitCount =? 0 then 1 else splitCount))).
  destruct (0 <? splitCount) eqn:Hmode; zbool.
  - destruct (splitCount =? 0) eqn:E0; zbool; [lia|].
    destruct (splitCount <? Z.of_nat (length configDirList)) eqn:E1; zbool.
    { split; [|split]; [split|split|].
      - by intros [cf ?].
      - intros [[? _]|(_ & ? & _)]; lia.
      - done.
      - intros (_ & ? & _). lia.
      - intros e [= <-]. by left. }
    destruct (Z.of_nat (length configDirList) =? 0) eqn:E2; zbool.
    { split; [|split]; [split|split|].
      - by intros [cf ?].
      - intros [[? _]|(_ & ? & _)]; lia.
      - done.
      - intros (_ & ? & _). lia.
      - intros e [= <-]. by left. }
    destruct (FILE_SPLIT_COUNT_LIMIT <? splitCount) eqn:E3; zbool.
    { split; [|split]; [split|split|].
      - by intros [cf ?].
      - intros [[? _]|(_ & _ & ? & _)]; lia.
      - done.
      - intros (_ & _ & ? & _). lia.
      - intros e [= <-]. by left. }
    destruct (FILE_SPLIT_STRIPE_SIZE_LIMIT <? stripeSize) eqn:E4; zbool.
    { split; [|split]; [split|split|].
      - by intros [cf ?].
      - intros [[? _]|(_ & _ & _ & ? & _)]; lia.
      - done.
      - intros (_ & _ & _ & ? & _). lia.
      - intros e [= <-]. by left. }
    destruct (forallb _ _) eqn:E5.
    + rewrite configDirs_free in E5.
      split; [|split]; [split|split|].
      * intros _. right. repeat split; try lia. done.
      * intros _. eexists. done.
      * done.
      * intros (_ & _ & _ & _ & i & size & Hi & Hnode).
        exfalso. by apply (E5 i size).
      * done.
    + rewrite configDirs_file in E5.
      split; [|split]; [split|split|].
      * by intros [cf ?].
      * intros [[? _]|(_ & _ & _ & _ & Hall)]; [lia|].
        destruct E5 as (i & size & Hi & Hnode). exfalso.
        by apply (Hall i size).
      * intros _. repeat split; try lia. done.
      * done.
      * intros e [= <-]. by right.
  - assert (splitCount = 0) as -> by lia. simpl.
    destruct (Z.of_nat (length configDirList) =? 0) eqn:E2; zbool; simpl.
    + assert (configDirList = []) as -> by (destruct configDirList; [done|simpl in E2; lia]).
      split; [|split]; [split|split|].
      * intros _. by left.
      * intros _. eexists. done.
      * done.
      * intros (? & _). lia.
      * done.
    + split; [|split]; [split|split|].
      * by intros [cf ?].
      * intros [[_ ->]|(? & _)]; [done|lia].
      * done.
      * intros (? & _). lia.
      * intros e [= <-]. by left.
Qed.

End ConstructorResult.

Lemma string_append_assoc (s1 s2 s3 : string) :
  (s1 +:+ s2) +:+ s3 = s1 +:+ (s2 +:+ s3).
Proof.
  rewrite <- (string_of_list_ascii_of_string ((s1 +:+ s2) +:+ s3)).
  rewrite <- (string_of_list_ascii_of_string (s1 +:+ s2 +:+ s3)).
  by rewrite !list_ascii_of_string_app, app_assoc.
Qed.

Section ConstructorState.
Context `{HeaderConstants}.

(** X23.  The store that the constructor returns: empty arrays, block
    count, free count, cursor and counters at 0, split mode exactly for a
    positive split count, one file at least, a block size of
    2^[chunkExpSize] below 64, and for every file no handle, no name yet, and
    the directory [configDirList[i mod configDirCount]] in split mode, [dir]
    otherwise. *)
Theorem CheckpointFile_new_state
    chunkExpSize dir pgId splitCount stripeSize configDirList os cf :
  CheckpointFile_new chunkExpSize dir pgId splitCount stripeSize
    configDirList os = inr cf →
  0 ≤ splitCount →
  usedChunkInfo_ cf = [] ∧ validChunkInfo_ cf = []
  ∧ blockNum_ cf = 0 ∧ freeUseBitNum_ cf = 0 ∧ freeBlockSearchCursor_ cf = 0
  ∧ counters cf
    = {| readBlockCount_ := 0; writeBlockCount_ := 0;
         readRetryCount_ := 0; writeRetryCount_ := 0 |}
  ∧ splitMode_ (config cf) = (0 <? splitCount)
  ∧ splitCount_ (config cf) = Z.max 1 splitCount
  ∧ (0 ≤ chunkExpSize < 64 → BLOCK_SIZE_ (config cf) = 2 ^ chunkExpSize)
  ∧ (∀ i, 0 ≤ i < splitCount_ (config cf) →
          fileAt cf i = None
          ∧ fileNameAt cf i = ""%string
          ∧ dirAt cf i
            = if 0 <? splitCount then configDir configDirList i else dir).
Proof.
  intros Hnew Hsplit.
  assert (splitCount_ (config cf) = Z.max 1 splitCount) as Hcount.
  { apply CheckpointFile_new_splitCount in Hnew as (-> & _).
    destruct (splitCount =? 0) eqn:E; zbool; lia. }
  assert (∀ i, 0 ≤ i < Z.max 1 splitCount →
               dirAt cf i
               = if 0 <? splitCount then configDir configDirList i else dir)
    as Hdirs.
  { intros i Hi. revert Hnew. unfold CheckpointFile_new, dirAt.
    destruct (0 <? splitCount) eqn:Hmode; zbool.
    - destruct (splitCount =? 0) eqn:E0; zbool; [lia|].
      repeat case_match; try done. intros [= <-]. simpl.
      rewrite list_lookup_fmap, lookup_seqZ_lt by lia. simpl.
      by rewrite Z.add_0_l, Z2Nat.id by lia.
    - assert (splitCount = 0) as -> by lia. assert (i = 0) as -> by lia.
      simpl. repeat case_match; try done. intros [= <-]. done. }
  assert (∀ i, 0 ≤ i < Z.max 1 splitCount →
               fileAt cf i = None ∧ fileNameAt cf i = ""%string) as Hfiles.
  { intros i Hi.
    assert (fileList_ (fileSet cf)
            = replicate (Z.to_nat (splitCount_ (config cf))) None
            ∧ fileNameList_ (fileSet cf)
              = replicate (Z.to_nat (splitCount_ (config cf))) ""%string)
      as [Hl Hn].
    { revert Hnew. unfold CheckpointFile_new.
      repeat case_match; try done; by intros [= <-]. }
    unfold fileAt, fileNameAt. rewrite Hl, Hn, Hcount.
    rewrite !lookup_replicate_2 by lia. done. }
  assert (0 ≤ chunkExpSize < 64 → BLOCK_SIZE_ (config cf) = 2 ^ chunkExpSize)
    as Hsize.
  { intros He.
    apply CheckpointFile_new_splitCount in Hnew as (_ & _ & _ & _ & ->).
    rewrite Z.shiftl_mul_pow2, Z.mul_1_l by lia.
    apply wrap64_small. split; [lia|].
    apply Z.pow_lt_mono_r; lia. }
  rewrite Hcount.
  apply CheckpointFile_new_splitCount in Hnew as Hconfig.
  destruct Hconfig as (_ & Hmode & _).
  revert Hnew. unfold CheckpointFile_new.
  repeat case_match; try done; intros [= <-]; simpl in *;
    repeat split; try done; try (by apply Hdirs); try (by apply Hfiles);
    intros i Hi; destruct (Hfiles i Hi) as [? ?];
    repeat split; try done; by apply Hdirs.
Qed.

(** X24.  The names that [open] gives are checkpoint file names: after a
    successful [open] of a newly constructed store, the name of file [i] is
    its directory followed by [gs_cp_<pgId>_<i>.dat] in split mode and by
    [gs_cp_<pgId>_1.dat] otherwise, and [checkFileName] reads the partition
    group and that index back from it.  The partition group is a
    [uint32_t], the split count an [int32_t]. *)
Theorem open_names_are_checkpoint_names
    chunkExpSize dir pgId splitCount stripeSize configDirList
    (os os' : OS) (cf cf' : CheckpointFile) (checkOnly createMode empty : bool)
    (i : Z) :
  CheckpointFile_new chunkExpSize dir pgId splitCount stripeSize
    configDirList os = inr cf →
  open checkOnly createMode (cf, os) = ((cf', os'), inr empty) →
  0 ≤ pgId ≤ UINT32_MAX →
  0 ≤ splitCount ≤ INT32_MAX →
  0 ≤ i < splitCount_ (config cf) →
  ∃ directory,
    fileNameAt cf' i
    = directory +:+ cpFileName pgId (if 0 <? splitCount then i else 1)
    ∧ directory
      = (if 0 <? splitCount then dirAt cf i +:+ "/"
         else if bool_decide (dir = ""%string) then ""%string
              else dir +:+ "/")
    ∧ checkFileName (cpFileName pgId (if 0 <? splitCount then i else 1))
      = Some (pgId, if 0 <? splitCount then i else 1).
Proof.
  intros Hnew Hopen Hpg Hsplit Hi.
  destruct (open_success_files _ _ _ _ _ _ _ _ _ _ _ _ _ Hnew Hopen i Hi)
    as (_ & Hname & _).
  apply CheckpointFile_new_splitCount in Hnew
    as (Hcount & Hmode & Hpgid & Hdir & _).
  rewrite Hname. unfold openFileName. rewrite Hmode, Hpgid, Hdir.
  eexists. split; [|split; [reflexivity|]].
  - destruct (0 <? splitCount); [|done].
    by rewrite string_append_assoc.
  - apply checkFileName_cpFileName; [done|].
    rewrite Hcount in Hi. unfold INT32_MIN, INT32_MAX in *.
    destruct (0 <? splitCount) eqn:E; destruct (splitCount =? 0) eqn:E0;
      zbool; lia.
Qed.

End ConstructorState.

(** X25.  The numbers that [checkFileName] returns are a [uint32_t] and an
    [int32_t], and the name written for them is read back as the same
    numbers: reading a name, writing its numbers and reading again gives
    the first result. *)
Theorem checkFileName_normalises name pgId splitId :
  checkFileName name = Some (pgId, splitId) →
  0 ≤ pgId ≤ UINT32_MAX
  ∧ INT32_MIN ≤ splitId ≤ INT32_MAX
  ∧ checkFileName (cpFileName pgId splitId) = Some (pgId, splitId).
Proof.
  intros Hname. apply checkFileName_accepted in Hname
    as (ws1 & sg1 & ds1 & ws2 & ws3 & sg2 & ds2 & _ & _ & _ & _
        & _ & Hds1 & _ & Hds2 & Hmax1 & Hmax2 & -> & ->).
  pose proof (digitsValue_nonneg ds1 0 Hds1 ltac:(lia)) as Hnn1.
  pose proof (digitsValue_nonneg ds2 0 Hds2 ltac:(lia)) as Hnn2.
  assert (0 ≤ uint32Value sg1 (digitsValue ds1 0) ≤ UINT32_MAX) as Hr1.
  { unfold uint32Value, wrap32, UINT32_MAX in *.
    destruct sg1; try lia.
    pose proof (Z.mod_pos_bound (- digitsValue ds1 0) (2 ^ 32)) as Hm. lia. }
  assert (INT32_MIN ≤ signedValue sg2 (digitsValue ds2 0) ≤ INT32_MAX) as Hr2.
  { unfold signedValue, INT32_MIN, INT32_MAX in *. destruct sg2; lia. }
  split; [done|]. split; [done|].
  by apply checkFileName_cpFileName.
Qed.

(** ** Allocations in a row *)

Section ManyAllocationFacts.
Context `{HeaderConstants}.

Lemma searchFree_here u n pos count :
  0 ≤ pos < 2 ^ 63 → BitArray.get u pos = false →
  searchFree u (S n) pos count = (pos, pos, count).
Proof.
  intros Hpos Hget. simpl. rewrite Hget. simpl.
  by rewrite to_int64_small by lia.
Qed.

Lemma allocatedUpTo_step m k cf :
  Z.of_nat m < 2 ^ 63 → Z.of_nat k < 2 ^ 63 - 1 →
  allocatedUpTo m k cf →
  snd (allocateBlock cf) = Z.of_nat k
  ∧ allocatedUpTo m (S k) (fst (allocateBlock cf)).
Proof.
  intros Hm Hk (Hu & Hf & Hc).
  assert (BitArray.length (usedChunkInfo_ cf) = Z.of_nat (Nat.max m k))
    as Hlen.
  { unfold BitArray.length. rewrite Hu, length_app, !length_replicate. lia. }
  destruct (decide (k < m)%nat) as [Hlt|Hge].
  - assert ((k <? m)%nat = true) as Hb by (apply Nat.ltb_lt; lia).
    rewrite Hb in Hc. rewrite Nat.max_l in Hlen by lia.
    assert (BitArray.get (usedChunkInfo_ cf) (Z.of_nat k) = false) as Hget.
    { rewrite BitArray_get_in by lia. rewrite Nat2Z.id, Hu.
      rewrite lookup_app_r by (rewrite length_replicate; lia).
      rewrite length_replicate, Nat.sub_diag.
      rewrite lookup_replicate_2 by lia. done. }
    destruct (allocateBlock_found cf (Z.of_nat k) 0) as (Hb' & Hu' & Hc').
    + lia.
    + lia.
    + lia.
    + unfold searchFromCursor. rewrite Hc, Hlen.
      replace (Z.to_nat (Z.of_nat m - Z.of_nat k))
        with (S (m - k - 1)) by lia.
      rewrite searchFree_here by (done || lia).
      destruct (Z.of_nat k =? -1) eqn:E; [zbool; lia|]. done.
    + split; [done|].
      destruct (allocateBlock cf) as [cf' b] eqn:Hrun. simpl in *.
      apply allocateBlock_allocated in Hrun; [|lia..].
      destruct Hrun as [_ _ _ _ _ Hfree _ | Hb'' _ _ _ _]; [|lia].
      unfold allocatedUpTo. rewrite Hu', Hfree, Hc', Hlen, Hu, Hf.
      split; [|split].
      * unfold BitArray.set.
        assert (BitArray.length
                  (replicate k true ++ replicate (m - k) false)
                = Z.of_nat m) as -> by (by rewrite <- Hu).
        destruct (Z.of_nat k <? Z.of_nat m) eqn:E;
          [|zbool; lia].
        rewrite Nat2Z.id.
        rewrite insert_app_r_alt by (rewrite length_replicate; lia).
        rewrite length_replicate, Nat.sub_diag.
        replace (m - k)%nat with (S (m - S k)) by lia.
        simpl. rewrite cons_middle, app_assoc, <- replicate_cons_app. done.
      * rewrite wrap64_small by lia. lia.
      * destruct (Nat.ltb_spec (S k) m) as [E1|E1];
          destruct (Z.ltb_spec (Z.of_nat k + 1) (Z.of_nat m)) as [E2|E2];
          lia.
  - assert ((k <? m)%nat = false) as Hb by (apply Nat.ltb_ge; lia).
    rewrite Hb in Hc.
    replace (m - k)%nat with 0%nat in Hu, Hf by lia.
    simpl in Hu, Hf. rewrite app_nil_r in Hu.
    rewrite Nat.max_r in Hlen by lia.
    unfold allocateBlock. rewrite Hf. simpl. rewrite Hlen.
    rewrite to_int64_small by lia. split; [done|].
    unfold allocatedUpTo.
    rewrite setUsedBlockInfo_used, setUsedBlockInfo_free,
      setUsedBlockInfo_cursor.
    simpl. rewrite wrap64_small by lia. rewrite Hu.
    assert (BitArray.length (replicate k true) = Z.of_nat k) as Hl
      by (unfold BitArray.length; by rewrite length_replicate).
    rewrite <- Hl at 1 2. rewrite BitArray_set_appended, BitArray_get_appended.
    simpl.
    replace (m - S k)%nat with 0%nat by lia.
    assert ((S k <? m)%nat = false) as -> by (apply Nat.ltb_ge; lia).
    simpl. rewrite app_nil_r, <- replicate_cons_app. done.
Qed.

Lemma allocateMany_run m n k cf :
  Z.of_nat m < 2 ^ 63 → Z.of_nat k + Z.of_nat n < 2 ^ 63 →
  allocatedUpTo m k cf →
  snd (allocateMany n cf) = seqZ (Z.of_nat k) (Z.of_nat n)
  ∧ allocatedUpTo m (k + n) (fst (allocateMany n cf)).
Proof.
  revert k cf. induction n as [|n IH]; intros k cf Hm Hk Hst.
  - simpl. rewrite Nat.add_0_r. done.
  - cbn [allocateMany].
    destruct (allocatedUpTo_step m k cf) as [Hb Hst']; [lia..|done|].
    destruct (allocateBlock cf) as [cf1 b]. simpl in Hb, Hst'. subst b.
    destruct (IH (S k) cf1) as [Hbs Hst'']; [lia..|done|].
    destruct (allocateMany n cf1) as [cf2 bs]. simpl in *. subst bs.
    split.
    + rewrite (seqZ_cons (Z.of_nat k)) by lia. f_equal.
      f_equal; lia.
    + by replace (k + S n)%nat with (S k + n)%nat by lia.
Qed.

(** X26.  Allocation in a row: from an array of [m] clear bits, counted
    free, with the cursor at 0, [n] calls of [allocateBlock] return the
    blocks 0, 1, ..., [n - 1] in this order, first over the clear bits and
    then by appending; afterwards the first [n] bits are set and the count
    is what is left of [m]. *)
Theorem allocateMany_sequential (m n : nat) cf :
  usedChunkInfo_ cf = replicate m false →
  freeUseBitNum_ cf = Z.of_nat m →
  freeBlockSearchCursor_ cf = 0 →
  Z.of_nat m < 2 ^ 63 → Z.of_nat n < 2 ^ 63 →
  snd (allocateMany n cf) = seqZ 0 (Z.of_nat n)
  ∧ usedChunkInfo_ (fst (allocateMany n cf))
    = replicate n true ++ replicate (m - n) false
  ∧ freeUseBitNum_ (fst (allocateMany n cf)) = Z.of_nat (m - n).
Proof.
  intros Hu Hf Hc Hm Hn.
  destruct (allocateMany_run m n 0 cf) as [Hb (Hu' & Hf' & _)];
    [done|lia| |done].
  unfold allocatedUpTo. rewrite Nat.sub_0_r. simpl.
  split; [done|]. split; [done|].
  destruct m; simpl; done.
Qed.

End ManyAllocationFacts.

(** ** The further properties at work on the example store *)

Lemma open_directory_missing_witness :
  open false true (exampleNew, {| os_nodes := ∅; os_punched := [] |})
  = ((exampleNew, {| os_nodes := ∅; os_punched := [] |}),
     inl GS_ERROR_CF_INVALID_DIRECTORY).
Proof.
  apply (open_directory_missing false true exampleNew
           {| os_nodes := ∅; os_punched := [] |} "/tmp/t1").
  - by vm_compute.
  - by vm_compute.
  - by vm_compute.
Defined.

Lemma open_creates_only_in_create_mode_witness :
  snd (fst (open true true (exampleNew, exampleOS))) = exampleOS.
Proof. apply open_creates_only_in_create_mode. by vm_compute. Defined.

Lemma open_missing_file_witness :
  open true true (exampleNew, exampleOS)
  = ((setFileNameAt 0 (openFileName exampleNew 0) exampleNew, exampleOS),
     inl GS_ERROR_CM_FILE_NOT_FOUND)
  ∧ snd (open false true (exampleNew, exampleOS)) = inr true.
Proof.
  split.
  - destruct (open_missing_file true true exampleNew exampleOS) as [Hthrow _];
      [by vm_compute|by vm_compute|by vm_compute|].
    apply Hthrow. by vm_compute.
  - destruct (open_missing_file false true exampleNew exampleOS)
      as [_ Hcreate]; [by vm_compute|by vm_compute|by vm_compute|].
    apply Hcreate. by vm_compute.
Defined.

Lemma open_holds_every_file_witness :
  fileAt (fst exampleOpened) 0
  = Some (openedHandle (openFileName exampleNew 0) false)
  ∧ fileNameAt (fst exampleOpened) 0 = openFileName exampleNew 0.
Proof.
  destruct (@open_holds_every_file exampleConstants 16 "/tmp/t1" 0 0 0 []
              exampleOS (snd exampleOpened) exampleNew (fst exampleOpened)
              false true true) with (i := 0) as (_ & Hname & Hfile & _).
  - by vm_compute.
  - by vm_compute.
  - by vm_compute.
  - split; [exact Hfile|exact Hname].
Defined.

Lemma getFileSize_after_open_witness :
  getFileSize
    (fst (fst (open true false (exampleNew, exampleOSWithFile))),
     exampleOSWithFile)
  = ((fst (fst (open true false (exampleNew, exampleOSWithFile))),
      exampleOSWithFile),
     inr (totalBytes
            (fst (fst (open true false (exampleNew, exampleOSWithFile))))
            exampleOSWithFile))
  ∧ totalBytes (fst (fst (open true false (exampleNew, exampleOSWithFile))))
      exampleOSWithFile = 3 * 65536 + 1
  ∧ blockNum_ (fst (fst (open true false (exampleNew, exampleOSWithFile))))
    = 4.
Proof.
  split; [|split; by vm_compute].
  destruct (@getFileSize_after_open exampleConstants 16 "/tmp/t1" 0 0 0 []
              exampleOSWithFile exampleOSWithFile exampleNew
              (fst (fst (open true false (exampleNew, exampleOSWithFile))))
              true false false) as (Hsize & _).
  - by vm_compute.
  - by vm_compute.
  - done.
  - split; by vm_compute.
  - intros path size. simpl. intros Hnode.
    apply lookup_insert_Some in Hnode as [[_ [=]]|[_ Hnode]].
    apply lookup_singleton_Some in Hnode as [_ [= <-]]. by vm_compute.
  - by vm_compute.
  - by vm_compute.
  - exact Hsize.
Defined.

Lemma allocate_scan_is_capped_witness :
  snd (@allocateBlock exampleConstants exampleFragmented) = 2001
  ∧ usedChunkInfo_ (fst (@allocateBlock exampleConstants exampleFragmented))
    = replicate 2000 true ++ [false; true]
  ∧ BitArray.get
      (validChunkInfo_ (fst (@allocateBlock exampleConstants exampleFragmented)))
      2001 = false
  ∧ snd (@allocateBlock exampleConstants exampleFragmented)
    = BitArray.length (usedChunkInfo_ exampleFragmented).
Proof.
  assert (BitArray.length (usedChunkInfo_ exampleFragmented) < 2 ^ 63) as Hlen
    by (by vm_compute).
  assert (0 ≤ @ALLOCATE_BLOCK_SEARCH_LIMIT exampleConstants
          ∧ cursorOk exampleFragmented
          ∧ forallb (BitArray.get (usedChunkInfo_ exampleFragmented))
              (@scanWindow exampleConstants (usedChunkInfo_ exampleFragmented)
                 (freeBlockSearchCursor_ exampleFragmented)) = true) as Hset.
  { split; [by vm_compute|]. split; [split; by vm_compute|by vm_compute]. }
  destruct (@allocate_scan_is_capped exampleConstants exampleFragmented)
    as (Hscenario & Hgeneral & _).
  destruct (Hscenario eq_refl eq_refl eq_refl eq_refl) as (Hp & Hu & Hv).
  destruct (Hgeneral Hlen (or_intror Hset)) as (Hp' & _).
  split; [exact Hp|]. split; [exact Hu|]. split; [exact Hv|exact Hp'].
Defined.


Lemma truncate_empties_every_file_witness :
  os_nodes (snd (fst (truncate exampleWritten)))
    !! fileNameAt (fst exampleWritten) 0 = Some (File 0)
  ∧ getFileSize (fst (fst (truncate exampleWritten)),
                 snd (fst (truncate exampleWritten)))
    = ((fst (fst (truncate exampleWritten)),
        snd (fst (truncate exampleWritten))), inr 0).
Proof.
  assert (0 ≤ 0 < splitCount_ (config (fst exampleWritten))) as Hin
    by (by vm_compute).
  destruct (truncate_empties_every_file
              (fst exampleWritten) (snd exampleWritten)
              (fst (fst (truncate exampleWritten)))
              (snd (fst (truncate exampleWritten))))
    as (Hfiles & _ & _ & Hsize).
  - by vm_compute.
  - by vm_compute.
  - split; [|exact Hsize]. exact (proj1 (Hfiles 0 Hin)).
Defined.

Lemma writeBlock_success_witness :
  ∃ cf' os',
    @writeBlock 2 3 (IoDone 1) (fst exampleOpened, snd exampleOpened)
    = ((cf', os'), inr 2)
    ∧ blockNum_ cf' = 5
    ∧ writeBlockCount_ (counters cf') = 2
    ∧ writeRetryCount_ (counters cf') = 1.
Proof.
  destruct (writeBlock_success 2 3 1 (fst exampleOpened) (snd exampleOpened)
              (openedHandle (openFileName exampleNew 0) false) 0)
    as (cf' & os' & Hrun & Hn & Hw & Hr & _).
  - by vm_compute.
  - by vm_compute.
  - lia.
  - lia.
  - lia.
  - by vm_compute.
  - by vm_compute.
  - exists cf', os'. split; [exact Hrun|].
    split; [exact Hn|]. split; [exact Hw|exact Hr].
Defined.

Lemma failed_transfer_counts_nothing_witness :
  snd (writeBlock 1 0 IoFailed exampleOpened) = inl GS_ERROR_CM_IO_ERROR
  ∧ core (fst (fst (writeBlock 1 0 IoFailed exampleOpened)))
    = core (fst exampleOpened).
Proof.
  split; [by vm_compute|].
  apply (proj1 (failed_transfer_counts_nothing 1 0 IoFailed exampleOpened
                  GS_ERROR_CM_IO_ERROR)).
  by vm_compute.
Defined.

Lemma readBlock_without_file_witness :
  readBlock 1 0 (IoDone 0) (exampleNew, exampleOS)
  = ((exampleNew, exampleOS), inr 0).
Proof.
  apply readBlock_without_file; by vm_compute.
Defined.

Lemma readBlock_success_witness :
  readBlock 1 1 (IoDone 3) (fst exampleTwoBlocks, snd exampleTwoBlocks)
  = ((addReadBlockCount 1 (addReadRetry 3 (fst exampleTwoBlocks)),
      snd exampleTwoBlocks), inr 1).
Proof.
  apply (readBlock_success 1 1 3 (fst exampleTwoBlocks) (snd exampleTwoBlocks)
           (openedHandle (openFileName exampleNew 0) false) (2 * 65536)).
  - by vm_compute.
  - by vm_compute.
  - by vm_compute.
  - lia.
  - by vm_compute.
  - by vm_compute.
Defined.

Lemma writeBlock_then_readBlock_witness :
  readBlockInvalid (fst (fst (writeBlock 2 3 (IoDone 0) exampleOpened))) 2 3
  = false.
Proof.
  destruct (writeBlock_then_readBlock 2 3 (IoDone 0) (IoDone 0)
              (fst exampleOpened) (snd exampleOpened)
              (fst (fst (writeBlock 2 3 (IoDone 0) exampleOpened)))
              (snd (fst (writeBlock 2 3 (IoDone 0) exampleOpened))) 2)
    as (_ & _ & Hvalid & _).
  - by vm_compute.
  - lia.
  - lia.
  - lia.
  - exact Hvalid.
Defined.

Lemma writePartialBlock_success_witness :
  ∃ cf' os',
    writePartialBlock 100 70000 (IoDone 0)
      (fst exampleOpened, snd exampleOpened)
    = ((cf', os'), inr 100)
    ∧ blockNum_ cf' = 2
    ∧ writeBlockCount_ (counters cf') = 0.
Proof.
  destruct (writePartialBlock_success 100 70000 0
              (fst exampleOpened) (snd exampleOpened)
              (openedHandle (openFileName exampleNew 0) false) 0)
    as (cf' & os' & Hrun & Hn & Hw & _).
  - by vm_compute.
  - by vm_compute.
  - by vm_compute.
  - by vm_compute.
  - by vm_compute.
  - by vm_compute.
  - lia.
  - lia.
  - by vm_compute.
  - exists cf', os'. split; [exact Hrun|]. split; [exact Hn|exact Hw].
Defined.

Lemma blockNum_never_decreases_witness :
  blockNum_ (fst exampleOpened)
  ≤ blockNum_
      (fst (@runOps exampleConstants
              [OpAllocate; OpWrite 1 0 (IoDone 0); OpFree 0;
               OpRead 1 0 IoFailed; OpWrite 1 5 IoFailed]
              exampleOpened)).
Proof.
  apply (@blockNum_never_decreases exampleConstants).
  repeat constructor.
Defined.

Lemma CheckpointFile_new_succeeds_iff_witness :
  (∃ cf, @CheckpointFile_new exampleConstants 16 "/tmp/t1" 0 0 0 [] exampleOS
         = inr cf)
  ∧ @CheckpointFile_new exampleConstants 16 "" 0 2 4 ["/tmp/t1"%string]
      {| os_nodes := {[ "/tmp/t1"%string := File 7 ]}; os_punched := [] |}
    = inl GS_ERROR_CM_IO_ERROR.
Proof.
  split.
  - apply (proj1 (@CheckpointFile_new_succeeds_iff exampleConstants
                    16 "/tmp/t1" 0 0 0 [] exampleOS ltac:(lia))).
    by left.
  - by vm_compute.
Defined.

Lemma CheckpointFile_new_state_witness :
  dirAt exampleNew 0 = "/tmp/t1"%string
  ∧ splitCount_ (config exampleNew) = 1.
Proof.
  destruct (@CheckpointFile_new_state exampleConstants 16 "/tmp/t1" 0 0 0 []
              exampleOS exampleNew)
    as (_ & _ & _ & _ & _ & _ & _ & Hcount & _ & Hfiles).
  - by vm_compute.
  - lia.
  - split; [|exact Hcount].
    apply (Hfiles 0). by vm_compute.
Defined.

Lemma open_names_are_checkpoint_names_witness :
  ∃ directory,
    fileNameAt (fst exampleOpened) 0 = directory +:+ cpFileName 0 1
    ∧ checkFileName (cpFileName 0 1) = Some (0, 1).
Proof.
  destruct (@open_names_are_checkpoint_names exampleConstants
              16 "/tmp/t1" 0 0 0 [] exampleOS (snd exampleOpened) exampleNew
              (fst exampleOpened) false true true 0)
    as (directory & Hname & _ & Hcheck).
  - by vm_compute.
  - by vm_compute.
  - by vm_compute.
  - by vm_compute.
  - by vm_compute.
  - exists directory. split; [exact Hname|exact Hcheck].
Defined.

Lemma checkFileName_normalises_witness :
  checkFileName (cpFileName 4294967279 3) = Some (4294967279, 3).
Proof.
  apply (checkFileName_normalises "gs_cp_ -17_+3.dat" 4294967279 3).
  by vm_compute.
Defined.

Lemma allocateMany_sequential_witness :
  snd (@allocateMany exampleConstants 4 (fst exampleOpened)) = [0; 1; 2; 3]
  ∧ usedChunkInfo_ (fst (@allocateMany exampleConstants 4 (fst exampleOpened)))
    = [true; true; true; true].
Proof.
  destruct (@allocateMany_sequential exampleConstants 2 4 (fst exampleOpened))
    as (Hblocks & Hused & _).
  - by vm_compute.
  - by vm_compute.
  - by vm_compute.
  - by vm_compute.
  - by vm_compute.
  - split; [exact Hblocks|exact Hused].
Defined.
